(** * Braided: dependency-aware start/halt orchestration

    A shallow embedding of the orchestration core of the repository:

    - [normalizeDependencies]   (src/dependencies.ts)
    - [topologicalSort]         (topological-sort.ts, Kahn's algorithm)
    - [buildTopology], [toMermaid], [toDot], [toJSON]   (src/topology.ts)
    - [startSystem], [haltSystem], [resolveDependencies]   (system.ts)

    JavaScript objects are association lists ([obj]) in the order in
    which their properties were created, with the order in which
    [Object.keys] and [Object.entries] enumerate them ([entries]) and the
    properties every plain object inherits ([Object_prototype]) beside
    them; the [Set] of [normalizeDependencies] is a [gset].
    Resource operations are user code: they are functions over an abstract
    world state [W], and every invocation is recorded in an event log, the
    way the test-suite instruments resources with spies. *)

From stdpp Require Import base option list strings gmap relations sorting.
From Stdlib Require Import ZArith Lia.

Open Scope Z_scope.

(** ** JavaScript values *)

(** Instances, thrown values and error causes are arbitrary values.
    [VObj] is an opaque object (a started instance, say), [VError] an
    [Error] object with its [message] and [cause] ([VUndefined] when no
    cause was set), [VTypeError] a [TypeError] raised by the runtime,
    [VBuiltin name] what [Object.prototype] holds under [name]: one of its
    functions, or the prototype itself under [__proto__]. *)
Inductive Value : Type :=
  | VUndefined
  | VNull
  | VBool (b : bool)
  | VNum (n : Z)
  | VStr (s : string)
  | VObj (handle : nat)
  | VError (message : string) (cause : Value)
  | VTypeError
  | VBuiltin (name : string).

#[global] Instance Value_eq_dec : EqDecision Value.
Proof. solve_decision. Defined.

(** Truthiness, as used by [if (v)], [v && ...] and [v || ...]. *)
Definition truthy (v : Value) : bool :=
  match v with
  | VUndefined | VNull => false
  | VBool b => b
  | VNum n => negb (n =? 0)
  | VStr s => negb (String.eqb s EmptyString)
  | VObj _ | VError _ _ | VTypeError | VBuiltin _ => true
  end.

(** The result of running code that may throw. *)
Inductive Outcome (A : Type) : Type :=
  | Returns (a : A)
  | Throws (v : Value).
Arguments Returns {A} a.
Arguments Throws {A} v.

(** JavaScript numbers as the code uses them: integers, and [NaN], which
    is what arithmetic on [undefined] produces. *)
Inductive num : Type :=
  | Int (z : Z)
  | NaN.

#[global] Instance num_eq_dec : EqDecision num.
Proof. solve_decision. Defined.

(** ** Objects *)

(** A [Record<string, V>] or a [Map<string, V>]: its own entries, in the
    order in which they were created. An object has each key once; the
    statements below ask it of a configuration as [NoDup (keys cfg)].

    A [Map] enumerates in the order of creation. [Object.keys],
    [Object.values] and [Object.entries] of a plain object list the keys
    that are canonical array indices first, in ascending numeric order,
    and the other keys after them in the order of creation: [own_order],
    [entries], [own_keys]. An object that is handed to the code (a
    configuration, the resources of the sorter, a started system) is the
    list [Object.entries] gives for it, and the objects the code fills
    while it walks that list ([inDegree], [graph], [dependents], the
    resources of a pass) are created in the order in which they
    enumerate. [depths] is filled in the startup order and then
    enumerated: there the code's enumeration is [entries].

    Reading [o[k]] on a plain object finds an own property ([get]) or,
    failing that, a property of [Object.prototype] ([Object_prototype]).
    Assigning to [__proto__] creates no property: the objects here are
    those that have no key of that name. *)
Module Obj.

Definition obj (V : Type) : Type := list (string * V).

(** The own property [k] of [o]; [None] where [o] has none. *)
Fixpoint get {V} (o : obj V) (k : string) : option V :=
  match o with
  | [] => None
  | (k', v) :: o' => if decide (k = k') then Some v else get o' k
  end.

(** [o[k] = v]: an existing key keeps its place, a new key goes last. *)
Fixpoint set {V} (o : obj V) (k : string) (v : V) : obj V :=
  match o with
  | [] => [(k, v)]
  | (k', v') :: o' =>
      if decide (k = k') then (k, v) :: o' else (k', v') :: set o' k v
  end.

(** The keys and the values of the entries, in the order of creation. *)
Definition keys {V} (o : obj V) : list string := o.*1.
Definition values {V} (o : obj V) : list V := o.*2.

(** The properties of [Object.prototype], each with the [length] of the
    function it holds; [__proto__] holds the prototype itself, which has
    no [length]. *)
Definition Object_prototype : obj (option Z) :=
  [ ("constructor", Some 1); ("__defineGetter__", Some 2);
    ("__defineSetter__", Some 2); ("hasOwnProperty", Some 1);
    ("__lookupGetter__", Some 1); ("__lookupSetter__", Some 1);
    ("isPrototypeOf", Some 1); ("propertyIsEnumerable", Some 1);
    ("toString", Some 0); ("valueOf", Some 0); ("__proto__", None);
    ("toLocaleString", Some 0) ]%string.

(** A name that every plain object answers to. *)
Definition inherited (k : string) : Prop := k ∈ keys Object_prototype.

(** The value of a decimal digit, and of a string of them. *)
Definition digit (c : Ascii.ascii) : option N :=
  let n := Ascii.N_of_ascii c in
  if ((48 <=? n) && (n <=? 57))%N then Some (n - 48)%N else None.

Fixpoint numeral (s : string) (acc : N) : option N :=
  match s with
  | EmptyString => Some acc
  | String c s' =>
      match digit c with
      | Some d => numeral s' (10 * acc + d)%N
      | None => None
      end
  end.

(** The array index a key stands for: the key is the canonical numeral
    (no leading zero) of an integer below [2^32 - 1]. *)
Definition array_index (k : string) : option N :=
  match k with
  | EmptyString => None
  | String c k' =>
      match numeral k 0 with
      | Some n =>
          if bool_decide (digit c = Some 0%N ∧ k' ≠ EmptyString) then None
          else if (n <? 2 ^ 32 - 1)%N then Some n else None
      | None => None
      end
  end.

(** Insertion into a list that is ascending in [rank]. *)
Fixpoint insert_by {A} (rank : A → N) (x : A) (l : list A) : list A :=
  match l with
  | [] => [x]
  | y :: l' => if (rank x <=? rank y)%N then x :: l else y :: insert_by rank x l'
  end.

Definition sort_by {A} (rank : A → N) (l : list A) : list A :=
  foldr (insert_by rank) [] l.

Definition is_index (k : string) : bool := bool_decide (is_Some (array_index k)).
Definition index_rank (k : string) : N := default 0%N (array_index k).

(** The order in which a plain object enumerates keys created in the
    order [ids]. *)
Definition own_order (ids : list string) : list string :=
  sort_by index_rank (filter (λ k, is_index k = true) ids)
  ++ filter (λ k, is_index k = false) ids.

(** [Object.entries(o)], [Object.keys(o)]. *)
Definition entries {V} (o : obj V) : obj V :=
  sort_by (λ e, index_rank e.1) (filter (λ e, is_index e.1 = true) o)
  ++ filter (λ e, is_index e.1 = false) o.


End Obj.
Import Obj.

(** ** Dependency declarations (src/resource.ts, src/dependencies.ts) *)

(** [DependenciesSpec]: an array of ids, or an object with optional
    [required] and [optional] arrays. *)
Inductive DependenciesSpec : Type :=
  | DepsArray (ids : list string)
  | DepsObject (required optional : option (list string)).

Record NormalizedDependencies : Type := {
  required : list string;
  optional : list string;
  all : list string;
}.

(** The de-duplicating loop of [normalizeDependencies]:
    [for (const id of ...) { if (seen.has(id)) continue; seen.add(id); all.push(id) }]. *)
Fixpoint dedup_loop (ids : list string) (seen : gset string) (acc : list string)
  : list string :=
  match ids with
  | [] => acc
  | id :: ids' =>
      if decide (id ∈ seen) then dedup_loop ids' seen acc
      else dedup_loop ids' ({[id]} ∪ seen) (acc ++ [id])
  end.

Definition normalizeDependencies (deps : option DependenciesSpec)
  : NormalizedDependencies :=
  match deps with
  | None => {| required := []; optional := []; all := [] |}
  | Some (DepsArray ids) =>
      (* [[...deps].map(String)]: ids are strings already *)
      let required := ids in
      {| required := required; optional := []; all := required |}
  | Some (DepsObject req opt) =>
      let required := default [] req in
      let optional := default [] opt in
      {| required := required;
         optional := optional;
         all := dedup_loop (required ++ optional) ∅ [] |}
  end.

(** The list with every id kept at its first occurrence only: the reading
    of "skipping any id already seen" that does not mention a loop. *)
Fixpoint first_occurrences (ids : list string) : list string :=
  match ids with
  | [] => []
  | id :: ids' => id :: filter (λ x, x ≠ id) (first_occurrences ids')
  end.

(** ** Number and string helpers *)

(** [(x || 0) + 1] on a possibly undefined counter: [undefined], [NaN]
    and [0] are all falsy. *)
Definition or0_add1 (x : option num) : num :=
  match x with
  | Some (Int z) => Int (z + 1)
  | Some NaN | None => Int 1
  end.

(** [x! - 1]: arithmetic on [undefined] gives [NaN]. *)
Definition sub1 (x : option num) : num :=
  match x with
  | Some (Int z) => Int (z - 1)
  | Some NaN | None => NaN
  end.

(** [Math.max(x, ...xs)] with at least one argument; an [undefined]
    argument ([None]) is coerced to [NaN], and [NaN] is absorbing. *)
Fixpoint Math_max (x : option num) (xs : list (option num)) : num :=
  match x, xs with
  | Some (Int z), [] => Int z
  | Some (Int z), y :: ys =>
      match Math_max y ys with
      | Int m => Int (Z.max z m)
      | NaN => NaN
      end
  | _, _ => NaN
  end.

Definition add1 (x : num) : num :=
  match x with
  | Int z => Int (z + 1)
  | NaN => NaN
  end.

Definition dquote : string := String (Ascii.ascii_of_nat 34) EmptyString.

(** [`Resource "${id}" depends on "${depId}" which doesn't exist in the system config`] *)
Definition missing_dependency_message (id depId : string) : string :=
  ("Resource " ++ dquote ++ id ++ dquote ++ " depends on " ++ dquote ++ depId
    ++ dquote ++ " which doesn't exist in the system config")%string.

(** [`Circular dependency detected in resource system. Unprocessed resources: ${unprocessed.join(", ")}`] *)
Definition circular_dependency_message (unprocessed : list string) : string :=
  ("Circular dependency detected in resource system. Unprocessed resources: "
    ++ String.concat ", " unprocessed)%string.

(** [`Invalid dependencies for resource "${id}"`] *)
Definition invalid_dependencies_message (id : string) : string :=
  ("Invalid dependencies for resource " ++ dquote ++ id ++ dquote)%string.

(** [new Error(message)] *)
Definition new_Error (message : string) : Value := VError message VUndefined.

#[global] Instance Outcome_ret : MRet Outcome := λ A a, Returns a.
#[global] Instance Outcome_bind : MBind Outcome := λ A B f m,
  match m with
  | Returns a => f a
  | Throws v => Throws v
  end.

(** [for (const x of d || [])]: the ids the loop visits. An object that
    is not an array is truthy and not iterable, so the loop raises a
    [TypeError]. *)
Definition iterate (d : option DependenciesSpec) : Outcome (list string) :=
  match d with
  | None => Returns []
  | Some (DepsArray ids) => Returns ids
  | Some (DepsObject _ _) => Throws VTypeError
  end.

(** ** Topology records (src/topology.ts) *)

Record TopologyNode : Type := {
  node_id : string;
  node_dependencies : list string;
  node_dependents : list string;
  node_depth : Z;
}.

Record TopologyLayer : Type := {
  layer_depth : Z;
  layer_resources : list TopologyNode;
}.

Record SystemTopology : Type := {
  layers : list TopologyLayer;
  graph : obj (list string);
  dependents : obj (list string);
  depths : obj num;
  totalResources : nat;
  maxDepth : num;
  startupOrder : list string;
  shutdownOrder : list string;
}.

(** Resource lifecycle statuses. *)
Inductive ResourceStatus : Type :=
  | Stopped | Starting | Started | Failed | Skipped | Halting.

#[global] Instance ResourceStatus_eq_dec : EqDecision ResourceStatus.
Proof. solve_decision. Defined.

(** What the orchestrator was observed to invoke, in order. *)
Inductive Event : Type :=
  | AssertCalled (id : string) (deps : obj Value)
  | StartCalled (id : string) (deps : obj Value)
  | HaltCalled (id : string) (instance : Value).

Section Orchestrator.

(** The state of everything outside the orchestrator that resource
    operations may read and write. An operation settles: it returns or
    throws (a rejected promise is a throw at the [await]). *)
Context {W : Type}.

Record ResourceConfig : Type := {
  dependencies : option DependenciesSpec;
  assert : option (obj Value → W → Outcome unit * W);
  start : obj Value → W → Outcome Value * W;
  halt : Value → W → Outcome unit * W;
}.

(** [Resource]: a config with runtime state; an absent [_instance] or
    [_error] reads as [undefined]. *)
Record Resource : Type := {
  config : ResourceConfig;
  _status : ResourceStatus;
  _instance : Value;
  _error : Value;
}.

Definition set_status (r : Resource) (s : ResourceStatus) : Resource :=
  {| config := config r; _status := s; _instance := _instance r; _error := _error r |}.
Definition set_instance (r : Resource) (v : Value) : Resource :=
  {| config := config r; _status := _status r; _instance := v; _error := _error r |}.
Definition set_error (r : Resource) (e : Value) : Resource :=
  {| config := config r; _status := _status r; _instance := _instance r; _error := e |}.

(** *** topologicalSort (topological-sort.ts) *)

(** [for (const id of Object.keys(resources)) { inDegree[id] = 0; graph[id] = [] }] *)
Fixpoint init_graph (ids : list string) (inDegree : obj num) (graph : obj (list string))
  : obj num * obj (list string) :=
  match ids with
  | [] => (inDegree, graph)
  | id :: ids' => init_graph ids' (set inDegree id (Int 0)) (set graph id [])
  end.

(** The inner loop over one resource's dependencies. [graph] is a plain
    object: where [depId] is no key of it, [graph[depId]] is [undefined]
    and the check reports the id, unless [depId] names a property of
    [Object.prototype]; that one is truthy, passes the check, and has no
    [push], which raises a [TypeError]. *)
Fixpoint add_edges (id : string) (deps : list string)
    (inDegree : obj num) (graph : obj (list string))
  : Outcome (obj num * obj (list string)) :=
  match deps with
  | [] => Returns (inDegree, graph)
  | depId :: deps' =>
      match get graph depId with
      | None =>
          if decide (inherited depId) then Throws VTypeError
          else Throws (new_Error (missing_dependency_message id depId))
      | Some ds =>
          add_edges id deps'
            (set inDegree id (or0_add1 (get inDegree id)))
            (set graph depId (ds ++ [id]))
      end
  end.

(** [for (const [id, resource] of Object.entries(resources)) ...] *)
Fixpoint build_graph (entries : list (string * Resource))
    (inDegree : obj num) (graph : obj (list string))
  : Outcome (obj num * obj (list string)) :=
  match entries with
  | [] => Returns (inDegree, graph)
  | (id, resource) :: rest =>
      deps ← iterate (dependencies (config resource));
      '(inDegree', graph') ← add_edges id deps inDegree graph;
      build_graph rest inDegree' graph'
  end.

(** [for (const dependent of graph[id]) { inDegree[dependent] -= 1; if (... === 0) queue.push(dependent) }] *)
Fixpoint relax (ds : list string) (inDegree : obj num) (queue : list string)
  : obj num * list string :=
  match ds with
  | [] => (inDegree, queue)
  | dependent :: ds' =>
      let n := sub1 (get inDegree dependent) in
      relax ds' (set inDegree dependent n)
        (if decide (n = Int 0) then queue ++ [dependent] else queue)
  end.

Record KahnState : Type := {
  queue : list string;
  inDegree : obj num;
  result : list string;
}.

(** At most [n] iterations of [while (queue.length > 0)]; iterating the
    [undefined] [graph[id]] would raise a [TypeError]. *)
Fixpoint kahn_loop (n : nat) (graph : obj (list string)) (st : KahnState)
  : Outcome KahnState :=
  match n, queue st with
  | O, _ | _, [] => Returns st
  | S n', id :: queue' =>
      match get graph id with
      | None => Throws VTypeError
      | Some ds =>
          let '(inDegree', queue'') := relax ds (inDegree st) queue' in
          kahn_loop n' graph
            {| queue := queue''; inDegree := inDegree'; result := result st ++ [id] |}
      end
  end.

(** Every iteration removes one id from the queue, and an id is pushed
    only when its positive counter drops to zero: the loop has left after
    this many iterations (see [kahn_loop_exits]). *)
Definition positive_part (n : num) : nat :=
  match n with
  | Int z => Z.to_nat z
  | NaN => O
  end.

Definition kahn_bound (st : KahnState) : nat :=
  (length (queue st) + sum_list (positive_part <$> values (inDegree st)))%nat.

Definition topologicalSort (resources : obj Resource) : Outcome (list string) :=
  let '(inDegree0, graph0) := init_graph (keys resources) [] [] in
  '(inDegree, graph) ← build_graph resources inDegree0 graph0;
  let queue := (filter (λ e, e.2 = Int 0) inDegree).*1 in
  let st := {| queue := queue; inDegree := inDegree; result := [] |} in
  st' ← kahn_loop (kahn_bound st) graph st;
  let result := result st' in
  if decide (length result ≠ length (keys resources)) then
    let unprocessed := filter (λ id, id ∉ result) (keys resources) in
    Throws (new_Error (circular_dependency_message unprocessed))
  else Returns result.

(** *** buildTopology (src/topology.ts) *)

(** [graph[id] = [...(resources[id].dependencies || [])]] *)
Fixpoint forward_graph (entries : list (string * Resource)) (graph : obj (list string))
  : Outcome (obj (list string)) :=
  match entries with
  | [] => Returns graph
  | (id, resource) :: rest =>
      deps ← iterate (dependencies (config resource));
      forward_graph rest (set graph id deps)
  end.

(** [for (const id of Object.keys(resources)) dependents[id] = []] *)
Fixpoint init_dependents (ids : list string) (dependents : obj (list string))
  : obj (list string) :=
  match ids with
  | [] => dependents
  | id :: ids' => init_dependents ids' (set dependents id [])
  end.

(** [for (const dep of deps) dependents[dep].push(id)]; [push] on
    [undefined] raises a [TypeError], and so does calling the [push]
    that a property of [Object.prototype] does not have. *)
Fixpoint push_dependents (id : string) (deps : list string) (dependents : obj (list string))
  : Outcome (obj (list string)) :=
  match deps with
  | [] => Returns dependents
  | dep :: deps' =>
      match get dependents dep with
      | None => Throws VTypeError
      | Some ds => push_dependents id deps' (set dependents dep (ds ++ [id]))
      end
  end.

(** [for (const [id, deps] of Object.entries(graph)) ...] *)
Fixpoint reverse_graph (entries : list (string * list string)) (dependents : obj (list string))
  : Outcome (obj (list string)) :=
  match entries with
  | [] => Returns dependents
  | (id, deps) :: rest =>
      dependents' ← push_dependents id deps dependents;
      reverse_graph rest dependents'
  end.

(** [for (const id of order) { const deps = graph[id]; depths[id] = deps.length === 0 ? 0 : Math.max(...deps.map(dep => depths[dep])) + 1 }]

    Where [id] is no key of [graph], reading [length] of the [undefined]
    [graph[id]] raises a [TypeError], unless [id] names a property of
    [Object.prototype]: a function of length 0 gives depth 0, and any
    other has no [map], which raises a [TypeError]. *)
Fixpoint compute_depths (order : list string) (graph : obj (list string)) (depths : obj num)
  : Outcome (obj num) :=
  match order with
  | [] => Returns depths
  | id :: rest =>
      match get graph id with
      | None =>
          match get Object_prototype id with
          | Some (Some 0) => compute_depths rest graph (set depths id (Int 0))
          | _ => Throws VTypeError
          end
      | Some [] => compute_depths rest graph (set depths id (Int 0))
      | Some (dep :: deps) =>
          compute_depths rest graph
            (set depths id (add1 (Math_max (get depths dep) (get depths <$> deps))))
      end
  end.

(** [Object.keys(depths).length > 0 ? Math.max(...Object.values(depths)) : 0];
    neither the number of keys nor the maximum depends on the order in
    which [depths] enumerates. *)
Definition max_depth (depths : obj num) : num :=
  match values depths with
  | [] => Int 0
  | d :: ds => Math_max (Some d) (Some <$> ds)
  end.

(** [Object.entries(depths).filter(([_, d]) => d === depth).map(([id]) => ({ id, dependencies: graph[id], dependents: dependents[id], depth }))]:
    the resources at one depth, in the order in which [depths]
    enumerates. An id that has a depth is a key of [graph] and of
    [dependents], or a name of [Object.prototype] that [order] listed: for
    that one the two fields hold the inherited function, of length 0,
    where the lists here are empty. *)
Definition resources_at (graph dependents : obj (list string)) (depths : obj num) (depth : Z)
  : list TopologyNode :=
  (λ e, {| node_id := e.1;
           node_dependencies := default [] (get graph e.1);
           node_dependents := default [] (get dependents e.1);
           node_depth := depth |})
    <$> filter (λ e, e.2 = Int depth) (entries depths).

(** [for (let depth = 0; depth <= maxDepth; depth++) layers.push(...)];
    no comparison with [NaN] holds. *)
Definition build_layers (graph dependents : obj (list string)) (depths : obj num) (maxDepth : num)
  : list TopologyLayer :=
  match maxDepth with
  | Int m =>
      (λ depth, {| layer_depth := depth;
                   layer_resources := resources_at graph dependents depths depth |})
        <$> seqZ 0 (m + 1)
  | NaN => []
  end.

Definition buildTopology (resources : obj Resource) (order : list string)
  : Outcome SystemTopology :=
  graph ← forward_graph resources [];
  dependents ← reverse_graph graph (init_dependents (keys resources) []);
  depths ← compute_depths order graph [];
  let maxDepth := max_depth depths in
  mret {| layers := build_layers graph dependents depths maxDepth;
          graph := graph;
          dependents := dependents;
          depths := depths;
          totalResources := length (keys resources);
          maxDepth := maxDepth;
          startupOrder := order;
          shutdownOrder := reverse order |}.

(** *** startSystem, haltSystem (system.ts) *)

Record SystemStartResult : Type := {
  system : obj Value;
  errors : obj Value;
  topology : SystemTopology;
}.

Record SystemHaltResult : Type := {
  halt_errors : obj Value;
}.

(** The mutable state of one pass: the local variables [resources],
    [started] and [errors], the invocations observed so far, and the
    outside world. *)
Record PassState : Type := {
  st_resources : obj Resource;
  st_started : obj Value;
  st_errors : obj Value;
  st_events : list Event;
  st_world : W;
}.

(** [resource.<field> = ...] on the object stored at [resources[id]]. *)
Definition modify_resource (id : string) (f : Resource → Resource) (st : PassState)
  : PassState :=
  {| st_resources :=
       match get (st_resources st) id with
       | Some r => set (st_resources st) id (f r)
       | None => st_resources st
       end;
     st_started := st_started st;
     st_errors := st_errors st;
     st_events := st_events st;
     st_world := st_world st |}.

(** [started[id] = v]. The pass reads [started] by id only; the caller
    of [startSystem], who receives it as [system], enumerates it with
    [own_keys]. *)
Definition set_started (id : string) (v : Value) (st : PassState) : PassState :=
  {| st_resources := st_resources st;
     st_started := set (st_started st) id v;
     st_errors := st_errors st;
     st_events := st_events st;
     st_world := st_world st |}.

Definition set_errors (id : string) (e : Value) (st : PassState) : PassState :=
  {| st_resources := st_resources st;
     st_started := st_started st;
     st_errors := set (st_errors st) id e;
     st_events := st_events st;
     st_world := st_world st |}.

(** An invocation: the event is recorded and the world moves on. *)
Definition invoked (ev : Event) (w : W) (st : PassState) : PassState :=
  {| st_resources := st_resources st;
     st_started := st_started st;
     st_errors := st_errors st;
     st_events := st_events st ++ [ev];
     st_world := w |}.

(** [started[id]] on the plain object [started]: the instance recorded
    for [id]; where none is, what [Object.prototype] holds under that
    name, and [undefined] for any other name. *)
Definition instance_of (started : obj Value) (id : string) : Value :=
  match get started id with
  | Some instance => instance
  | None => if decide (inherited id) then VBuiltin id else VUndefined
  end.

(** [for (const depId of ...) deps[depId] = started[depId]] *)
Fixpoint resolve_loop (ids : list string) (started : obj Value) (deps : obj Value)
  : obj Value :=
  match ids with
  | [] => deps
  | depId :: ids' =>
      resolve_loop ids' started (set deps depId (instance_of started depId))
  end.

Definition resolveDependencies (resource : Resource) (started : obj Value)
  : Outcome (obj Value) :=
  ids ← iterate (dependencies (config resource));
  mret (resolve_loop ids started []).

(** The [catch] block of the start loop. *)
Definition start_failed (id : string) (err : Value) (st : PassState) : PassState :=
  set_started id VUndefined
    (set_errors id err
       (modify_resource id (λ r, set_error (set_status r Failed) err) st)).

(** [await (async () => { try { await resource.assert?.(deps); return null } catch (error) { return error } })()] *)
Definition run_assert (id : string) (resource : Resource) (deps : obj Value) (st : PassState)
  : Value * PassState :=
  match assert (config resource) with
  | None => (VNull, st)
  | Some check =>
      let '(outcome, w) := check deps (st_world st) in
      (match outcome with Throws error => error | Returns _ => VNull end,
       invoked (AssertCalled id deps) w st)
  end.

(** One iteration of [for (const id of order)] in [startSystem]. Reading
    a field of the [undefined] [resources[id]] raises a [TypeError], in
    the [try] and again in the [catch]: that one leaves the loop. *)
Definition start_one (id : string) (st : PassState) : Outcome unit * PassState :=
  match get (st_resources st) id with
  | None => (Throws VTypeError, st)
  | Some resource =>
      let st := modify_resource id (λ r, set_status r Starting) st in
      match resolveDependencies resource (st_started st) with
      | Throws error => (Returns (), start_failed id error st)
      | Returns deps =>
          let '(errorDetected, st) := run_assert id resource deps st in
          if truthy errorDetected then
            let error := VError (invalid_dependencies_message id) errorDetected in
            (Returns (), start_failed id error st)
          else
            let '(outcome, w) := start (config resource) deps (st_world st) in
            let st := invoked (StartCalled id deps) w st in
            match outcome with
            | Throws error => (Returns (), start_failed id error st)
            | Returns instance =>
                (Returns (),
                 set_started id instance
                   (modify_resource id
                      (λ r, set_status (set_instance r instance) Started) st))
            end
      end
  end.

Fixpoint start_loop (order : list string) (st : PassState) : Outcome unit * PassState :=
  match order with
  | [] => (Returns (), st)
  | id :: rest =>
      match start_one id st with
      | (Returns _, st') => start_loop rest st'
      | (Throws error, st') => (Throws error, st')
      end
  end.

(** [resources[id] = { ...resourceConfig, _status, _instance }] for every entry. *)
Fixpoint make_resources (entries : list (string * ResourceConfig))
    (status : ResourceStatus) (instance : string → Value) (resources : obj Resource)
  : obj Resource :=
  match entries with
  | [] => resources
  | (id, resourceConfig) :: rest =>
      make_resources rest status instance
        (set resources id
           {| config := resourceConfig; _status := status;
              _instance := instance id; _error := VUndefined |})
  end.

Definition initial_state (resources : obj Resource) (w : W) : PassState :=
  {| st_resources := resources; st_started := []; st_errors := [];
     st_events := []; st_world := w |}.

(** The [resources] of a start pass. *)
Definition start_resources (cfg : obj ResourceConfig) : obj Resource :=
  make_resources cfg Stopped (λ _, VUndefined) [].

Definition startSystem (cfg : obj ResourceConfig) (w : W)
  : Outcome SystemStartResult * list Event * W :=
  let resources := start_resources cfg in
  match topologicalSort resources with
  | Throws error => (Throws error, [], w)
  | Returns order =>
      match buildTopology resources order with
      | Throws error => (Throws error, [], w)
      | Returns topology =>
          match start_loop order (initial_state resources w) with
          | (Throws error, st) => (Throws error, st_events st, st_world st)
          | (Returns _, st) =>
              (Returns {| system := st_started st;
                          errors := st_errors st;
                          topology := topology |},
               st_events st, st_world st)
          end
      end
  end.

(** One iteration of [for (const id of order)] in [haltSystem]. *)
Definition halt_one (id : string) (st : PassState) : Outcome unit * PassState :=
  match get (st_resources st) id with
  | None => (Throws VTypeError, st)
  | Some resource =>
      if truthy (_instance resource) && bool_decide (_status resource = Started) then
        let st := modify_resource id (λ r, set_status r Halting) st in
        let '(outcome, w) := halt (config resource) (_instance resource) (st_world st) in
        let st := invoked (HaltCalled id (_instance resource)) w st in
        match outcome with
        | Returns _ =>
            (Returns (),
             modify_resource id (λ r, set_instance (set_status r Stopped) VUndefined) st)
        | Throws error => (Returns (), set_errors id error st)
        end
      else (Returns (), st)
  end.

Fixpoint halt_loop (order : list string) (st : PassState) : Outcome unit * PassState :=
  match order with
  | [] => (Returns (), st)
  | id :: rest =>
      match halt_one id st with
      | (Returns _, st') => halt_loop rest st'
      | (Throws error, st') => (Throws error, st')
      end
  end.

(** The [resources] of a halt pass. *)
Definition halt_resources (cfg : obj ResourceConfig) (started : obj Value)
  : obj Resource :=
  make_resources cfg Started (instance_of started) [].

Definition haltSystem (cfg : obj ResourceConfig) (started : obj Value) (w : W)
  : Outcome SystemHaltResult * list Event * W :=
  let resources := halt_resources cfg started in
  match topologicalSort resources with
  | Throws error => (Throws error, [], w)
  | Returns sorted =>
      let order := reverse sorted in
      match halt_loop order (initial_state resources w) with
      | (Throws error, st) => (Throws error, st_events st, st_world st)
      | (Returns _, st) =>
          (Returns {| halt_errors := st_errors st |}, st_events st, st_world st)
      end
  end.

End Orchestrator.

Arguments ResourceConfig : clear implicits.
Arguments Resource : clear implicits.
Arguments PassState : clear implicits.

(** ** Rendering a topology (src/topology.ts) *)









(** The object [toJSON] returns. *)
Record JSONNode : Type := {
  json_id : string;
  json_dependencies : list string;
  json_dependents : list string;
}.

Record JSONLayer : Type := {
  json_depth : Z;
  json_resources : list JSONNode;
}.

Record TopologyJSON : Type := {
  json_totalResources : nat;
  json_maxDepth : num;
  json_startupOrder : list string;
  json_shutdownOrder : list string;
  json_layers : list JSONLayer;
  json_graph : obj (list string);
}.

Definition toJSON (topology : SystemTopology) : TopologyJSON :=
  {| json_totalResources := totalResources topology;
     json_maxDepth := maxDepth topology;
     json_startupOrder := startupOrder topology;
     json_shutdownOrder := shutdownOrder topology;
     json_layers :=
       (λ layer,
          {| json_depth := layer_depth layer;
             json_resources :=
               (λ r, {| json_id := node_id r;
                        json_dependencies := node_dependencies r;
                        json_dependents := node_dependents r |})
                 <$> layer_resources layer |})
         <$> layers topology;
     json_graph := graph topology |}.

(** * Vocabulary of the statements *)

(** The index of the first occurrence of [x] in [l] (the length of [l]
    when there is none). *)
Fixpoint pos (l : list string) (x : string) : nat :=
  match l with
  | [] => O
  | y :: l' => if decide (x = y) then O else S (pos l' x)
  end.

(** How often [k] occurs in [l]. *)
Definition occ (k : string) (l : list string) : nat :=
  length (filter (λ d, d = k) l).

(** The order on (readiness, declaration index) pairs. *)
Definition lexlt (a b : nat * nat) : Prop :=
  (a.1 < b.1)%nat ∨ (a.1 = b.1 ∧ (a.2 < b.2)%nat).

(** The measure of the sorter's loop: the sum of the positive counters. *)
Definition weight (o : obj num) : nat := sum_list (positive_part <$> values o).

(** What the sorter throws at an id [dep], declared by [id], that is no
    resource: the error that names both, or the [TypeError] of the call
    [graph[dep].push] where [dep] names a property of [Object.prototype]. *)
Definition missing_dependency_error (id dep : string) : Value :=
  if decide (inherited dep) then VTypeError
  else new_Error (missing_dependency_message id dep).

Section Graph.
Context {W : Type}.
Implicit Types (resources : obj (Resource W)) (r : Resource W).

(** The ids a resource declares in the array form. *)
Definition declared r : list string :=
  match dependencies (config r) with
  | Some (DepsArray ids) => ids
  | _ => []
  end.

(** Every resource declares its dependencies as an array of ids, or
    declares none: the shape the sorter iterates. *)
Definition array_deps resources : Prop :=
  ∀ id r, (id, r) ∈ resources →
    iterate (dependencies (config r)) = Returns (declared r).

(** The ids declared by the resource stored at [id]. *)
Definition deps_of resources (id : string) : list string :=
  match get resources id with
  | Some r => declared r
  | None => []
  end.

(** The edge dependency → dependent: [id] declares [dep]. *)
Definition depends_on resources (id dep : string) : Prop :=
  dep ∈ deps_of resources id.

Definition dependencies_exist resources : Prop :=
  ∀ id dep, depends_on resources id dep → dep ∈ keys resources.

(** No resource depends on itself, directly or transitively. *)
Definition acyclic resources : Prop :=
  ∀ id, ¬ tc (depends_on resources) id id.

(** The ids that can be ordered: those whose dependencies can all be. *)
Inductive resolvable resources : string → Prop :=
  | resolvable_intro id :
      id ∈ keys resources →
      (∀ dep, depends_on resources id dep → resolvable resources dep) →
      resolvable resources id.

(** When an id becomes ready in a run that produced [order]: at once
    ([O]) when it has no dependencies, else right after the last of its
    dependencies was appended. *)
Definition ready_at resources (order : list string) (id : string) : nat :=
  max_list ((λ dep, S (pos order dep)) <$> deps_of resources id).

(** The ids whose dependents the sorter has still to count down: the
    dependencies of [id] outside [processed]. *)
Definition remaining resources (processed : list string) (id : string) : nat :=
  length (filter (λ dep, dep ∉ processed) (deps_of resources id)).

(** [graph[k]] once the graph is built: the dependents of [k], one copy
    for each time they declare [k], in declaration order. *)
Definition dependents_of (entries : list (string * Resource W)) (k : string)
  : list string :=
  flat_map (λ e, replicate (occ k (declared e.2)) e.1) entries.

(** The ids declared under the key [k], over all entries with that key. *)
Definition declared_at (entries : list (string * Resource W)) (k : string) : list string :=
  flat_map (λ e, if decide (e.1 = k) then declared e.2 else []) entries.

(** What holds of the sorter's state before and after every iteration of
    its loop: the queue and the result hold each id once; the counter of
    an id is the number of its dependencies still outside the result; the
    ids in the result or the queue are those with none outside; every id
    of the result comes after its dependencies; and the result followed by
    the queue is ordered by readiness, then by declaration. *)
Record kahn_inv resources (st : KahnState) : Prop := {
  inv_nodup : NoDup (result st ++ queue st);
  inv_keys : ∀ x, x ∈ result st ++ queue st → x ∈ keys resources;
  inv_indeg : ∀ x, x ∈ keys resources →
    get (inDegree st) x = Some (Int (Z.of_nat (remaining resources (result st) x)));
  inv_ready : ∀ x, x ∈ keys resources →
    (x ∈ result st ++ queue st ↔ remaining resources (result st) x = O);
  inv_respects : ∀ x d, x ∈ result st → depends_on resources x d →
    d ∈ result st ∧ (pos (result st) d < pos (result st) x)%nat;
  inv_fifo : ∀ p q x y, (p < q)%nat →
    (result st ++ queue st) !! p = Some x → (result st ++ queue st) !! q = Some y →
    lexlt (ready_at resources (result st) x, pos (keys resources) x)
          (ready_at resources (result st) y, pos (keys resources) y);
}.

End Graph.

Section Passes.
Context {W : Type}.
Implicit Types (cfg : obj (ResourceConfig W)).

(** Running the halt operations of [ids] one after the other, each on
    its instance and in the world the previous one left: what each did. *)
Fixpoint halt_outcomes cfg (instance : string → Value) (ids : list string) (w : W)
  : list (string * Outcome unit) * W :=
  match ids with
  | [] => ([], w)
  | id :: rest =>
      match get cfg id with
      | Some c =>
          let '(outcome, w1) := halt c (instance id) w in
          let '(outcomes, w2) := halt_outcomes cfg instance rest w1 in
          ((id, outcome) :: outcomes, w2)
      | None => halt_outcomes cfg instance rest w
      end
  end.

(** The error mapping after [errors.set(id, error)] for every throw. *)
Fixpoint record_thrown (errors : obj Value) (outcomes : list (string * Outcome unit))
  : obj Value :=
  match outcomes with
  | [] => errors
  | (id, Throws error) :: rest => record_thrown (set errors id error) rest
  | (_, Returns _) :: rest => record_thrown errors rest
  end.

(** The entries of the runtime table a pass starts from. *)
Definition runtime_entry (status : ResourceStatus) (instance : string → Value)
    (e : string * ResourceConfig W) : string * Resource W :=
  (e.1, {| config := e.2; _status := status; _instance := instance e.1;
           _error := VUndefined |}).

End Passes.

(** The resource an invocation was made on. *)
Definition event_id (ev : Event) : string :=
  match ev with
  | AssertCalled id _ | StartCalled id _ | HaltCalled id _ => id
  end.


Section Frames.
Context {W : Type}.

(** What one iteration of the start loop leaves alone. *)
Definition start_frame (id : string) (st st' : PassState W) : Prop :=
  keys (st_resources st') = keys (st_resources st)
  ∧ (∀ id', id' ≠ id →
       get (st_resources st') id' = get (st_resources st) id'
       ∧ get (st_errors st') id' = get (st_errors st) id'
       ∧ get (st_started st') id' = get (st_started st) id')
  ∧ ∃ evs, st_events st' = st_events st ++ evs ∧ ∀ ev, ev ∈ evs → event_id ev = id.

(** The depth equation at [id], read off the object [D]. *)
Definition depth_ok (graph : obj (list string)) (D : obj num) (id : string) : Prop :=
  ∃ deps z, get graph id = Some deps ∧ get D id = Some (Int z) ∧ 0 ≤ z
    ∧ (deps = [] → z = 0)
    ∧ (deps ≠ [] →
         (∀ dep, dep ∈ deps → ∃ zd, get D dep = Some (Int zd) ∧ zd + 1 ≤ z)
         ∧ (∃ dep, dep ∈ deps ∧ get D dep = Some (Int (z - 1)))).

End Frames.

Section Validity.
Context {W : Type}.
Implicit Types (cfg : obj (ResourceConfig W)).

(** A configuration the sorter accepts: distinct ids, array declarations
    of existing ids, no cycle. *)
Definition valid_config cfg : Prop :=
  NoDup (keys cfg)
  ∧ array_deps (start_resources cfg)
  ∧ dependencies_exist (start_resources cfg)
  ∧ acyclic (start_resources cfg).

(** A check of [valid_config] that computes, given an order to rank the
    ids by. *)
Definition check_config cfg (order : list string) : bool :=
  bool_decide (NoDup (keys cfg))
  && forallb (λ e : string * ResourceConfig W,
       match dependencies e.2 with
       | None => true
       | Some (DepsArray ids) =>
           forallb (λ dep, bool_decide (dep ∈ keys cfg)
                           && bool_decide (pos order dep < pos order e.1)%nat) ids
       | Some (DepsObject _ _) => false
       end) cfg.

End Validity.

Section StartVocabulary.
Context {W : Type}.

(** Whether the resource stored at [id] declares an assertion. *)
Definition asserts (resources : obj (Resource W)) (id : string) : bool :=
  match get resources id with
  | Some r => bool_decide (is_Some (assert (config r)))
  | None => false
  end.

(** What a start pass invokes on one resource: its assertion when it
    declares one, then its start unless the pass left it out. *)
Definition invocations (resources : obj (Resource W)) (deps : string → obj Value)
    (ran : string → bool) (id : string) : list Event :=
  (if asserts resources id then [AssertCalled id (deps id)] else [])
  ++ (if ran id then [StartCalled id (deps id)] else []).

End StartVocabulary.

Section Laws.
Context {W : Type}.
Implicit Types (resources : obj (Resource W)).

(** The laws of the order: a permutation of the ids without repetition,
    in which every dependency comes first and the ids are sorted by the
    moment they become ready, then by declaration. *)
Definition sorted_order resources (order : list string) : Prop :=
  NoDup order ∧ order ≡ₚ keys resources
  ∧ (∀ id dep, depends_on resources id dep → (pos order dep < pos order id)%nat)
  ∧ (∀ p q x y, (p < q)%nat → order !! p = Some x → order !! q = Some y →
       lexlt (ready_at resources order x, pos (keys resources) x)
             (ready_at resources order y, pos (keys resources) y)).

End Laws.

(** What the views of a topology have to do with each other: [dependents]
    has the keys of [graph], [depths] those of [startupOrder]; every node
    of a layer has the depth of its layer, which is its entry in [depths],
    and the dependents that [dependents] has for it; every resource is a
    node of some layer. *)
Definition coherent (t : SystemTopology) : Prop :=
  NoDup (keys (graph t))
  ∧ keys (dependents t) = keys (graph t)
  ∧ NoDup (startupOrder t)
  ∧ keys (depths t) = startupOrder t
  ∧ (∀ id, id ∈ startupOrder t → id ∈ keys (graph t))
  ∧ (∀ layer node, layer ∈ layers t → node ∈ layer_resources layer →
       node_depth node = layer_depth layer
       ∧ get (depths t) (node_id node) = Some (Int (layer_depth layer))
       ∧ get (dependents t) (node_id node) = Some (node_dependents node))
  ∧ (∀ id, id ∈ keys (graph t) →
       ∃ layer node, layer ∈ layers t ∧ node ∈ layer_resources layer ∧ node_id node = id).

(** ** Example systems

    The world of the examples is a journal: every operation writes its
    name to it. *)
Module Examples.

Definition journal : Type := list string.

Definition note {A} (line : string) (outcome : Outcome A) (w : journal)
  : Outcome A * journal :=
  (outcome, w ++ [line]).

Definition resource (name : string) (deps : option DependenciesSpec)
    (started : Outcome Value) (halted : Outcome unit) : ResourceConfig journal :=
  {| dependencies := deps;
     assert := None;
     start := λ _, note ("start " ++ name) started;
     halt := λ _, note ("halt " ++ name) halted |}.

Definition asserting (name : string) (asserted : Outcome unit)
    (c : ResourceConfig journal) : ResourceConfig journal :=
  {| dependencies := dependencies c;
     assert := Some (λ _, note ("assert " ++ name) asserted);
     start := start c;
     halt := halt c |}.

(** [{ config, cache: [config], db: [config], api: [cache, db] }];
    halting [db] throws. *)
Definition diamond : obj (ResourceConfig journal) :=
  [ ("config", resource "config" None (Returns (VObj 1)) (Returns ()));
    ("cache", resource "cache" (Some (DepsArray ["config"])) (Returns (VNum 0)) (Returns ()));
    ("db", resource "db" (Some (DepsArray ["config"])) (Returns (VObj 3))
             (Throws (new_Error "db is busy")));
    ("api", resource "api" (Some (DepsArray ["cache"; "db"])) (Returns (VObj 4)) (Returns ())) ].

(** What a start pass over [diamond] returns as [system]: the cache
    started as the number [0]. *)
Definition diamond_system : obj Value :=
  [ ("config", VObj 1); ("cache", VNum 0); ("db", VObj 3); ("api", VObj 4) ].

(** Scenario B: [{ a: start throws "x", b: deps [a], start returns "ran" }]. *)
Definition scenario_B : obj (ResourceConfig journal) :=
  [ ("a", resource "a" None (Throws (new_Error "x")) (Returns ()));
    ("b", resource "b" (Some (DepsArray ["a"])) (Returns (VStr "ran")) (Returns ())) ].

(** [{ a: {}, b: { dependencies: { required: ["a"] } } }] *)
Definition object_form : obj (ResourceConfig journal) :=
  [ ("a", resource "a" None (Returns (VObj 1)) (Returns ()));
    ("b", resource "b" (Some (DepsObject (Some ["a"]) None)) (Returns (VObj 2)) (Returns ())) ].

(** [{ a: { assert: () => { throw undefined }, start: () => "ran" } }] *)
Definition falsy_assertion : obj (ResourceConfig journal) :=
  [ ("a", asserting "a" (Throws VUndefined)
            (resource "a" None (Returns (VStr "ran")) (Returns ()))) ].

(** [{ a: { assert: () => { throw new Error("not ready") } }, b: {} }] *)
Definition failing_assertion : obj (ResourceConfig journal) :=
  [ ("a", asserting "a" (Throws (new_Error "not ready"))
            (resource "a" None (Returns (VObj 1)) (Returns ())));
    ("b", resource "b" None (Returns (VObj 2)) (Returns ())) ].

(** [{ a: { dependencies: ["zz"] } }] *)
Definition missing_dependency : obj (ResourceConfig journal) :=
  [ ("a", resource "a" (Some (DepsArray ["zz"])) (Returns (VObj 1)) (Returns ())) ].

(** [{ a: { dependencies: ["toString"] } }] *)
Definition inherited_dependency : obj (ResourceConfig journal) :=
  [ ("a", resource "a" (Some (DepsArray ["toString"])) (Returns (VObj 1)) (Returns ())) ].



(** [{ a: { dependencies: ["b"] }, b: { dependencies: ["a"] }, c: {}, d: { dependencies: ["a", "c"] } }] *)
Definition cycle_with_dependent : obj (ResourceConfig journal) :=
  [ ("a", resource "a" (Some (DepsArray ["b"])) (Returns (VObj 1)) (Returns ()));
    ("b", resource "b" (Some (DepsArray ["a"])) (Returns (VObj 2)) (Returns ()));
    ("c", resource "c" None (Returns (VObj 3)) (Returns ()));
    ("d", resource "d" (Some (DepsArray ["a"; "c"])) (Returns (VObj 4)) (Returns ())) ].

(** [diamond] with the dependencies of [api] listed as [["db", "cache", "db"]]. *)
Definition diamond_relisted : obj (ResourceConfig journal) :=
  [ ("config", resource "config" None (Returns (VObj 1)) (Returns ()));
    ("cache", resource "cache" (Some (DepsArray ["config"])) (Returns (VNum 0)) (Returns ()));
    ("db", resource "db" (Some (DepsArray ["config"])) (Returns (VObj 3))
             (Throws (new_Error "db is busy")));
    ("api", resource "api" (Some (DepsArray ["db"; "cache"; "db"])) (Returns (VObj 4))
              (Returns ())) ].

End Examples.
Import Examples.

(** * Properties *)

(** ** Objects *)

Section obj_facts.
Context {V : Type}.
Implicit Types (o : obj V) (k : string) (v : V).

Lemma get_set_eq o k v : get (set o k v) k = Some v.
Proof.
  induction o as [|[k' v'] o IH]; simpl.
  - by rewrite decide_True.
  - destruct (decide (k = k')) as [->|Hne]; simpl.
    + by rewrite decide_True.
    + by rewrite decide_False.
Qed.

Lemma get_set_ne o k k' v : k ≠ k' → get (set o k v) k' = get o k'.
Proof.
  intros Hne. induction o as [|[k0 v0] o IH]; simpl.
  - by rewrite decide_False.
  - destruct (decide (k = k0)) as [->|Hne0]; simpl.
    + by rewrite !decide_False.
    + by rewrite IH.
Qed.

Lemma get_set o k k' v :
  get (set o k v) k' = if decide (k = k') then Some v else get o k'.
Proof.
  destruct (decide (k = k')) as [->|?]; [apply get_set_eq | by apply get_set_ne].
Qed.

Lemma get_None o k : get o k = None ↔ k ∉ keys o.
Proof.
  unfold keys. induction o as [|[k' v'] o IH]; simpl.
  - split; [intros _; apply not_elem_of_nil | done].
  - rewrite not_elem_of_cons. destruct (decide (k = k')) as [->|Hne].
    + split; [done | by intros [? _]].
    + rewrite IH. split; [by split | by intros [_ ?]].
Qed.

Lemma get_is_Some o k : is_Some (get o k) ↔ k ∈ keys o.
Proof.
  rewrite <- not_eq_None_Some, get_None. split; [apply dec_stable | auto].
Qed.

Lemma keys_set_in o k v : k ∈ keys o → keys (set o k v) = keys o.
Proof.
  unfold keys. induction o as [|[k' v'] o IH]; simpl.
  - by intros ?%elem_of_nil.
  - intros Hin. destruct (decide (k = k')) as [->|Hne]; simpl; [done|].
    f_equal. apply IH. by apply elem_of_cons in Hin as [?|?].
Qed.

Lemma set_notin o k v : k ∉ keys o → set o k v = o ++ [(k, v)].
Proof.
  unfold keys. induction o as [|[k' v'] o IH]; simpl; [done|].
  rewrite not_elem_of_cons. intros [Hne Hnin].
  rewrite decide_False by done. by rewrite IH.
Qed.

Lemma keys_set_notin o k v : k ∉ keys o → keys (set o k v) = keys o ++ [k].
Proof. intros Hk. rewrite set_notin by done. unfold keys. by rewrite fmap_app. Qed.

Lemma get_Some_elem_of o k v : get o k = Some v → (k, v) ∈ o.
Proof.
  induction o as [|[k' v'] o IH]; simpl; [done|].
  destruct (decide (k = k')) as [->|Hne].
  - intros [= ->]. left.
  - intros ?. right. auto.
Qed.

Lemma elem_of_get o k v : NoDup (keys o) → (k, v) ∈ o → get o k = Some v.
Proof.
  unfold keys. induction o as [|[k' v'] o IH]; simpl.
  - by intros _ ?%elem_of_nil.
  - rewrite NoDup_cons. intros [Hnin Hnd] Hin.
    apply elem_of_cons in Hin as [[= -> ->]|Hin].
    + by rewrite decide_True.
    + rewrite decide_False; [auto|].
      intros ->. apply Hnin. apply list_elem_of_fmap. by exists (k', v).
Qed.

Lemma NoDup_keys_set o k v : NoDup (keys o) → NoDup (keys (set o k v)).
Proof.
  intros Hnd. destruct (decide (k ∈ keys o)) as [Hin|Hnin].
  - by rewrite keys_set_in.
  - rewrite keys_set_notin by done. apply NoDup_app. split_and!; [done| |apply NoDup_singleton].
    intros x Hx ->%list_elem_of_singleton. done.
Qed.

Lemma keys_fmap_pair (f : string → V) (ks : list string) :
  keys ((λ k, (k, f k)) <$> ks) = ks.
Proof. unfold keys. rewrite <- list_fmap_compose. apply list_fmap_id. Qed.

Lemma get_fmap_pair (f : string → V) (ks : list string) k :
  k ∈ ks → get ((λ k, (k, f k)) <$> ks) k = Some (f k).
Proof.
  induction ks as [|k' ks IH]; csimpl; [by intros ?%elem_of_nil|].
  intros Hin. destruct (decide (k = k')) as [->|?]; [done|].
  apply elem_of_cons in Hin as [?|?]; [done|]. by apply IH.
Qed.

End obj_facts.

Lemma filter_all {A} (P : A → Prop) `{!∀ x, Decision (P x)} (l : list A) :
  (∀ x, x ∈ l → P x) → filter P l = l.
Proof.
  induction l as [|x l IH]; intros Hall; [done|].
  rewrite filter_cons_True by (apply Hall; left).
  f_equal. apply IH. intros y Hy. apply Hall. by right.
Qed.

(** ** The enumeration order of a plain object *)

Lemma filter_fmap_pair {A B} (P : B → Prop) `{!∀ x, Decision (P x)} (f : A → B) (l : list A) :
  filter P (f <$> l) = f <$> filter (λ x, P (f x)) l.
Proof.
  induction l as [|x l IH]; [done|]. csimpl. rewrite !filter_cons.
  destruct (decide (P (f x))); csimpl; by rewrite IH.
Qed.

Lemma insert_by_fmap {A B} (rank : B → N) (g : A → B) x l :
  insert_by rank (g x) (g <$> l) = g <$> insert_by (rank ∘ g) x l.
Proof.
  induction l as [|y l IH]; [done|]. csimpl.
  destruct (rank (g x) <=? rank (g y))%N; csimpl; [done|]. by rewrite IH.
Qed.

Lemma sort_by_fmap {A B} (rank : B → N) (g : A → B) l :
  sort_by rank (g <$> l) = g <$> sort_by (rank ∘ g) l.
Proof.
  unfold sort_by. induction l as [|x l IH]; [done|]. csimpl.
  rewrite IH. apply insert_by_fmap.
Qed.

Lemma insert_by_perm {A} (rank : A → N) x l : insert_by rank x l ≡ₚ x :: l.
Proof.
  induction l as [|y l IH]; [done|]. simpl.
  destruct (rank x <=? rank y)%N; [done|]. rewrite IH. apply Permutation_swap.
Qed.

Lemma sort_by_perm {A} (rank : A → N) l : sort_by rank l ≡ₚ l.
Proof.
  unfold sort_by. induction l as [|x l IH]; [done|]. simpl.
  by rewrite insert_by_perm, IH.
Qed.

Lemma filter_bool_perm {A} (p : A → bool) l :
  filter (λ x, p x = true) l ++ filter (λ x, p x = false) l ≡ₚ l.
Proof.
  induction l as [|x l IH]; [done|]. rewrite !filter_cons.
  destruct (p x) eqn:Hp.
  - rewrite decide_True, decide_False by done. simpl. by rewrite IH.
  - rewrite decide_False, decide_True by done.
    rewrite <- Permutation_middle. by rewrite IH.
Qed.

Lemma own_order_perm ids : own_order ids ≡ₚ ids.
Proof. unfold own_order. rewrite sort_by_perm. apply filter_bool_perm. Qed.

Lemma elem_of_own_order k ids : k ∈ own_order ids ↔ k ∈ ids.
Proof. by rewrite own_order_perm. Qed.


Example array_index_examples :
  array_index "0" = Some 0%N ∧ array_index "42" = Some 42%N
  ∧ array_index "4294967294" = Some 4294967294%N
  ∧ array_index "4294967295" = None ∧ array_index "07" = None
  ∧ array_index "1a" = None ∧ array_index "-1" = None ∧ array_index EmptyString = None.
Proof. by split_and!. Qed.

Example own_order_example :
  own_order ["b"; "10"; "9"; "a"; "07"; "0"] = ["0"; "9"; "10"; "b"; "a"; "07"].
Proof. reflexivity. Qed.

(** Names enumerate in the order of creation. *)
Lemma own_order_names ids :
  (∀ k, k ∈ ids → array_index k = None) → own_order ids = ids.
Proof.
  intros Hnames. unfold own_order.
  assert (∀ k, k ∈ ids → is_index k = false) as Hno.
  { intros k Hk. unfold is_index. rewrite (Hnames k Hk).
    apply bool_decide_eq_false. by intros [? ?]. }
  assert (filter (λ k, is_index k = true) ids = []) as ->.
  { clear Hnames. induction ids as [|k ids IH]; [done|].
    rewrite filter_cons_False by (rewrite Hno by left; done).
    apply IH. intros ??. apply Hno. by right. }
  simpl. by apply filter_all.
Qed.

Lemma entries_fmap {V} (f : string → V) (ids : list string) :
  entries ((λ id, (id, f id)) <$> ids) = (λ id, (id, f id)) <$> own_order ids.
Proof.
  unfold entries, own_order. rewrite fmap_app. f_equal.
  - rewrite (filter_fmap_pair (λ e : string * V, is_index e.1 = true)). simpl.
    by rewrite sort_by_fmap.
  - by rewrite (filter_fmap_pair (λ e : string * V, is_index e.1 = false)).
Qed.


(** ** normalizeDependencies *)

Lemma first_occurrences_filter (P : string → Prop) `{!∀ x, Decision (P x)} l :
  first_occurrences (filter P l) = filter P (first_occurrences l).
Proof.
  induction l as [|x l IH]; [done|]. simpl.
  destruct (decide (P x)) as [HP|HP].
  - rewrite !filter_cons_True by done. simpl. rewrite IH.
    f_equal. rewrite !list_filter_filter. apply list_filter_iff. intros y. simpl. naive_solver.
  - rewrite !filter_cons_False by done. rewrite IH.
    rewrite list_filter_filter. apply list_filter_iff. intros y. simpl.
    split; [|by intros [? _]]. intros HPy. split; [done|]. by intros ->.
Qed.

Lemma dedup_loop_spec ids seen acc :
  dedup_loop ids seen acc = acc ++ first_occurrences (filter (λ x, x ∉ seen) ids).
Proof.
  revert seen acc. induction ids as [|id ids IH]; intros seen acc; simpl.
  - by rewrite app_nil_r.
  - destruct (decide (id ∈ seen)) as [Hin|Hnin].
    + rewrite filter_cons_False by auto. apply IH.
    + rewrite filter_cons_True by done. rewrite IH. simpl.
      rewrite <- app_assoc. simpl. do 2 f_equal.
      rewrite <- first_occurrences_filter, list_filter_filter.
      f_equal. apply list_filter_iff. intros y. simpl.
      rewrite not_elem_of_union, not_elem_of_singleton. naive_solver.
Qed.

Lemma first_occurrences_app l1 l2 :
  first_occurrences (l1 ++ l2)
  = first_occurrences l1 ++ first_occurrences (filter (λ x, x ∉ l1) l2).
Proof.
  induction l1 as [|x l1 IH]; simpl.
  - f_equal. symmetry. apply filter_all. intros y _. apply not_elem_of_nil.
  - f_equal. rewrite IH, filter_app. f_equal.
    rewrite <- first_occurrences_filter, list_filter_filter.
    f_equal. apply list_filter_iff. intros y. simpl. rewrite not_elem_of_cons. naive_solver.
Qed.

Lemma elem_of_first_occurrences l x : x ∈ first_occurrences l ↔ x ∈ l.
Proof.
  induction l as [|y l IH]; [done|]. simpl.
  rewrite !elem_of_cons, list_elem_of_filter, IH.
  destruct (decide (x = y)); tauto.
Qed.

Lemma NoDup_first_occurrences l : NoDup (first_occurrences l).
Proof.
  induction l as [|y l IH]; simpl; [constructor|].
  apply NoDup_cons. split; [|by apply NoDup_filter].
  rewrite list_elem_of_filter. tauto.
Qed.

Lemma sublist_first_occurrences l : sublist (first_occurrences l) l.
Proof.
  induction l as [|y l IH]; simpl; [constructor|].
  apply sublist_skip. etrans; [apply sublist_filter | done].
Qed.

Lemma first_occurrences_NoDup l : NoDup l → first_occurrences l = l.
Proof.
  induction 1 as [|x l Hx Hnd IH]; simpl; [done|].
  rewrite IH. f_equal. apply filter_all. by intros y Hy ->.
Qed.

(** C5. [normalizeDependencies]: an absent spec gives three empty lists; an
    array gives itself as [required] and as [all], with [optional] empty;
    an object gives its two lists (empty when absent) and, as [all],
    [required] followed by [optional] with every id kept at its first
    occurrence only, so that an id of both lists stays in its required
    position and the order of each list is kept. *)
Theorem normalizeDependencies_spec :
  normalizeDependencies None = {| required := []; optional := []; all := [] |}
  ∧ (∀ ids, normalizeDependencies (Some (DepsArray ids))
            = {| required := ids; optional := []; all := ids |})
  ∧ (∀ req opt,
       let n := normalizeDependencies (Some (DepsObject req opt)) in
       required n = default [] req
       ∧ optional n = default [] opt
       ∧ all n = first_occurrences (required n ++ optional n)
       ∧ all n = first_occurrences (required n)
                 ++ first_occurrences (filter (λ x, x ∉ required n) (optional n))
       ∧ NoDup (all n)
       ∧ (∀ x, x ∈ all n ↔ x ∈ required n ∨ x ∈ optional n)
       ∧ sublist (all n) (required n ++ optional n)).
Proof.
  split_and!; [done..|]. intros req opt. simpl.
  rewrite dedup_loop_spec. simpl.
  rewrite (filter_all (λ x, x ∉ (∅ : gset string))) by (intros; apply not_elem_of_empty).
  split_and!; [done..| | | |].
  - apply first_occurrences_app.
  - apply NoDup_first_occurrences.
  - intros x. by rewrite elem_of_first_occurrences, elem_of_app.
  - apply sublist_first_occurrences.
Qed.

(** ** topologicalSort *)

(** ** Positions and occurrences *)

Lemma pos_lt l x : x ∈ l → (pos l x < length l)%nat.
Proof.
  induction l as [|y l IH]; simpl; [by intros ?%elem_of_nil|].
  intros Hin. destruct (decide (x = y)); [lia|].
  apply elem_of_cons in Hin as [?|?]; [done|]. specialize (IH H). lia.
Qed.

Lemma pos_le l x : (pos l x ≤ length l)%nat.
Proof. induction l as [|y l IH]; simpl; [lia|]. destruct (decide (x = y)); lia. Qed.

Lemma pos_lookup l x : x ∈ l → l !! pos l x = Some x.
Proof.
  induction l as [|y l IH]; simpl; [by intros ?%elem_of_nil|].
  intros Hin. destruct (decide (x = y)) as [->|?]; [done|].
  apply elem_of_cons in Hin as [?|?]; [done|]. by apply IH.
Qed.

Lemma pos_app_l l l' x : x ∈ l → pos (l ++ l') x = pos l x.
Proof.
  induction l as [|y l IH]; simpl; [by intros ?%elem_of_nil|].
  intros Hin. destruct (decide (x = y)); [done|].
  apply elem_of_cons in Hin as [?|?]; [done|]. by rewrite IH.
Qed.

Lemma pos_app_r l l' x : x ∉ l → pos (l ++ l') x = (length l + pos l' x)%nat.
Proof.
  induction l as [|y l IH]; simpl; [done|].
  rewrite not_elem_of_cons. intros [? ?]. rewrite decide_False by done. by rewrite IH.
Qed.

Lemma pos_NoDup l i x : NoDup l → l !! i = Some x → pos l x = i.
Proof.
  intros Hnd Hi. eapply NoDup_lookup; [done| |done].
  apply pos_lookup. by eapply list_elem_of_lookup_2.
Qed.

Lemma pos_inj l x y : x ∈ l → pos l x = pos l y → x = y.
Proof.
  intros Hx Heq. apply pos_lookup in Hx as Hlx.
  destruct (decide (y ∈ l)) as [Hy|Hy].
  - apply pos_lookup in Hy. rewrite Heq in Hlx. congruence.
  - apply pos_lt in Hx. assert (pos l y = length l); [|lia].
    rewrite <- (app_nil_r l) at 1. rewrite pos_app_r by done. simpl. lia.
Qed.

(** In a sublist of a duplicate-free list, positions grow as in the list. *)
Lemma pos_filter_mono (P : string → Prop) `{!∀ x, Decision (P x)} l x y :
  NoDup l → x ∈ filter P l → y ∈ filter P l →
  (pos (filter P l) x < pos (filter P l) y)%nat → (pos l x < pos l y)%nat.
Proof.
  induction 1 as [|z l Hz Hnd IH]; simpl; [by intros ?%elem_of_nil|].
  intros Hx Hy. rewrite filter_cons in *. destruct (decide (P z)).
  - simpl. destruct (decide (x = z)) as [->|Hxz], (decide (y = z)) as [->|Hyz]; try lia.
    apply elem_of_cons in Hx as [?|Hx]; [done|].
    apply elem_of_cons in Hy as [?|Hy]; [done|].
    intros ?. apply IH in Hx; [lia|done|lia].
  - assert (x ≠ z) by (intros ->; apply list_elem_of_filter in Hx as [? ?]; done).
    assert (y ≠ z) by (intros ->; apply list_elem_of_filter in Hy as [? ?]; done).
    rewrite !decide_False by done. intros ?. apply IH in Hx; [lia|done..].
Qed.

Lemma occ_nil k : occ k [] = O.
Proof. done. Qed.

Lemma occ_cons k d l : occ k (d :: l) = ((if decide (d = k) then 1 else 0) + occ k l)%nat.
Proof. unfold occ. rewrite filter_cons. by destruct (decide (d = k)). Qed.

Lemma occ_pos k l : (0 < occ k l)%nat ↔ k ∈ l.
Proof.
  induction l as [|d l IH]; [rewrite occ_nil, elem_of_nil; lia|].
  rewrite occ_cons, elem_of_cons. destruct (decide (d = k)) as [->|?]; [|naive_solver lia].
  split; [auto | lia].
Qed.

(** Appending [id] to [done] takes its occurrences out of what remains. *)
Lemma filter_notin_snoc (done : list string) id l :
  id ∉ done →
  (length (filter (λ d, d ∉ done ++ [id]) l) + occ id l
   = length (filter (λ d, d ∉ done) l))%nat.
Proof.
  intros Hid. induction l as [|d l IH]; [done|].
  rewrite occ_cons, !filter_cons.
  destruct (decide (d = id)) as [->|Hne].
  - rewrite decide_False, decide_True by (rewrite ?elem_of_app, ?list_elem_of_singleton; naive_solver).
    simpl. lia.
  - destruct (decide (d ∈ done)).
    + rewrite decide_False, decide_False by (rewrite ?elem_of_app; naive_solver). lia.
    + rewrite decide_True, decide_True
        by (rewrite ?elem_of_app, ?list_elem_of_singleton; naive_solver).
      simpl. lia.
Qed.

Lemma set_get_id {V} (o : obj V) k v : get o k = Some v → set o k v = o.
Proof.
  induction o as [|[k' v'] o IH]; simpl; [done|].
  destruct (decide (k = k')) as [->|?]; [by intros [= ->]|].
  intros ?. by rewrite IH.
Qed.

Lemma set_set {V} (o : obj V) k v v' : set (set o k v) k v' = set o k v'.
Proof.
  induction o as [|[k0 v0] o IH]; simpl.
  - by rewrite decide_True.
  - destruct (decide (k = k0)) as [->|?]; simpl.
    + by rewrite decide_True.
    + rewrite decide_False by done. by rewrite IH.
Qed.

(** An object is determined by its keys, in order, and its values. *)
Lemma obj_eq_fmap {V} (o : obj V) (f : string → V) :
  NoDup (keys o) → (∀ k, k ∈ keys o → get o k = Some (f k)) →
  o = (λ k, (k, f k)) <$> keys o.
Proof.
  unfold keys. induction o as [|[k v] o IH]; simpl; [done|].
  rewrite NoDup_cons. intros [Hk Hnd] Hget.
  assert (v = f k) as ->.
  { specialize (Hget k). rewrite decide_True in Hget by done.
    assert (Some v = Some (f k)) by (apply Hget; left). congruence. }
  f_equal. apply IH; [done|]. intros k' Hk'.
  specialize (Hget k'). rewrite decide_False in Hget by (by intros ->).
  apply Hget. by right.
Qed.

(** *** The measure of the sorter's loop *)


Lemma weight_set_sub1 (o : obj num) k :
  (weight (set o k (sub1 (get o k)))
   + (if decide (sub1 (get o k) = Int 0) then 1 else 0) ≤ weight o)%nat.
Proof.
  unfold weight, values. induction o as [|[k' v'] o IH]; csimpl.
  - lia.
  - destruct (decide (k = k')) as [->|?]; csimpl; [|lia].
    destruct v' as [z|]; simpl; [|lia].
    destruct (decide (Int (z - 1) = Int 0)) as [[= ?]|?]; lia.
Qed.

Lemma relax_measure (ds : list string) (i : obj num) (q : list string) :
  (weight (relax ds i q).1 + length (relax ds i q).2 ≤ weight i + length q)%nat.
Proof.
  revert i q. induction ds as [|d ds IH]; intros i q; simpl; [lia|].
  etrans; [apply IH|].
  pose proof (weight_set_sub1 i d).
  destruct (decide (sub1 (get i d) = Int 0)); rewrite ?length_app; simpl; lia.
Qed.

Section loop.
Context {W : Type}.

Lemma kahn_bound_eq (st : KahnState) :
  kahn_bound st = (length (queue st) + weight (inDegree st))%nat.
Proof. done. Qed.

(** The loop has left within [kahn_bound] iterations, whatever its state. *)
Lemma kahn_loop_exits n graph (st st' : KahnState) :
  (kahn_bound st ≤ n)%nat → kahn_loop n graph st = Returns st' → queue st' = [].
Proof.
  revert st. induction n as [|n IH]; intros st Hb; simpl.
  - intros [= <-]. rewrite kahn_bound_eq in Hb.
    destruct (queue st); [done | simpl in Hb; lia].
  - destruct (queue st) as [|id q] eqn:Hq.
    { destruct n; by intros [= <-]. }
    destruct (get graph id) as [ds|]; [|done].
    destruct (relax ds (inDegree st) q) as [i' q'] eqn:Hr.
    apply IH. rewrite kahn_bound_eq in *. simpl. rewrite Hq in Hb. simpl in Hb.
    pose proof (relax_measure ds (inDegree st) q) as Hm. rewrite Hr in Hm. simpl in Hm. lia.
Qed.

(** A run that has left the loop, or thrown, is the same with more fuel. *)
Lemma kahn_loop_stable n k graph (st : KahnState) :
  match kahn_loop n graph st with
  | Returns st' => queue st' = []
  | Throws _ => True
  end →
  kahn_loop (n + k) graph st = kahn_loop n graph st.
Proof.
  revert st. induction n as [|n IH]; intros st; simpl.
  - intros Hq. destruct k; simpl; by rewrite ?Hq.
  - destruct (queue st) as [|id q]; [done|].
    destruct (get graph id) as [ds|]; [|done].
    destruct (relax ds (inDegree st) q) as [i' q']. apply IH.
Qed.

(** The number of iterations is no part of the result: any fuel from
    [kahn_bound] on gives the run of [while (queue.length > 0)]. *)
Lemma kahn_loop_fuel k graph (st : KahnState) :
  kahn_loop (kahn_bound st + k) graph st = kahn_loop (kahn_bound st) graph st.
Proof.
  apply kahn_loop_stable.
  destruct (kahn_loop (kahn_bound st) graph st) as [st'|] eqn:Hrun; [|done].
  by eapply kahn_loop_exits.
Qed.

End loop.

(** *** Counting down the dependents of one id *)

Lemma relax_replicate (m : nat) x rest (i : obj num) q (n : Z) :
  get i x = Some (Int n) → Z.of_nat m ≤ n →
  relax (replicate m x ++ rest) i q
  = relax rest (set i x (Int (n - Z.of_nat m)))
      (q ++ if decide ((0 < m)%nat ∧ n = Z.of_nat m) then [x] else []).
Proof.
  revert i q n. induction m as [|m IH]; intros i q n Hget Hle; simpl.
  - rewrite app_nil_r.
    replace (n - Z.of_nat 0) with n by lia. by rewrite set_get_id.
  - rewrite Hget. simpl.
    rewrite (IH _ _ (n - 1)); [|apply get_set_eq|lia].
    rewrite set_set. replace (n - 1 - Z.of_nat m) with (n - Z.of_nat (S m)) by lia. f_equal.
    destruct (decide (Int (n - 1) = Int 0)) as [[= ?]|Hne].
    + rewrite decide_False by lia. rewrite decide_True by lia. by rewrite app_nil_r.
    + destruct (decide ((0 < m)%nat ∧ n - 1 = Z.of_nat m)).
      * by rewrite decide_True by lia.
      * rewrite decide_False; [done|]. intros [_ ?]. destruct m; [|lia].
        apply Hne. f_equal. lia.
Qed.

Lemma relax_blocks (ks : list string) (c : string → nat) (n : string → Z)
    (i : obj num) q :
  NoDup ks →
  (∀ x, x ∈ ks → get i x = Some (Int (n x)) ∧ Z.of_nat (c x) ≤ n x) →
  ∃ i', relax (flat_map (λ x, replicate (c x) x) ks) i q
        = (i', q ++ filter (λ x, (0 < c x)%nat ∧ n x = Z.of_nat (c x)) ks)
     ∧ keys i' = keys i
     ∧ (∀ x, x ∈ ks → get i' x = Some (Int (n x - Z.of_nat (c x))))
     ∧ (∀ x, x ∉ ks → get i' x = get i x).
Proof.
  intros Hnd. revert i q. induction Hnd as [|k ks Hk Hnd IH]; intros i q Hall; simpl.
  - exists i. rewrite app_nil_r. split_and!; [done..| |done]. by intros x ?%elem_of_nil.
  - destruct (Hall k) as [Hget Hle]; [left|].
    rewrite (relax_replicate _ _ _ _ _ (n k)) by done.
    destruct (IH (set i k (Int (n k - Z.of_nat (c k))))
      (q ++ if decide ((0 < c k)%nat ∧ n k = Z.of_nat (c k)) then [k] else [])) as (i' & Hr & Hkeys & Hin & Hout).
    { intros x Hx. rewrite get_set_ne by (by intros ->). apply Hall. by right. }
    exists i'. split_and!.
    + rewrite Hr. f_equal. rewrite <- app_assoc. f_equal.
      rewrite filter_cons. by destruct (decide ((0 < c k)%nat ∧ n k = Z.of_nat (c k))).
    + rewrite Hkeys. apply keys_set_in. apply get_is_Some. by eexists.
    + intros x [->|Hx]%elem_of_cons; [|by apply Hin].
      rewrite Hout by done. apply get_set_eq.
    + intros x [? ?]%not_elem_of_cons. rewrite Hout by done. by apply get_set_ne.
Qed.

(** *** Building the graph *)

Lemma init_graph_spec ids (i : obj num) (g : obj (list string)) :
  NoDup ids → (∀ id, id ∈ ids → (id ∉ keys i) ∧ id ∉ keys g) →
  init_graph ids i g
  = (i ++ ((λ id, (id, Int 0)) <$> ids), g ++ ((λ id, (id, [])) <$> ids)).
Proof.
  intros Hnd. revert i g. induction Hnd as [|id ids Hid Hnd IH]; intros i g Hfresh; simpl.
  - by rewrite !app_nil_r.
  - destruct (Hfresh id) as [Hi Hg]; [left|].
    rewrite IH.
    + rewrite !set_notin by done. by rewrite <- !app_assoc.
    + intros id' Hid'. destruct (Hfresh id') as [Hi' Hg']; [by right|].
      rewrite !set_notin by done. unfold keys. rewrite !fmap_app, !not_elem_of_app. simpl.
      rewrite !list_elem_of_singleton. split_and!; try done; by intros ->.
Qed.

Lemma add_edges_Returns id deps (i : obj num) (g : obj (list string)) z :
  (∀ d, d ∈ deps → d ∈ keys g) → get i id = Some (Int z) →
  ∃ i' g', add_edges id deps i g = Returns (i', g')
    ∧ keys i' = keys i ∧ keys g' = keys g
    ∧ get i' id = Some (Int (z + Z.of_nat (length deps)))
    ∧ (∀ k, k ≠ id → get i' k = get i k)
    ∧ (∀ k, get g' k = (λ l, l ++ replicate (occ k deps) id) <$> get g k).
Proof.
  revert i g z. induction deps as [|d deps IH]; intros i g z Hdeps Hget; simpl.
  - exists i, g. split_and!; try done.
    + rewrite Hget. do 2 f_equal. lia.
    + intros k. destruct (get g k); simpl; [|done]. by rewrite app_nil_r.
  - assert (is_Some (get g d)) as [ds Hds] by (apply get_is_Some, Hdeps; left).
    rewrite Hds, Hget. simpl.
    destruct (IH (set i id (Int (z + 1))) (set g d (ds ++ [id])) (z + 1))
      as (i' & g' & Hr & Hki & Hkg & Hid & Hother & Hg).
    { intros d' Hd'. rewrite keys_set_in; [apply Hdeps; by right|].
      apply get_is_Some. by eexists. }
    { apply get_set_eq. }
    exists i', g'. split_and!; try done.
    + rewrite Hki. apply keys_set_in, get_is_Some. by eexists.
    + rewrite Hkg. apply keys_set_in, get_is_Some. by eexists.
    + rewrite Hid. do 2 f_equal. lia.
    + intros k Hk. rewrite Hother by done. by apply get_set_ne.
    + intros k. rewrite Hg, get_set, occ_cons.
      destruct (decide (d = k)) as [->|?]; simpl.
      * rewrite Hds. simpl. by rewrite <- app_assoc.
      * done.
Qed.

(** The first dependency that is no key stops the loop. *)
Lemma add_edges_Throws id deps (i : obj num) (g : obj (list string)) :
  (∃ d, d ∈ deps ∧ d ∉ keys g) → (∃ z, get i id = Some (Int z)) →
  ∃ d, d ∈ deps ∧ (d ∉ keys g)
    ∧ add_edges id deps i g = Throws (missing_dependency_error id d).
Proof.
  revert i g. induction deps as [|d deps IH]; intros i g [d0 [Hin Hd0]] [z Hz].
  { by apply elem_of_nil in Hin. }
  simpl. destruct (get g d) as [ds|] eqn:Hds.
  - assert (d ∈ keys g) by (apply get_is_Some; by eexists).
    destruct (IH (set i id (or0_add1 (get i id))) (set g d (ds ++ [id]))) as (d' & ? & ? & ?).
    + exists d0. rewrite keys_set_in by done. split; [|done].
      apply elem_of_cons in Hin as [->|?]; done.
    + rewrite Hz. simpl. eexists. apply get_set_eq.
    + exists d'. rewrite keys_set_in in * by done. split_and!; [by right|done..].
  - exists d. split_and!; [left| by apply get_None |].
    unfold missing_dependency_error. by destruct (decide (inherited d)).
Qed.

Section build.
Context {W : Type}.
Implicit Types (entries resources : obj (Resource W)) (r : Resource W).

Lemma declared_at_deps_of resources k :
  NoDup (keys resources) → declared_at resources k = deps_of resources k.
Proof.
  unfold declared_at, deps_of, keys.
  induction resources as [|[k' r] resources IH]; simpl; [done|].
  rewrite NoDup_cons. intros [Hk Hnd].
  destruct (decide (k' = k)) as [->|?].
  - rewrite decide_True by done.
    assert (flat_map (λ e, if decide (e.1 = k) then declared e.2 else []) resources = []) as ->.
    { clear IH Hnd. induction resources as [|[k' r'] resources IH]; simpl; [done|].
      apply not_elem_of_cons in Hk as [? ?]. rewrite decide_False by done. by apply IH. }
    by rewrite app_nil_r.
  - rewrite decide_False by done. by apply IH.
Qed.

Lemma dependents_of_keys resources k :
  NoDup (keys resources) →
  dependents_of resources k
  = flat_map (λ x, replicate (occ k (deps_of resources x)) x) (keys resources).
Proof.
  intros Hnd. unfold dependents_of, keys.
  assert (∀ e, e ∈ resources → deps_of resources e.1 = declared e.2) as Hdeps.
  { intros [id r] He. unfold deps_of. simpl. by rewrite (elem_of_get _ _ r). }
  clear Hnd. revert Hdeps. generalize (deps_of resources) as f. intros f Hf.
  induction resources as [|e resources IH]; simpl; [done|].
  rewrite Hf by left. f_equal. apply IH. intros e' ?. apply Hf. by right.
Qed.

Lemma build_graph_Returns entries (i : obj num) (g : obj (list string)) :
  (∀ id r, (id, r) ∈ entries → iterate (dependencies (config r)) = Returns (declared r)) →
  (∀ id r d, (id, r) ∈ entries → d ∈ declared r → d ∈ keys g) →
  (∀ id r, (id, r) ∈ entries → id ∈ keys i) →
  (∀ k, k ∈ keys i → ∃ z, get i k = Some (Int z)) →
  ∃ i' g', build_graph entries i g = Returns (i', g')
    ∧ keys i' = keys i ∧ keys g' = keys g
    ∧ (∀ k z, get i k = Some (Int z) →
         get i' k = Some (Int (z + Z.of_nat (length (declared_at entries k)))))
    ∧ (∀ k, get g' k = (λ l, l ++ dependents_of entries k) <$> get g k).
Proof.
  revert i g. induction entries as [|[id r] entries IH]; intros i g Harr Hex Hids Hint.
  - exists i, g. simpl. split_and!; try done.
    + intros k z ->. do 2 f_equal. lia.
    + intros k. destruct (get g k); simpl; [|done]. by rewrite app_nil_r.
  - simpl. rewrite (Harr id r) by left. simpl.
    destruct (Hint id) as [z Hz]; [apply (Hids id r); left|].
    destruct (add_edges_Returns id (declared r) i g z) as (i1 & g1 & -> & Hki & Hkg & Hid & Hoth & Hg1).
    { intros d. apply (Hex id r). left. } { done. }
    simpl.
    destruct (IH i1 g1) as (i' & g' & -> & Hki' & Hkg' & Hi' & Hg').
    { intros id' r' ?. apply (Harr id' r'). by right. }
    { intros ?????. rewrite Hkg. eapply Hex; [by right|done]. }
    { intros ???. rewrite Hki. eapply Hids. by right. }
    { intros k Hk. destruct (decide (k = id)) as [->|?]; [by eexists|].
      rewrite Hoth by done. apply Hint. by rewrite <- Hki. }
    exists i', g'. split_and!; try congruence.
    + intros k z' Hk. unfold declared_at. simpl. fold (declared_at entries k).
      destruct (decide (id = k)) as [->|?].
      * assert (z' = z) as -> by congruence.
        rewrite (Hi' _ _ Hid). do 2 f_equal. rewrite length_app. lia.
      * rewrite (Hi' k z') by (by rewrite Hoth). done.
    + intros k. rewrite Hg', Hg1. unfold dependents_of. simpl.
      destruct (get g k); simpl; [|done]. by rewrite app_assoc.
Qed.

(** A successful build means that every declaration was an array of
    existing ids. *)
Lemma build_graph_Returns_inv entries (i : obj num) (g : obj (list string)) res :
  (∀ id r, (id, r) ∈ entries → id ∈ keys i) →
  (∀ k, k ∈ keys i → ∃ z, get i k = Some (Int z)) →
  build_graph entries i g = Returns res →
  (∀ id r, (id, r) ∈ entries → iterate (dependencies (config r)) = Returns (declared r))
  ∧ (∀ id r d, (id, r) ∈ entries → d ∈ declared r → d ∈ keys g).
Proof.
  revert i g. induction entries as [|[id r] entries IH]; intros i g Hids Hint Hres.
  { split; [intros ?? ?%elem_of_nil | intros ??? ?%elem_of_nil]; done. }
  simpl in Hres.
  assert (iterate (dependencies (config r)) = Returns (declared r)) as Hit.
  { unfold declared. destruct (dependencies (config r)) as [[ids|??]|]; done. }
  rewrite Hit in Hres. simpl in Hres.
  destruct (Hint id) as [z Hz]; [apply (Hids id r); left|].
  assert (∀ d, d ∈ declared r → d ∈ keys g) as Hall.
  { apply Forall_forall. destruct (decide (Forall (λ d, d ∈ keys g) (declared r))) as [|Hn]; [done|].
    apply not_Forall_Exists in Hn; [|apply _]. apply Exists_exists in Hn.
    destruct (add_edges_Throws id (declared r) i g) as (d & _ & _ & Hthrow); [done|by eexists|].
    by rewrite Hthrow in Hres. }
  destruct (add_edges_Returns id (declared r) i g z) as (i1 & g1 & Hr & Hki & Hkg & Hid & Hoth & Hg1);
    [done..|].
  rewrite Hr in Hres. simpl in Hres.
  apply IH in Hres as [Harr Hex].
  - split.
    + intros id' r' [[= -> ->]|?]%elem_of_cons; [done | by eapply Harr].
    + intros id' r' d [[= -> ->]|?]%elem_of_cons ?; [by apply Hall|].
      rewrite <- Hkg. by eapply Hex.
  - intros ???. rewrite Hki. eapply Hids. by right.
  - intros k Hk. destruct (decide (k = id)) as [->|?]; [by eexists|].
    rewrite Hoth by done. apply Hint. by rewrite <- Hki.
Qed.



End build.

Lemma pos_lt_elem_of l x : (pos l x < length l)%nat → x ∈ l.
Proof.
  induction l as [|y l IH]; simpl; [lia|].
  destruct (decide (x = y)) as [->|?]; [left|]. intros ?. right. apply IH. lia.
Qed.

Lemma pos_snoc l x : x ∉ l → pos (l ++ [x]) x = length l.
Proof. intros ?. rewrite pos_app_r by done. simpl. rewrite decide_True by done. lia. Qed.

Lemma max_list_le (ns : list nat) n : (∀ m, m ∈ ns → (m ≤ n)%nat) → (max_list ns ≤ n)%nat.
Proof.
  induction ns as [|m ns IH]; simpl; [lia|]. intros Hall.
  apply Nat.max_lub; [apply Hall; left|]. apply IH. intros ??. apply Hall. by right.
Qed.

Section kahn.
Context {W : Type}.
Variable resources : obj (Resource W).
Hypothesis Hnd : NoDup (keys resources).
Variable graph : obj (list string).
Hypothesis Hgraph : ∀ k, k ∈ keys resources → get graph k = Some (dependents_of resources k).


Lemma remaining_zero processed x : remaining resources processed x = O ↔ ∀ d, depends_on resources x d → d ∈ processed.
Proof.
  unfold remaining, depends_on. rewrite length_zero_iff_nil. split.
  - intros Hnil d Hd. destruct (decide (d ∈ processed)) as [|Hn]; [done|].
    by apply (filter_nil_not_elem_of (λ dep, dep ∉ processed) _ d) in Hnil.
  - intros Hall. induction (deps_of resources x) as [|d l IH]; [done|].
    rewrite filter_cons_False by (intros Hn; apply Hn, Hall; left).
    apply IH. intros ??. apply Hall. by right.
Qed.

Lemma remaining_snoc processed id x :
  id ∉ processed →
  (remaining resources (processed ++ [id]) x + occ id (deps_of resources x) = remaining resources processed x)%nat.
Proof. apply filter_notin_snoc. Qed.

Lemma ready_at_app processed l x :
  (∀ d, depends_on resources x d → d ∈ processed) → ready_at resources (processed ++ l) x = ready_at resources processed x.
Proof.
  unfold ready_at, depends_on. intros Hall. f_equal.
  apply list_fmap_ext. intros _ d Hd%list_elem_of_lookup_2. by rewrite pos_app_l by auto.
Qed.

Lemma ready_at_le processed x :
  (∀ d, depends_on resources x d → d ∈ processed) → (ready_at resources processed x ≤ length processed)%nat.
Proof.
  intros Hall. apply max_list_le. intros m (d & -> & Hd)%list_elem_of_fmap.
  apply Hall, pos_lt in Hd. lia.
Qed.

Lemma kahn_inv_step st id q ds i' q' :
  kahn_inv resources st → queue st = id :: q → get graph id = Some ds →
  relax ds (inDegree st) q = (i', q') →
  kahn_inv resources {| queue := q'; inDegree := i'; result := result st ++ [id] |}.
Proof.
  intros [Hnodup Hkeys Hindeg Hready Hresp Hfifo] Hq Hds Hrelax.
  rewrite Hq in *.
  set (processed := result st) in *.
  assert (id ∈ keys resources) as Hid by (apply Hkeys; set_solver).
  assert (id ∉ processed) as Hfresh.
  { apply NoDup_app in Hnodup as (_ & Hdisj & _). intros ?. eapply Hdisj; [done|left]. }
  assert (∀ d, depends_on resources id d → d ∈ processed) as Hiddeps.
  { apply remaining_zero, Hready; [done|]. set_solver. }
  rewrite Hgraph in Hds by done. injection Hds as <-.
  rewrite dependents_of_keys in Hrelax by done.
  set (c := λ x, occ id (deps_of resources x)) in *.
  set (n := λ x, Z.of_nat (remaining resources processed x)).
  destruct (relax_blocks (keys resources) c n (inDegree st) q Hnd)
    as (i'' & Hr & _ & Hin & _).
  { intros x Hx. split; [by apply Hindeg|].
    pose proof (remaining_snoc processed id x Hfresh). unfold n, c. lia. }
  pose proof (eq_trans (eq_sym Hrelax) Hr) as Heq. injection Heq as -> ->.
  clear Hr Hrelax.
  set (newq := filter (λ x, (0 < c x)%nat ∧ n x = Z.of_nat (c x)) (keys resources)).
  assert (∀ x, x ∈ newq ↔ x ∈ keys resources ∧ (0 < c x)%nat ∧ remaining resources processed x = c x) as Hnewq.
  { intros x. unfold newq, n. rewrite list_elem_of_filter. naive_solver lia. }
  assert (∀ x, x ∈ newq → x ∉ processed ++ id :: q) as Hnew_fresh.
  { intros x (Hx & Hc & Hrem)%Hnewq Hold. apply Hready in Hold; [lia|done]. }
  assert ((processed ++ [id]) ++ q ++ newq = (processed ++ id :: q) ++ newq) as HL.
  { by rewrite <- !app_assoc. }
  assert (∀ x, x ∈ processed ++ id :: q → ∀ d, depends_on resources x d → d ∈ processed) as Holddeps.
  { intros x Hx. apply remaining_zero, Hready; [by apply Hkeys | done]. }
  assert (∀ x, x ∈ newq → ready_at resources (processed ++ [id]) x = S (length processed)) as Hnewrdy.
  { intros x (Hx & Hc & Hrem)%Hnewq. apply Nat.le_antisymm.
    - apply max_list_le. intros m (d & -> & Hd)%list_elem_of_fmap.
      assert (d ∈ processed ++ [id]) as Hd'%pos_lt; [|rewrite length_app in Hd'; simpl in Hd'; lia].
      revert d Hd. apply (remaining_zero (processed ++ [id]) x).
      pose proof (remaining_snoc processed id x Hfresh). unfold c in *. lia.
    - apply max_list_elem_of_le, list_elem_of_fmap. exists id. split.
      + by rewrite pos_snoc.
      + by apply occ_pos. }
  constructor; simpl.
  - rewrite HL. apply NoDup_app. split_and!; [done| |by apply NoDup_filter].
    intros x Hx Hx'. by apply Hnew_fresh in Hx'.
  - rewrite HL. intros x [?|Hx]%elem_of_app; [by apply Hkeys|]. by apply Hnewq in Hx as [? _].
  - intros x Hx. rewrite Hin by done. unfold n, c. do 2 f_equal.
    pose proof (remaining_snoc processed id x Hfresh). lia.
  - intros x Hx. rewrite HL, elem_of_app, Hready, Hnewq by done.
    pose proof (remaining_snoc processed id x Hfresh). unfold c in *.
    destruct (decide (occ id (deps_of resources x) = O)); naive_solver lia.
  - intros x d [Hx|Hx%list_elem_of_singleton]%elem_of_app Hd; [|subst x].
    + destruct (Hresp x d Hx Hd) as [Hdd Hlt].
      rewrite !pos_app_l by done. split; [set_solver | done].
    + apply Hiddeps in Hd as Hdd. rewrite pos_app_l, pos_snoc by done.
      split; [set_solver | by apply pos_lt].
  - rewrite HL. intros p p' x y Hlt Hx Hy.
    apply lookup_app_Some in Hx as [Hx|[Hpl Hx]];
      apply lookup_app_Some in Hy as [Hy|[Hpl' Hy]].
    + rewrite !ready_at_app by eauto using list_elem_of_lookup_2. eauto.
    + left. simpl. rewrite (Hnewrdy y) by eauto using list_elem_of_lookup_2.
      rewrite ready_at_app by eauto using list_elem_of_lookup_2.
      apply Nat.lt_succ_r, ready_at_le. eauto using list_elem_of_lookup_2.
    + apply lookup_lt_Some in Hy. lia.
    + right. simpl.
      rewrite (Hnewrdy x), (Hnewrdy y) by eauto using list_elem_of_lookup_2. split; [done|].
      assert (NoDup newq) as Hndq by (by apply NoDup_filter).
      apply (pos_filter_mono (λ x, (0 < c x)%nat ∧ n x = Z.of_nat (c x))); fold newq;
        [done|by eapply list_elem_of_lookup_2..|].
      rewrite (pos_NoDup _ _ _ Hndq Hx), (pos_NoDup _ _ _ Hndq Hy). lia.
Qed.

Lemma kahn_loop_inv n st :
  kahn_inv resources st → ∃ st', kahn_loop n graph st = Returns st' ∧ kahn_inv resources st'.
Proof.
  revert st. induction n as [|n IH]; intros st Hinv; simpl.
  - by exists st.
  - destruct (queue st) as [|id q] eqn:Hq.
    { exists st. by destruct n. }
    assert (id ∈ keys resources) as Hid.
    { apply (inv_keys _ _ Hinv). rewrite Hq. set_solver. }
    rewrite Hgraph by done.
    destruct (relax _ _ _) as [i' q'] eqn:Hr.
    apply IH. eapply kahn_inv_step; [done..|by apply Hgraph|done].
Qed.

End kahn.

Section sorted.
Context {W : Type}.
Variable resources : obj (Resource W).
Hypothesis Hnd : NoDup (keys resources).

Lemma depends_on_key id d : depends_on resources id d → id ∈ keys resources.
Proof.
  unfold depends_on, deps_of. destruct (get resources id) eqn:Hg.
  - intros _. apply get_is_Some. by eexists.
  - by intros ?%elem_of_nil.
Qed.

Lemma depends_on_entry id r d :
  (id, r) ∈ resources → d ∈ declared r ↔ depends_on resources id d.
Proof. intros Hin. unfold depends_on, deps_of. by rewrite (elem_of_get _ _ r). Qed.

Lemma resolvable_key x : resolvable resources x → x ∈ keys resources.
Proof. by intros [? ? _]. Qed.

Lemma resolvable_not_cyclic x :
  resolvable resources x → ¬ tc (depends_on resources) x x.
Proof.
  induction 1 as [x Hx Hdeps IH]. intros Hcyc.
  inversion Hcyc as [? ? Hstep | ? y ? Hstep Hrest]; subst.
  - by apply (IH x Hstep), tc_once.
  - apply (IH y Hstep). eapply tc_r; done.
Qed.

Lemma acyclic_resolvable x :
  dependencies_exist resources → acyclic resources →
  x ∈ keys resources → resolvable resources x.
Proof.
  intros Hex Hac Hx.
  assert (sn (depends_on resources) x) as Hsn.
  { apply tc_finite_sn; [exact Hac|]. exists (keys resources).
    intros y Hy. induction Hy; eauto. }
  induction Hsn as [x _ IH]. constructor; [done|].
  intros d Hd. apply IH; [done|]. by eapply Hex.
Qed.

Lemma make_initial_inDegree :
  init_graph (keys resources) [] []
  = ((λ id, (id, Int 0)) <$> keys resources, (λ id, (id, [])) <$> keys resources).
Proof.
  rewrite init_graph_spec; [done..|]. intros id _. split; apply not_elem_of_nil.
Qed.


(** What the sorter computes, for array declarations of existing ids:
    the resolvable ids, each after its dependencies, first in first out. *)
Lemma topologicalSort_run :
  array_deps resources → dependencies_exist resources →
  ∃ res,
    NoDup res
    ∧ (∀ x, x ∈ res ↔ resolvable resources x)
    ∧ (∀ x d, x ∈ res → depends_on resources x d → (pos res d < pos res x)%nat)
    ∧ (∀ p q x y, (p < q)%nat → res !! p = Some x → res !! q = Some y →
         lexlt (ready_at resources res x, pos (keys resources) x)
               (ready_at resources res y, pos (keys resources) y))
    ∧ topologicalSort resources
      = if decide (length res ≠ length (keys resources)) then
          Throws (new_Error (circular_dependency_message
                               (filter (λ id, id ∉ res) (keys resources))))
        else Returns res.
Proof.
  intros Harr Hex. unfold topologicalSort. rewrite make_initial_inDegree.
  set (i0 := (λ id, (id, Int 0)) <$> keys resources).
  set (g0 := (λ id : string, (id, @nil string)) <$> keys resources).
  assert (keys i0 = keys resources) as Hki0.
  { unfold i0, keys. rewrite <- list_fmap_compose. apply list_fmap_id. }
  assert (keys g0 = keys resources) as Hkg0.
  { unfold g0, keys. rewrite <- list_fmap_compose. apply list_fmap_id. }
  assert (∀ k, k ∈ keys resources → get i0 k = Some (Int 0)) as Hi0.
  { intros k Hk. apply elem_of_get; [by rewrite Hki0|].
    apply list_elem_of_fmap. by exists k. }
  assert (∀ k, k ∈ keys resources → get g0 k = Some []) as Hg0.
  { intros k Hk. apply elem_of_get; [by rewrite Hkg0|].
    apply list_elem_of_fmap. by exists k. }
  destruct (build_graph_Returns resources i0 g0) as (i & g & -> & Hki & Hkg & Hi & Hg).
  { done. }
  { intros id r d Hin Hd. rewrite Hkg0. apply (Hex id). by apply (depends_on_entry id r). }
  { intros id r Hin. rewrite Hki0. apply list_elem_of_fmap. by exists (id, r). }
  { intros k Hk. exists 0. apply Hi0. by rewrite <- Hki0. }
  simpl.
  assert (∀ k, k ∈ keys resources →
    get i k = Some (Int (Z.of_nat (length (deps_of resources k))))) as Hi'.
  { intros k Hk. rewrite (Hi k 0) by auto. by rewrite declared_at_deps_of. }
  assert (∀ k, k ∈ keys resources → get g k = Some (dependents_of resources k)) as Hg'.
  { intros k Hk. by rewrite Hg, Hg0. }
  assert (i = (λ k, (k, Int (Z.of_nat (length (deps_of resources k))))) <$> keys resources) as Hieq.
  { rewrite <- Hki0, <- Hki. apply obj_eq_fmap; [by rewrite Hki, Hki0|].
    intros k Hk. apply Hi'. by rewrite <- Hki0, <- Hki. }
  set (q0 := (filter (λ e : string * num, e.2 = Int 0) i).*1).
  assert (q0 = filter (λ k, deps_of resources k = []) (keys resources)) as Hq0.
  { unfold q0. rewrite Hieq. clear. induction (keys resources) as [|k ks IH]; [done|].
    rewrite fmap_cons, (filter_cons (λ k, deps_of resources k = [])),
      (filter_cons (λ e : string * num, e.2 = Int 0)). cbn [snd].
    destruct (deps_of resources k) eqn:Hd.
    - rewrite !decide_True by done. rewrite fmap_cons. cbn [fst]. by f_equal.
    - rewrite !decide_False by done. done. }
  set (st0 := {| queue := q0; inDegree := i; result := [] |}).
  assert (kahn_inv resources st0) as Hinv0.
  { constructor; simpl.
    - rewrite Hq0. by apply NoDup_filter.
    - rewrite Hq0. by intros x [_ ?]%list_elem_of_filter.
    - intros x Hx. rewrite Hi' by done. unfold remaining.
      rewrite filter_all; [done|]. intros ? _. apply not_elem_of_nil.
    - intros x Hx. rewrite Hq0, list_elem_of_filter. unfold remaining.
      rewrite filter_all by (intros ? _; apply not_elem_of_nil).
      rewrite length_zero_iff_nil. naive_solver.
    - by intros x d ?%elem_of_nil.
    - rewrite Hq0. intros p q x y Hlt Hx Hy. right. simpl.
      assert (∀ z, z ∈ filter (λ k, deps_of resources k = []) (keys resources) →
                   ready_at resources [] z = O) as Hrdy.
      { intros z [Hz _]%list_elem_of_filter. unfold ready_at. by rewrite Hz. }
      rewrite !Hrdy by (by eapply list_elem_of_lookup_2). split; [done|].
      assert (NoDup (filter (λ k, deps_of resources k = []) (keys resources))) as Hndq
        by (by apply NoDup_filter).
      apply (pos_filter_mono (λ k, deps_of resources k = []));
        [done|by eapply list_elem_of_lookup_2..|].
      rewrite (pos_NoDup _ _ _ Hndq Hx), (pos_NoDup _ _ _ Hndq Hy). lia. }
  destruct (kahn_loop_inv resources Hnd g Hg' (kahn_bound st0) st0 Hinv0) as (st' & Hloop & Hinv').
  change (kahn_loop _ g _) with (kahn_loop (kahn_bound st0) g st0).
  rewrite Hloop. simpl.
  assert (queue st' = []) as Hqe by (by eapply kahn_loop_exits).
  destruct Hinv' as [Hnodup Hkeys Hindeg Hready Hresp Hfifo].
  rewrite Hqe, app_nil_r in *.
  exists (result st'). split_and!; [done| | |done|done].
  - intros x. split.
    + intros Hx. remember (pos (result st') x) as n eqn:Hn.
      revert x Hx Hn. induction (lt_wf n) as [n _ IH]. intros x Hx ->.
      constructor; [by apply Hkeys|]. intros d Hd.
      destruct (Hresp x d Hx Hd) as [Hdin Hlt]. by eapply IH.
    + induction 1 as [x Hx _ IH]. apply Hready; [done|]. by apply remaining_zero.
  - intros x d Hx Hd. by apply Hresp.
Qed.

(** A sort that returns has read array declarations of existing ids. *)
Lemma topologicalSort_Returns_inv order :
  topologicalSort resources = Returns order →
  array_deps resources ∧ dependencies_exist resources.
Proof.
  unfold topologicalSort. rewrite make_initial_inDegree.
  destruct (build_graph _ _ _) as [res|e] eqn:Hbuild; [|done]. intros _.
  apply build_graph_Returns_inv in Hbuild as [Harr Hex].
  - split; [done|]. intros id d Hd.
    assert (is_Some (get resources id)) as [r Hr].
    { apply get_is_Some. by eapply depends_on_key. }
    apply get_Some_elem_of in Hr.
    apply (depends_on_entry id r) in Hd; [|done].
    specialize (Hex id r d Hr Hd). by rewrite keys_fmap_pair in Hex.
  - intros id r Hin. rewrite keys_fmap_pair.
    apply list_elem_of_fmap. by exists (id, r).
  - intros k Hk. exists 0. rewrite keys_fmap_pair in Hk.
    by rewrite (get_fmap_pair (λ _, Int 0)).
Qed.

(** What a returned order is. *)
Lemma topologicalSort_Returns order :
  topologicalSort resources = Returns order →
  NoDup order
  ∧ order ≡ₚ keys resources
  ∧ (∀ id dep, depends_on resources id dep → (pos order dep < pos order id)%nat)
  ∧ (∀ p q x y, (p < q)%nat → order !! p = Some x → order !! q = Some y →
       lexlt (ready_at resources order x, pos (keys resources) x)
             (ready_at resources order y, pos (keys resources) y)).
Proof.
  intros Hsort. destruct (topologicalSort_Returns_inv order Hsort) as [Harr Hex].
  destruct (topologicalSort_run Harr Hex) as (res & Hnodup & Hres & Hresp & Hfifo & Heq).
  rewrite Hsort in Heq. destruct (decide (length res ≠ length (keys resources))) as [|Hlen]; [done|].
  injection Heq as ->. apply dec_stable in Hlen.
  assert (res ≡ₚ keys resources) as Hperm.
  { apply submseteq_length_Permutation; [|lia].
    apply NoDup_submseteq; [done|]. intros x Hx. by apply resolvable_key, Hres. }
  split_and!; [done..| |done].
  intros id dep Hd. apply Hresp; [|done]. rewrite Hperm. by eapply depends_on_key.
Qed.

(** Without a cycle every id is resolvable: the sort returns them all,
    dependencies first, ties in declaration order. *)
Lemma topologicalSort_acyclic :
  array_deps resources → dependencies_exist resources → acyclic resources →
  ∃ order,
    topologicalSort resources = Returns order
    ∧ order ≡ₚ keys resources
    ∧ (∀ id dep, depends_on resources id dep → (pos order dep < pos order id)%nat)
    ∧ (∀ x y, x ∈ keys resources → y ∈ keys resources →
         ready_at resources order x = ready_at resources order y →
         (pos (keys resources) x < pos (keys resources) y)%nat →
         (pos order x < pos order y)%nat).
Proof.
  intros Harr Hex Hac.
  destruct (topologicalSort_run Harr Hex) as (res & Hnodup & Hres & _ & _ & Heq).
  assert (res ≡ₚ keys resources) as Hperm.
  { apply NoDup_Permutation; [done..|]. intros x. rewrite Hres. split.
    - apply resolvable_key.
    - by apply acyclic_resolvable. }
  rewrite decide_False in Heq by (rewrite Hperm; auto).
  exists res. destruct (topologicalSort_Returns res Heq) as (_ & _ & Hresp & Hfifo).
  split_and!; [done..|].
  intros x y Hx Hy Hrdy Hdecl. rewrite <- Hperm in Hx, Hy.
  destruct (Nat.lt_trichotomy (pos res x) (pos res y)) as [?|[Heqpos|Hlt]]; [done|..].
  - apply pos_inj in Heqpos as ->; [lia|done].
  - destruct (Hfifo _ _ y x Hlt) as [Hl|[_ Hl]]; simpl in *;
      [by apply pos_lookup..|lia|lia].
Qed.


(** A cycle: the sort throws the error listing the ids it could not
    order, which are the ids that are not resolvable; every id on a cycle
    is among them. *)
Lemma topologicalSort_cycle :
  array_deps resources → dependencies_exist resources →
  (∃ x, tc (depends_on resources) x x) →
  ∃ unprocessed,
    topologicalSort resources
    = Throws (new_Error (circular_dependency_message unprocessed))
    ∧ unprocessed ≠ []
    ∧ (∀ x, x ∈ unprocessed ↔ x ∈ keys resources ∧ ¬ resolvable resources x)
    ∧ (∀ x, tc (depends_on resources) x x → x ∈ unprocessed).
Proof.
  intros Harr Hex [x0 Hcyc].
  destruct (topologicalSort_run Harr Hex) as (res & Hnodup & Hres & _ & _ & Heq).
  set (unprocessed := filter (λ id, id ∉ res) (keys resources)) in *.
  assert (∀ x, x ∈ unprocessed ↔ x ∈ keys resources ∧ ¬ resolvable resources x) as Hun.
  { intros x. unfold unprocessed. rewrite list_elem_of_filter, Hres. naive_solver. }
  assert (∀ x, tc (depends_on resources) x x → x ∈ unprocessed) as Hon.
  { intros x Hx. apply Hun. split.
    - inversion Hx; subst; by eapply depends_on_key.
    - intros Hr. by eapply resolvable_not_cyclic. }
  exists unprocessed. split_and!; [|by intros Hnil; apply Hon in Hcyc; rewrite Hnil in Hcyc; apply elem_of_nil in Hcyc|done..].
  rewrite decide_True in Heq; [done|]. intros Hlen.
  assert (res ≡ₚ keys resources) as Hperm.
  { apply submseteq_length_Permutation; [|lia].
    apply NoDup_submseteq; [done|]. intros x Hx. by apply resolvable_key, Hres. }
  apply Hon, Hun in Hcyc as [Hk Hnr]. apply Hnr, Hres. by rewrite Hperm.
Qed.

End sorted.

(** ** The passes and their tables *)

Section passes.
Context {W : Type}.
Implicit Types (cfg : obj (ResourceConfig W)) (resources : obj (Resource W))
  (st : PassState W).

Lemma make_resources_spec cfg status instance resources :
  NoDup (keys cfg) → (∀ id, id ∈ keys cfg → id ∉ keys resources) →
  make_resources cfg status instance resources
  = resources ++ (runtime_entry status instance <$> cfg).
Proof.
  unfold keys. revert resources.
  induction cfg as [|[id c] cfg IH]; intros resources Hnd Hfresh; csimpl.
  - by rewrite app_nil_r.
  - apply NoDup_cons in Hnd as [Hid Hnd].
    rewrite IH; [|done|].
    + rewrite set_notin by (apply Hfresh; left). by rewrite <- app_assoc.
    + intros id' Hid'. rewrite set_notin by (apply Hfresh; left).
      unfold keys. rewrite fmap_app, not_elem_of_app. split.
      * apply Hfresh. by right.
      * simpl. rewrite list_elem_of_singleton. by intros ->.
Qed.

Lemma keys_runtime_entry cfg status instance :
  keys (runtime_entry status instance <$> cfg) = keys cfg.
Proof. unfold keys. rewrite <- list_fmap_compose. done. Qed.

Lemma get_runtime_entry cfg status instance id :
  get (runtime_entry status instance <$> cfg) id
  = (λ c, {| config := c; _status := status; _instance := instance id;
             _error := VUndefined |}) <$> get cfg id.
Proof.
  induction cfg as [|[id' c] cfg IH]; csimpl; [done|].
  destruct (decide (id = id')) as [->|?]; [done|]. apply IH.
Qed.

Lemma start_resources_spec cfg :
  NoDup (keys cfg) →
  start_resources cfg = runtime_entry Stopped (λ _, VUndefined) <$> cfg.
Proof.
  intros Hnd. unfold start_resources. rewrite make_resources_spec; [done..|].
  intros ? _. apply not_elem_of_nil.
Qed.

Lemma halt_resources_spec cfg started :
  NoDup (keys cfg) →
  halt_resources cfg started = runtime_entry Started (instance_of started) <$> cfg.
Proof.
  intros Hnd. unfold halt_resources. rewrite make_resources_spec; [done..|].
  intros ? _. apply not_elem_of_nil.
Qed.

(** The sorter reads the keys and the declarations only. *)
Lemma build_graph_config (rs rs' : obj (Resource W)) i g :
  Forall2 (λ a b, a.1 = b.1 ∧ config a.2 = config b.2) rs rs' →
  build_graph rs i g = build_graph rs' i g.
Proof.
  intros Hrel. revert i g. induction Hrel as [|[id r] [id' r'] rs rs' [Hid Hc] _ IH];
    intros i g; [done|].
  simpl in *. subst id'. rewrite Hc.
  destruct (iterate _) as [deps|]; simpl; [|done].
  destruct (add_edges _ _ _ _) as [[i1 g1]|]; simpl; [|done]. apply IH.
Qed.

Lemma topologicalSort_config (rs rs' : obj (Resource W)) :
  Forall2 (λ a b, a.1 = b.1 ∧ config a.2 = config b.2) rs rs' →
  topologicalSort rs = topologicalSort rs'.
Proof.
  intros Hrel. unfold topologicalSort.
  assert (keys rs = keys rs') as ->.
  { unfold keys. induction Hrel as [|???? [? _] _ IH]; csimpl; congruence. }
  destruct (init_graph _ _ _) as [i0 g0].
  by rewrite (build_graph_config rs rs').
Qed.

Lemma topologicalSort_halt_start cfg started :
  NoDup (keys cfg) →
  topologicalSort (halt_resources cfg started) = topologicalSort (start_resources cfg).
Proof.
  intros Hnd. rewrite halt_resources_spec, start_resources_spec by done.
  apply topologicalSort_config. induction cfg; constructor; [done|].
  apply IHcfg. by apply NoDup_cons in Hnd as [_ ?].
Qed.

(** *** The halt loop *)

Lemma st_resources_invoked ev w st : st_resources (invoked ev w st) = st_resources st.
Proof. done. Qed.
Lemma st_resources_set_errors id e st : st_resources (set_errors id e st) = st_resources st.
Proof. done. Qed.
Lemma st_resources_set_started id v st : st_resources (set_started id v st) = st_resources st.
Proof. done. Qed.

Lemma get_modify_resource id f st id' :
  get (st_resources (modify_resource id f st)) id'
  = if decide (id = id') then f <$> get (st_resources st) id'
    else get (st_resources st) id'.
Proof.
  unfold modify_resource. simpl. destruct (decide (id = id')) as [<-|?].
  - destruct (get (st_resources st) id) eqn:Hg; simpl; [apply get_set_eq | done].
  - destruct (get (st_resources st) id) eqn:Hg; simpl; [by apply get_set_ne | done].
Qed.

Lemma record_thrown_app errors outs outs' :
  record_thrown errors (outs ++ outs') = record_thrown (record_thrown errors outs) outs'.
Proof.
  revert errors. induction outs as [|[id [[]|e]] outs IH]; intros errors; simpl; auto.
Qed.

Create Rewrite HintDb pass.
#[local] Hint Rewrite st_resources_invoked st_resources_set_errors st_resources_set_started
  get_modify_resource : pass.

Lemma halt_loop_run cfg instance ids st :
  NoDup ids →
  (∀ id, id ∈ ids → ∃ c, get cfg id = Some c
     ∧ get (st_resources st) id
       = Some {| config := c; _status := Started; _instance := instance id;
                 _error := VUndefined |}) →
  let to_halt := filter (λ id, truthy (instance id) = true) ids in
  ∃ resources',
    halt_loop ids st
    = (Returns (),
       {| st_resources := resources';
          st_started := st_started st;
          st_errors := record_thrown (st_errors st)
                         (halt_outcomes cfg instance to_halt (st_world st)).1;
          st_events := st_events st ++ ((λ id, HaltCalled id (instance id)) <$> to_halt);
          st_world := (halt_outcomes cfg instance to_halt (st_world st)).2 |})
    ∧ (∀ id, id ∉ ids → get resources' id = get (st_resources st) id).
Proof.
  intros Hnd. revert st. induction Hnd as [|id ids Hid Hnd IH]; intros st Hall; simpl.
  - exists (st_resources st). rewrite app_nil_r. by destruct st.
  - destruct (Hall id) as (c & Hc & Hr); [left|].
    unfold halt_one. rewrite Hr. simpl.
    rewrite filter_cons.
    destruct (truthy (instance id)) eqn:Ht; case_decide; try done.
    + simpl. rewrite Hc.
      destruct (halt c (instance id) (st_world st)) as [outcome w1] eqn:Hh.
      destruct outcome as [[]|e].
      * match goal with |- context [halt_loop ids ?s] => destruct (IH s) as (rs' & -> & Hframe) end.
        { intros id' Hid'. destruct (Hall id') as (c' & ? & ?); [by right|].
          exists c'. split; [done|]. autorewrite with pass.
          rewrite !decide_False by (by intros ->). done. }
        simpl. destruct (halt_outcomes _ _ _ w1) as [outs w2].
        eexists. split; [by rewrite <- app_assoc|].
        intros id' [? ?]%not_elem_of_cons. rewrite Hframe by done.
        autorewrite with pass. by rewrite !decide_False.
      * match goal with |- context [halt_loop ids ?s] => destruct (IH s) as (rs' & -> & Hframe) end.
        { intros id' Hid'. destruct (Hall id') as (c' & ? & ?); [by right|].
          exists c'. split; [done|]. autorewrite with pass.
          rewrite !decide_False by (by intros ->). done. }
        simpl. destruct (halt_outcomes _ _ _ w1) as [outs w2].
        eexists. split; [by rewrite <- app_assoc|].
        intros id' [? ?]%not_elem_of_cons. rewrite Hframe by done.
        autorewrite with pass. by rewrite !decide_False.
    + simpl. destruct (IH st) as (rs' & -> & Hframe).
      { intros id' Hid'. apply Hall. by right. }
      eexists. split; [done|]. intros id' [? ?]%not_elem_of_cons. by apply Hframe.
Qed.

End passes.

Lemma NoDup_reverse {A} (l : list A) : NoDup l → NoDup (reverse l).
Proof. by rewrite reverse_Permutation. Qed.

Lemma pos_reverse l x :
  NoDup l → x ∈ l → (pos (reverse l) x + pos l x + 1 = length l)%nat.
Proof.
  intros Hnd Hx. pose proof (pos_lt l x Hx) as Hlt.
  assert (reverse l !! (length l - S (pos l x))%nat = Some x) as Hrev.
  { rewrite reverse_lookup by lia.
    replace (length l - S (length l - S (pos l x)))%nat with (pos l x) by lia.
    by apply pos_lookup. }
  apply pos_NoDup in Hrev; [lia|]. by apply NoDup_reverse.
Qed.

(** A filter keeps the relative positions of what it keeps. *)
Lemma pos_filter_lt (P : string → Prop) `{!∀ x, Decision (P x)} l x y :
  NoDup l → x ∈ filter P l → y ∈ filter P l →
  (pos l x < pos l y)%nat → (pos (filter P l) x < pos (filter P l) y)%nat.
Proof.
  intros Hnd Hx Hy Hlt.
  destruct (Nat.lt_trichotomy (pos (filter P l) x) (pos (filter P l) y)) as [?|[Heq|Hgt]];
    [done|..].
  - apply pos_inj in Heq; [subst; lia | done].
  - apply pos_filter_mono in Hgt; [lia|done..].
Qed.

Section halt.
Context {W : Type}.
Implicit Types (cfg : obj (ResourceConfig W)) (st : PassState W).






Lemma haltSystem_run cfg started (w : W) order :
  NoDup (keys cfg) →
  topologicalSort (halt_resources cfg started) = Returns order →
  let to_halt := filter (λ id, truthy (instance_of started id) = true) (reverse order) in
  haltSystem cfg started w
  = (Returns {| halt_errors :=
                  record_thrown [] (halt_outcomes cfg (instance_of started) to_halt w).1 |},
     (λ id, HaltCalled id (instance_of started id)) <$> to_halt,
     (halt_outcomes cfg (instance_of started) to_halt w).2).
Proof.
  intros Hnd Hsort. cbv zeta. unfold haltSystem. rewrite Hsort.
  assert (NoDup (keys (halt_resources cfg started))) as Hndr.
  { by rewrite halt_resources_spec, keys_runtime_entry. }
  destruct (topologicalSort_Returns _ Hndr order Hsort) as (Hndo & Hperm & _).
  destruct (halt_loop_run cfg (instance_of started) (reverse order)
              (initial_state (halt_resources cfg started) w)) as (rs' & -> & _).
  - by apply NoDup_reverse.
  - intros id Hid. rewrite elem_of_reverse, Hperm in Hid.
    rewrite halt_resources_spec, keys_runtime_entry in Hid by done.
    apply get_is_Some in Hid as [c Hc]. exists c. split; [done|]. simpl.
    by rewrite halt_resources_spec, get_runtime_entry, Hc.
  - done.
Qed.

End halt.

(** ** buildTopology *)

(** [Math.max] over integers is an integer: an upper bound that is attained. *)
Lemma Math_max_Int (x : option num) (xs : list (option num)) :
  (∀ y, y ∈ x :: xs → ∃ z, y = Some (Int z)) →
  ∃ m, Math_max x xs = Int m
     ∧ (∀ z, Some (Int z) ∈ x :: xs → z ≤ m)
     ∧ Some (Int m) ∈ x :: xs.
Proof.
  revert x. induction xs as [|y ys IH]; intros x Hall.
  - destruct (Hall x) as [z ->]; [left|]. exists z. simpl. split_and!; [done| |left].
    intros z' [[= ->]|?%elem_of_nil]%elem_of_cons; [lia|done].
  - destruct (Hall x) as [z ->]; [left|].
    destruct (IH y) as (m & Hm & Hub & Hin); [intros ??; apply Hall; by right|].
    simpl. rewrite Hm. exists (Z.max z m). split_and!; [done| |].
    + intros z' [[= ->]|Hz']%elem_of_cons; [lia|]. apply Hub in Hz'. lia.
    + destruct (Z.max_spec z m) as [[_ ->]|[_ ->]]; [by right | left].
Qed.

Section topology.
Context {W : Type}.
Implicit Types (resources : obj (Resource W)).

Lemma forward_graph_spec (entries : list (string * Resource W)) (g : obj (list string)) :
  NoDup (keys entries) → (∀ id, id ∈ keys entries → id ∉ keys g) →
  (∀ id r, (id, r) ∈ entries → iterate (dependencies (config r)) = Returns (declared r)) →
  forward_graph entries g = Returns (g ++ ((λ e, (e.1, declared e.2)) <$> entries)).
Proof.
  unfold keys. revert g. induction entries as [|[id r] entries IH]; intros g Hnd Hfresh Harr; csimpl.
  - by rewrite app_nil_r.
  - apply NoDup_cons in Hnd as [Hid Hnd].
    rewrite (Harr id r) by left. simpl.
    rewrite IH; [|done| |].
    + rewrite set_notin by (apply Hfresh; left). by rewrite <- app_assoc.
    + intros id' Hid'. rewrite set_notin by (apply Hfresh; left).
      unfold keys. rewrite fmap_app, not_elem_of_app. split.
      * apply Hfresh. by right.
      * simpl. rewrite list_elem_of_singleton. by intros ->.
    + intros id' r' ?. apply (Harr id' r'). by right.
Qed.

Lemma init_dependents_keys ids (d : obj (list string)) :
  ∀ k, k ∈ keys (init_dependents ids d) ↔ k ∈ keys d ∨ k ∈ ids.
Proof.
  revert d. induction ids as [|id ids IH]; intros d k; simpl.
  - rewrite elem_of_nil. naive_solver.
  - rewrite IH, elem_of_cons. destruct (decide (id ∈ keys d)).
    + rewrite keys_set_in by done. naive_solver.
    + rewrite keys_set_notin, elem_of_app, list_elem_of_singleton by done. naive_solver.
Qed.

Lemma push_dependents_Returns id deps (d : obj (list string)) :
  (∀ dep, dep ∈ deps → dep ∈ keys d) →
  ∃ d', push_dependents id deps d = Returns d' ∧ keys d' = keys d.
Proof.
  revert d. induction deps as [|dep deps IH]; intros d Hall; simpl; [by exists d|].
  assert (is_Some (get d dep)) as [ds Hds] by (apply get_is_Some, Hall; left).
  rewrite Hds. destruct (IH (set d dep (ds ++ [id]))) as (d' & -> & Hk).
  - intros ??. rewrite keys_set_in by (apply Hall; left). apply Hall. by right.
  - exists d'. split; [done|]. rewrite Hk. apply keys_set_in, Hall. left.
Qed.

Lemma reverse_graph_Returns (entries : list (string * list string)) (d : obj (list string)) :
  (∀ id deps dep, (id, deps) ∈ entries → dep ∈ deps → dep ∈ keys d) →
  ∃ d', reverse_graph entries d = Returns d' ∧ keys d' = keys d.
Proof.
  revert d. induction entries as [|[id deps] entries IH]; intros d Hall; simpl; [by exists d|].
  destruct (push_dependents_Returns id deps d) as (d1 & -> & Hk1).
  { intros dep. apply (Hall id deps). left. }
  simpl. destruct (IH d1) as (d' & -> & Hk).
  - intros ?????. rewrite Hk1. eapply Hall; [by right|done].
  - exists d'. split; [done | congruence].
Qed.

Lemma compute_depths_spec order (graph : obj (list string)) (D : obj num) :
  NoDup (keys D ++ order) →
  (∀ l1 id l2, order = l1 ++ id :: l2 →
     ∃ deps, get graph id = Some deps ∧ ∀ dep, dep ∈ deps → dep ∈ keys D ++ l1) →
  (∀ id, id ∈ keys D → ∃ z, get D id = Some (Int z) ∧ 0 ≤ z) →
  ∃ D', compute_depths order graph D = Returns D'
    ∧ keys D' = keys D ++ order
    ∧ (∀ id, id ∈ keys D → get D' id = get D id)
    ∧ (∀ id, id ∈ keys D' → ∃ z, get D' id = Some (Int z) ∧ 0 ≤ z)
    ∧ (∀ id, id ∈ order → depth_ok graph D' id).
Proof.
  revert D. induction order as [|id order IH]; intros D Hnd Hdeps Hint.
  - exists D. simpl. rewrite app_nil_r. split_and!; try done. by intros ? ?%elem_of_nil.
  - destruct (Hdeps [] id order eq_refl) as (deps & Hg & Hin). rewrite app_nil_r in Hin.
    assert (id ∉ keys D) as Hfresh.
    { apply NoDup_app in Hnd as (_ & Hdisj & _). intros ?. eapply Hdisj; [done|left]. }
    assert (∃ z, 0 ≤ z
      ∧ compute_depths (id :: order) graph D = compute_depths order graph (set D id (Int z))
      ∧ (deps = [] → z = 0)
      ∧ (deps ≠ [] →
           (∀ dep, dep ∈ deps → ∃ zd, get D dep = Some (Int zd) ∧ zd + 1 ≤ z)
           ∧ (∃ dep, dep ∈ deps ∧ get D dep = Some (Int (z - 1))))) as (z & Hz & -> & Hz0 & Hzmax).
    { simpl. rewrite Hg. destruct deps as [|dep deps]; [by exists 0|].
      destruct (Math_max_Int (get D dep) (get D <$> deps)) as (m & Hm & Hub & Hatt).
      { intros y Hy. change (y ∈ get D <$> dep :: deps) in Hy.
        apply list_elem_of_fmap in Hy as (d & -> & Hd).
        destruct (Hint d (Hin d Hd)) as (zd & ? & _). by exists zd. }
      change (Some (Int m) ∈ get D <$> dep :: deps) in Hatt.
      apply list_elem_of_fmap in Hatt as (d & Hdm & Hd).
      exists (m + 1). rewrite Hm. simpl. split_and!; [|done|done|].
      - destruct (Hint d (Hin d Hd)) as (zd & Hzd & ?). assert (zd = m) by congruence. lia.
      - intros _. split.
        + intros d' Hd'. destruct (Hint d' (Hin d' Hd')) as (zd & Hzd & _).
          exists zd. split; [done|]. enough (zd ≤ m) by lia. apply Hub.
          change (Some (Int zd) ∈ get D <$> dep :: deps). rewrite <- Hzd.
          by apply list_elem_of_fmap_2.
        + exists d. split; [done|]. rewrite <- Hdm. do 2 f_equal. lia. }
    assert (keys (set D id (Int z)) = keys D ++ [id]) as Hk1 by (by apply keys_set_notin).
    destruct (IH (set D id (Int z))) as (D' & -> & Hk' & Hpres & Hint' & Hok).
    + rewrite Hk1, <- app_assoc. done.
    + intros l1 id' l2 ->. destruct (Hdeps (id :: l1) id' l2 eq_refl) as (deps' & ? & Hin').
      exists deps'. split; [done|]. intros dep Hdep. rewrite Hk1, <- app_assoc. by apply Hin'.
    + intros id'. rewrite Hk1, elem_of_app, list_elem_of_singleton. intros [Hid'| ->].
      * rewrite get_set_ne by (by intros ->). by apply Hint.
      * exists z. by rewrite get_set_eq.
    + assert (∀ k, k ∈ keys D → get D' k = get D k) as Hpres'.
      { intros k Hk. rewrite Hpres by (rewrite Hk1; set_solver).
        apply get_set_ne. by intros ->. }
      exists D'. split_and!; [done| |done|done|].
      * rewrite Hk', Hk1, <- app_assoc. done.
      * intros id' [->|?]%elem_of_cons; [|by apply Hok].
        exists deps, z. rewrite Hpres by (rewrite Hk1; set_solver). rewrite get_set_eq.
        split_and!; [done..|]. intros Hne. destruct (Hzmax Hne) as [Hub (d & Hd & Hdz)].
        split.
        -- intros dep Hdep. destruct (Hub dep Hdep) as (zd & ? & ?).
           exists zd. by rewrite Hpres' by auto.
        -- exists d. by rewrite Hpres' by auto.
Qed.

End topology.

Section topology.
Context {W : Type}.
Implicit Types (resources : obj (Resource W)).

Lemma get_forward_graph resources id :
  get ((λ e : string * Resource W, (e.1, declared e.2)) <$> resources) id
  = Some (deps_of resources id) ↔ id ∈ keys resources.
Proof.
  unfold deps_of, keys. induction resources as [|[id' r] resources IH]; csimpl.
  - split; [done | by intros ?%elem_of_nil].
  - destruct (decide (id = id')) as [->|?].
    + split; [intros _; left | done].
    + rewrite IH, elem_of_cons. naive_solver.
Qed.

Lemma pos_before l1 x l2 d :
  NoDup (l1 ++ x :: l2) → (pos (l1 ++ x :: l2) d < pos (l1 ++ x :: l2) x)%nat → d ∈ l1.
Proof.
  intros Hnd Hlt. destruct (decide (d ∈ l1)) as [|Hd]; [done|].
  assert (x ∉ l1) as Hx.
  { apply NoDup_app in Hnd as (_ & Hdisj & _). intros ?. eapply Hdisj; [done|left]. }
  rewrite !pos_app_r in Hlt by done. simpl in Hlt.
  destruct (decide (x = x)); [lia|done].
Qed.

(** The whole of [buildTopology] on a valid order. *)
Lemma buildTopology_run resources order :
  NoDup (keys resources) → array_deps resources → dependencies_exist resources →
  order ≡ₚ keys resources →
  (∀ id dep, depends_on resources id dep → (pos order dep < pos order id)%nat) →
  ∃ t (depth : string → Z) (m : Z),
    buildTopology resources order = Returns t
    ∧ startupOrder t = order
    ∧ shutdownOrder t = reverse order
    ∧ depths t = (λ id, (id, Int (depth id))) <$> order
    ∧ (∀ id, id ∈ keys resources →
         0 ≤ depth id
         ∧ (deps_of resources id = [] → depth id = 0)
         ∧ (deps_of resources id ≠ [] →
              (∀ dep, depends_on resources id dep → depth dep + 1 ≤ depth id)
              ∧ (∃ dep, depends_on resources id dep ∧ depth id = depth dep + 1)))
    ∧ maxDepth t = Int m
    ∧ (∀ id, id ∈ keys resources → depth id ≤ m)
    ∧ (if decide (order = []) then m = 0 else ∃ id, id ∈ order ∧ depth id = m)
    ∧ layers t
      = (λ k, {| layer_depth := k;
                 layer_resources :=
                   (λ id, {| node_id := id;
                             node_dependencies := deps_of resources id;
                             node_dependents := default [] (get (dependents t) id);
                             node_depth := k |})
                     <$> filter (λ id, depth id = k) (own_order order) |})
          <$> seqZ 0 (m + 1).
Proof.
  intros Hnd Harr Hex Hperm Hord.
  assert (NoDup order) as Hndo by (by rewrite Hperm).
  unfold buildTopology.
  rewrite forward_graph_spec; [|done|intros ? _; apply not_elem_of_nil|done].
  simpl. set (G := (λ e : string * Resource W, (e.1, declared e.2)) <$> resources).
  destruct (reverse_graph_Returns G (init_dependents (keys resources) [])) as (rev & -> & _).
  { intros id deps dep (e & [= -> ->] & He)%list_elem_of_fmap Hdep.
    apply init_dependents_keys. right. apply (Hex e.1).
    destruct e as [id r]. by apply (depends_on_entry _ Hnd id r). }
  simpl.
  destruct (compute_depths_spec order G []) as (D & -> & HkD & _ & HintD & Hok).
  { done. }
  { intros l1 id l2 ->. exists (deps_of resources id). split.
    - apply get_forward_graph. rewrite <- Hperm. set_solver.
    - intros dep Hdep. simpl. eapply pos_before; [done|]. by apply Hord. }
  { by intros ? ?%elem_of_nil. }
  simpl in HkD. simpl.
  set (depth := λ id, match get D id with Some (Int z) => z | _ => 0 end).
  assert (∀ id, id ∈ order → get D id = Some (Int (depth id)) ∧ 0 ≤ depth id) as Hdepth.
  { intros id Hid. destruct (HintD id) as (z & Hz & ?); [by rewrite HkD|].
    unfold depth. by rewrite Hz. }
  assert (D = (λ id, (id, Int (depth id))) <$> order) as HD.
  { rewrite <- HkD. apply obj_eq_fmap; [by rewrite HkD|].
    intros k Hk. apply Hdepth. by rewrite <- HkD. }
  assert (∃ m, max_depth D = Int m
    ∧ (∀ id, id ∈ order → depth id ≤ m)
    ∧ (if decide (order = []) then m = 0 else ∃ id, id ∈ order ∧ depth id = m))
    as (m & Hm & Hub & Hatt).
  { unfold max_depth, values. rewrite HD. rewrite <- list_fmap_compose.
    destruct order as [|id0 order'] eqn:Horder.
    { exists 0. split_and!; [done| |done]. by intros ? ?%elem_of_nil. }
    csimpl.
    destruct (Math_max_Int (Some (Int (depth id0)))
                (Some <$> ((snd ∘ (λ id, (id, Int (depth id)))) <$> order')))
      as (m & -> & Hub & Hatt).
    { intros y [->|Hy]%elem_of_cons; [by eexists|].
      apply list_elem_of_fmap in Hy as (n & -> & Hn).
      apply list_elem_of_fmap in Hn as (id & -> & _). by eexists. }
    exists m. split_and!; [done| |].
    - intros id Hid. apply Hub. apply elem_of_cons in Hid as [->|Hid]; [left|right].
      apply list_elem_of_fmap. exists (Int (depth id)). split; [done|].
      apply list_elem_of_fmap. by exists id.
    - apply elem_of_cons in Hatt as [[= Heq]|Hatt]; [exists id0; split; [left|done]|].
      apply list_elem_of_fmap in Hatt as (n & [= Heq] & Hn). subst n.
      apply list_elem_of_fmap in Hn as (id & [= Heq] & ?). exists id. split; [by right|done]. }
  eexists _, depth, m. split; [done|]. simpl. split_and!; try done.
  - intros id Hid. rewrite <- Hperm in Hid.
    destruct (Hok id Hid) as (deps & z & Hg & Hz & Hz0 & Hnil & Hmax).
    assert (deps = deps_of resources id) as ->.
    { assert (id ∈ keys resources) as Hk by (by rewrite <- Hperm).
      apply get_forward_graph in Hk. unfold G in Hg. congruence. }
    destruct (Hdepth id Hid) as [Hd ?]. assert (z = depth id) as -> by congruence.
    split_and!; [done..|]. intros Hne. destruct (Hmax Hne) as [Hall (dep & Hdep & Hdz)].
    split.
    + intros dep' Hdep'. destruct (Hall dep' Hdep') as (zd & Hzd & ?).
      unfold depth at 1. by rewrite Hzd.
    + exists dep. split; [done|]. unfold depth at 2. rewrite Hdz. lia.
  - intros id Hid. apply Hub. by rewrite Hperm.
  - unfold build_layers. rewrite Hm. apply list_fmap_ext. intros _ k _. f_equal.
    unfold resources_at. rewrite HD, entries_fmap.
    rewrite (filter_fmap_pair (λ e : string * num, e.2 = Int k)), <- list_fmap_compose. simpl.
    rewrite (list_filter_iff _ (λ id, depth id = k)) by (intros ?; naive_solver).
    apply list_fmap_ext. intros _ id Hid%list_elem_of_lookup_2.
    apply list_elem_of_filter in Hid as [_ Hid]. rewrite elem_of_own_order in Hid.
    simpl. f_equal.
    assert (id ∈ keys resources) as Hk by (by rewrite <- Hperm).
    apply get_forward_graph in Hk. unfold G. by rewrite Hk.
Qed.

End topology.

(** ** The start loop *)

Section start.
Context {W : Type}.
Implicit Types (cfg : obj (ResourceConfig W)) (st : PassState W) (r : Resource W).

Lemma keys_modify_resource id f st :
  keys (st_resources (modify_resource id f st)) = keys (st_resources st).
Proof.
  unfold modify_resource. simpl. destruct (get (st_resources st) id) eqn:Hg; [|done].
  apply keys_set_in, get_is_Some. by eexists.
Qed.

Lemma invoked_frame id ev w st st0 :
  event_id ev = id → start_frame id st0 st → start_frame id st0 (invoked ev w st).
Proof.
  intros Hid (Hk & Hother & evs & Hev & Hevs). split_and!; [done..|].
  exists (evs ++ [ev]). simpl. rewrite Hev, <- app_assoc. split; [done|].
  intros ev' [?|Hev'%list_elem_of_singleton]%elem_of_app; [auto | by subst].
Qed.

Lemma modify_resource_frame id f st st0 :
  start_frame id st0 st → start_frame id st0 (modify_resource id f st).
Proof.
  intros (Hk & Hother & Hev). split_and!; [by rewrite keys_modify_resource| |done].
  intros id' Hne. destruct (Hother id' Hne) as (? & ? & ?).
  rewrite get_modify_resource, decide_False by done. done.
Qed.

Lemma set_started_frame id v st st0 :
  start_frame id st0 st → start_frame id st0 (set_started id v st).
Proof.
  intros (Hk & Hother & Hev). split_and!; [done| |done].
  intros id' Hne. destruct (Hother id' Hne) as (? & ? & ?). simpl.
  by rewrite get_set_ne.
Qed.

Lemma set_errors_frame id e st st0 :
  start_frame id st0 st → start_frame id st0 (set_errors id e st).
Proof.
  intros (Hk & Hother & Hev). split_and!; [done| |done].
  intros id' Hne. destruct (Hother id' Hne) as (? & ? & ?). simpl.
  by rewrite get_set_ne.
Qed.

Lemma start_failed_frame id err st st0 :
  start_frame id st0 st → start_frame id st0 (start_failed id err st).
Proof.
  intros Hf. by apply set_started_frame, set_errors_frame, modify_resource_frame.
Qed.

Lemma start_frame_refl id st : start_frame id st st.
Proof.
  split_and!; [done..|]. exists []. rewrite app_nil_r. split; [done|]. by intros ? ?%elem_of_nil.
Qed.

Lemma run_assert_frame id r deps st st0 :
  start_frame id st0 st → start_frame id st0 (run_assert id r deps st).2.
Proof.
  intros Hf. unfold run_assert. destruct (assert (config r)) as [check|]; [|done].
  destruct (check deps (st_world st)) as [o w]. simpl. by apply invoked_frame.
Qed.

(** An iteration returns, and touches the entries of its own id only. *)
Lemma start_one_frame id st :
  id ∈ keys (st_resources st) →
  ∃ st', start_one id st = (Returns (), st') ∧ start_frame id st st'.
Proof.
  intros [r Hr]%get_is_Some. unfold start_one. rewrite Hr.
  set (st1 := modify_resource id (λ r0, set_status r0 Starting) st).
  assert (start_frame id st st1) as Hf1 by apply modify_resource_frame, start_frame_refl.
  destruct (resolveDependencies r (st_started st1)) as [deps|e].
  2:{ eexists. split; [done|]. by apply start_failed_frame. }
  pose proof (run_assert_frame id r deps st1 st Hf1) as Hf2.
  destruct (run_assert id r deps st1) as [errorDetected st2]. simpl in Hf2.
  destruct (truthy errorDetected).
  { eexists. split; [done|]. by apply start_failed_frame. }
  destruct (start (config r) deps (st_world st2)) as [[instance|e] w].
  - eexists. split; [done|].
    by apply set_started_frame, modify_resource_frame, invoked_frame.
  - eexists. split; [done|]. by apply start_failed_frame, invoked_frame.
Qed.

(** The start loop returns; an id it does not visit keeps its entries and
    sees none of its operations invoked. *)
Lemma start_loop_frame order st :
  (∀ id, id ∈ order → id ∈ keys (st_resources st)) →
  ∃ st', start_loop order st = (Returns (), st')
    ∧ keys (st_resources st') = keys (st_resources st)
    ∧ (∀ id, id ∉ order →
         get (st_resources st') id = get (st_resources st) id
         ∧ get (st_errors st') id = get (st_errors st) id
         ∧ get (st_started st') id = get (st_started st) id)
    ∧ ∃ evs, st_events st' = st_events st ++ evs ∧ ∀ ev, ev ∈ evs → event_id ev ∈ order.
Proof.
  revert st. induction order as [|id order IH]; intros st Hall; simpl.
  - exists st. split_and!; [done..|]. exists []. rewrite app_nil_r. split; [done|].
    by intros ? ?%elem_of_nil.
  - destruct (start_one_frame id st) as (st1 & -> & Hk1 & Hother1 & evs1 & Hev1 & Hevs1);
      [apply Hall; left|].
    destruct (IH st1) as (st' & -> & Hk & Hother & evs & Hev & Hevs).
    { intros ??. rewrite Hk1. apply Hall. by right. }
    exists st'. split_and!; [done|congruence| |].
    + intros id' [Hne Hnin]%not_elem_of_cons.
      destruct (Hother id' Hnin) as (-> & -> & ->). by apply Hother1.
    + exists (evs1 ++ evs). rewrite Hev, Hev1, <- app_assoc. split; [done|].
      intros ev [Hin|Hin]%elem_of_app; [rewrite (Hevs1 ev Hin); left | right; auto].
Qed.

End start.

Section start.
Context {W : Type}.
Implicit Types (cfg : obj (ResourceConfig W)) (st : PassState W) (r : Resource W).

(** A sort that throws ends the start pass there: nothing was invoked,
    the world is as it was, and no result is produced. *)
Lemma startSystem_sort_Throws cfg (w : W) e :
  topologicalSort (start_resources cfg) = Throws e →
  startSystem cfg w = (Throws e, [], w).
Proof. intros Hsort. unfold startSystem. by rewrite Hsort. Qed.


(** When its assertion throws a truthy value, a resource is marked
    failed with the wrapping error, its start operation is not invoked,
    and the loop goes on with the next id. *)
Lemma start_one_assert_Throws id st r check deps e w1 :
  get (st_resources st) id = Some r →
  assert (config r) = Some check →
  resolveDependencies r (st_started st) = Returns deps →
  check deps (st_world st) = (Throws e, w1) →
  truthy e = true →
  ∃ st',
    start_one id st = (Returns (), st')
    ∧ st_events st' = st_events st ++ [AssertCalled id deps]
    ∧ st_world st' = w1
    ∧ (_status <$> get (st_resources st') id) = Some Failed
    ∧ (_error <$> get (st_resources st') id)
      = Some (VError (invalid_dependencies_message id) e)
    ∧ get (st_errors st') id = Some (VError (invalid_dependencies_message id) e)
    ∧ get (st_started st') id = Some VUndefined.
Proof.
  intros Hr Hassert Hdeps Hcheck Htruthy. unfold start_one. rewrite Hr.
  change (st_started (modify_resource id (λ r0, set_status r0 Starting) st))
    with (st_started st).
  rewrite Hdeps. unfold run_assert. rewrite Hassert.
  change (st_world (modify_resource id (λ r0, set_status r0 Starting) st))
    with (st_world st).
  rewrite Hcheck, Htruthy. eexists. split; [done|].
  unfold start_failed. split_and!; [done|done| | | |].
  - rewrite st_resources_set_started, st_resources_set_errors, get_modify_resource.
    rewrite decide_True by done. rewrite st_resources_invoked, get_modify_resource.
    rewrite decide_True by done. by rewrite Hr.
  - rewrite st_resources_set_started, st_resources_set_errors, get_modify_resource.
    rewrite decide_True by done. rewrite st_resources_invoked, get_modify_resource.
    rewrite decide_True by done. by rewrite Hr.
  - simpl. apply get_set_eq.
  - simpl. apply get_set_eq.
Qed.

End start.

(** ** Valid configurations *)

Section final.
Context {W : Type}.
Implicit Types (cfg : obj (ResourceConfig W)) (resources : obj (Resource W)).

Lemma keys_start_resources cfg : NoDup (keys cfg) → keys (start_resources cfg) = keys cfg.
Proof. intros ?. by rewrite start_resources_spec, keys_runtime_entry. Qed.

Lemma tc_depends_on_pos resources order a b :
  (∀ id dep, depends_on resources id dep → (pos order dep < pos order id)%nat) →
  tc (depends_on resources) b a → (pos order a < pos order b)%nat.
Proof.
  intros Hord. induction 1 as [x y Hxy|x y z Hxy _ IH].
  - by apply Hord.
  - apply Hord in Hxy. lia.
Qed.

Lemma ranked_acyclic resources order :
  (∀ id dep, depends_on resources id dep → (pos order dep < pos order id)%nat) →
  acyclic resources.
Proof. intros Hord id Hcyc. apply (tc_depends_on_pos _ order) in Hcyc; [lia|done]. Qed.

Lemma check_config_sound cfg order : check_config cfg order = true → valid_config cfg.
Proof.
  unfold check_config. intros [Hnd Hall]%andb_true_iff.
  apply bool_decide_eq_true in Hnd. rewrite forallb_forall in Hall.
  assert (∀ id r, (id, r) ∈ start_resources cfg →
            ∃ c, (id, c) ∈ cfg ∧ config r = c) as Hentry.
  { intros id r. rewrite start_resources_spec by done.
    intros ([id' c] & [= -> ->] & Hin)%list_elem_of_fmap. by exists c. }
  assert (∀ id dep, depends_on (start_resources cfg) id dep →
            dep ∈ keys cfg ∧ (pos order dep < pos order id)%nat) as Hdep.
  { intros id dep Hd. unfold depends_on, deps_of in Hd.
    destruct (get (start_resources cfg) id) as [r|] eqn:Hr; [|by apply elem_of_nil in Hd].
    apply get_Some_elem_of, Hentry in Hr as (c & Hin & Hc).
    apply list_elem_of_In, Hall in Hin. unfold declared in Hd. rewrite Hc in Hd. simpl in Hin.
    destruct (dependencies c) as [[ids|??]|]; [|done|by apply elem_of_nil in Hd].
    rewrite forallb_forall in Hin. apply list_elem_of_In, Hin in Hd.
    apply andb_true_iff in Hd as [?%bool_decide_eq_true ?%bool_decide_eq_true]. done. }
  split_and!; [done| | |].
  - intros id r (c & Hin & Hc)%Hentry. apply list_elem_of_In, Hall in Hin.
    unfold declared. rewrite Hc. simpl in Hin. by destruct (dependencies c) as [[ids|??]|].
  - intros id dep Hd. rewrite keys_start_resources by done. by destruct (Hdep id dep Hd).
  - apply (ranked_acyclic _ order). intros id dep Hd. by destruct (Hdep id dep Hd).
Qed.

Lemma array_deps_intro cfg :
  NoDup (keys cfg) →
  forallb (λ e : string * ResourceConfig W,
             match dependencies e.2 with Some (DepsObject _ _) => false | _ => true end) cfg
  = true →
  array_deps (start_resources cfg).
Proof.
  intros Hnd Hall id r. rewrite forallb_forall in Hall.
  rewrite start_resources_spec by done.
  intros ([id' c] & [= -> ->] & Hin)%list_elem_of_fmap.
  apply list_elem_of_In, Hall in Hin. unfold declared. simpl in *.
  by destruct (dependencies c) as [[ids|??]|].
Qed.


Lemma valid_config_sorted cfg :
  valid_config cfg →
  ∃ order,
    topologicalSort (start_resources cfg) = Returns order
    ∧ NoDup order
    ∧ order ≡ₚ keys cfg
    ∧ (∀ id dep, depends_on (start_resources cfg) id dep →
         (pos order dep < pos order id)%nat).
Proof.
  intros (Hnd & Harr & Hex & Hac).
  assert (NoDup (keys (start_resources cfg))) as Hndr by (by rewrite keys_start_resources).
  destruct (topologicalSort_acyclic _ Hndr Harr Hex Hac) as (order & Hsort & _).
  exists order. destruct (topologicalSort_Returns _ Hndr order Hsort) as (? & Hperm & ? & _).
  rewrite keys_start_resources in Hperm by done. done.
Qed.

End final.

(** ** The claims *)


Section claims.
Context {W : Type}.
Implicit Types (cfg : obj (ResourceConfig W)) (resources : obj (Resource W)).

Lemma topologicalSort_halt_valid cfg started :
  valid_config cfg →
  ∃ order,
    topologicalSort (halt_resources cfg started) = Returns order
    ∧ topologicalSort (start_resources cfg) = Returns order
    ∧ NoDup order
    ∧ order ≡ₚ keys cfg
    ∧ (∀ id dep, depends_on (start_resources cfg) id dep →
         (pos order dep < pos order id)%nat).
Proof.
  intros Hvalid. destruct (valid_config_sorted cfg Hvalid) as (order & Hsort & ? & ? & ?).
  exists order. rewrite topologicalSort_halt_start by apply Hvalid. done.
Qed.

Lemma shutdownOrder_reverse resources order t :
  buildTopology resources order = Returns t →
  startupOrder t = order ∧ shutdownOrder t = reverse (startupOrder t).
Proof.
  unfold buildTopology.
  destruct (forward_graph resources []) as [g|]; simpl; [|done].
  destruct (reverse_graph g _) as [d|]; simpl; [|done].
  destruct (compute_depths order g []) as [D|]; simpl; [|done].
  by intros [= <-].
Qed.

(** C7. The shutdown order is the reverse of the startup order: whenever
    [buildTopology] returns, its [shutdownOrder] is its [startupOrder]
    reversed; and a halt pass over a valid configuration invokes the halt
    operations along the reverse of the order the sorter computes (for the
    ids whose instance is truthy), one after the other, so that the halt
    of a resource comes before the halt of every resource it depends on,
    directly or transitively. *)
Theorem shutdown_reverses_startup cfg started (w : W) :
  valid_config cfg →
  (∀ resources order t, buildTopology resources order = Returns t →
     shutdownOrder t = reverse (startupOrder t))
  ∧ ∃ order t errs evs w',
      topologicalSort (start_resources cfg) = Returns order
      ∧ buildTopology (start_resources cfg) order = Returns t
      ∧ startupOrder t = order
      ∧ shutdownOrder t = reverse order
      ∧ haltSystem cfg started w = (Returns {| halt_errors := errs |}, evs, w')
      ∧ evs = (λ id, HaltCalled id (instance_of started id))
                <$> filter (λ id, truthy (instance_of started id) = true) (shutdownOrder t)
      ∧ (∀ a b i j va vb,
           tc (depends_on (start_resources cfg)) b a →
           evs !! i = Some (HaltCalled b vb) → evs !! j = Some (HaltCalled a va) →
           (i < j)%nat).
Proof.
  intros Hvalid. split; [intros ??? H; by apply shutdownOrder_reverse in H as [-> ->]|].
  destruct (topologicalSort_halt_valid cfg started Hvalid)
    as (order & Hhalt & Hstart & Hndo & Hperm & Hord).
  destruct Hvalid as (Hnd & Harr & Hex & Hac).
  destruct (buildTopology_run (start_resources cfg) order)
    as (t & depth & m & Ht & Hs & Hsh & _); [by rewrite keys_start_resources|done..| |done|].
  { by rewrite keys_start_resources. }
  eexists order, t, _, _, _. split_and!; [done..|by apply haltSystem_run|by rewrite Hsh|].
  intros a b i j va vb Hba Hi Hj.
  set (to_halt := filter (λ id, truthy (instance_of started id) = true) (reverse order)) in *.
  assert (NoDup to_halt) as Hndh by (by apply NoDup_filter, NoDup_reverse).
  rewrite list_lookup_fmap in Hi, Hj.
  destruct (to_halt !! i) as [b'|] eqn:Hbi; [|done]. injection Hi as Hb' _. subst b'.
  destruct (to_halt !! j) as [a'|] eqn:Hai; [|done]. injection Hj as Ha' _. subst a'.
  rewrite <- (pos_NoDup _ _ _ Hndh Hbi), <- (pos_NoDup _ _ _ Hndh Hai).
  apply list_elem_of_lookup_2 in Hbi as Hb, Hai as Ha.
  apply pos_filter_lt; [by apply NoDup_reverse|done..|].
  apply list_elem_of_filter in Hb as [_ Hb], Ha as [_ Ha].
  rewrite elem_of_reverse in Hb, Ha.
  pose proof (pos_reverse order a Hndo Ha). pose proof (pos_reverse order b Hndo Hb).
  pose proof (tc_depends_on_pos _ order a b Hord Hba). lia.
Qed.




End claims.

(** ** The claims on the example systems *)

Lemma diamond_valid : valid_config diamond.
Proof. by apply (check_config_sound diamond ["config"; "cache"; "db"; "api"]). Qed.

Lemma diamond_resources_NoDup : NoDup (keys (start_resources diamond)).
Proof. rewrite keys_start_resources; apply diamond_valid. Qed.

Example diamond_sorted :
  topologicalSort (start_resources diamond) = Returns ["config"; "cache"; "db"; "api"].
Proof. reflexivity. Qed.

(** C1, on the code. Scenario B: the start of [a] throws, and the start
    loop still resolves the dependencies of [b] to [{ a: undefined }] and
    invokes the start of [b]: [b] is started with ["ran"], and only [a] has
    an error. The loop has no required-dependency check. *)
Theorem scenario_B_dependent_started :
  ∃ topology,
    startSystem scenario_B []
    = (Returns {| system := [("a", VUndefined); ("b", VStr "ran")];
                  errors := [("a", new_Error "x")];
                  topology := topology |},
       [StartCalled "a" []; StartCalled "b" [("a", VUndefined)]],
       ["start a"; "start b"]).
Proof. eexists. vm_compute. reflexivity. Qed.

(** C2, on the code. A declaration in the object form
    [{ required: ["a"] }] makes the start pass throw a [TypeError] from the
    sorter before anything is invoked, although [normalizeDependencies]
    gives it the [all] list [["a"]]: the sorter and the orchestrator
    iterate the declaration itself. *)
Theorem object_form_start_throws :
  startSystem object_form [] = (Throws VTypeError, [], [])
  ∧ all (normalizeDependencies (Some (DepsObject (Some ["a"]) None))) = ["a"].
Proof. split; reflexivity. Qed.

(** C8, on the code. An assertion that throws [undefined] is taken for
    one that passed: [if (errorDetected)] is false, so the start operation
    is invoked and the resource is started, with no error recorded. *)
Theorem falsy_assertion_error_starts :
  ∃ topology,
    startSystem falsy_assertion []
    = (Returns {| system := [("a", VStr "ran")]; errors := []; topology := topology |},
       [AssertCalled "a" []; StartCalled "a" []],
       ["assert a"; "start a"]).
Proof. eexists. vm_compute. reflexivity. Qed.

(** C4, on the code. A resource that declares the id [toString], which
    is no resource: the start pass throws before anything is invoked, but
    what it throws is a [TypeError], not the error that names the
    resource and the missing id. The sorter's [graph] is a plain object,
    so [graph["toString"]] is the function every object inherits; the
    check [!graph[depId]] lets it pass, and calling its [push] fails. *)
Theorem inherited_name_not_reported :
  depends_on (start_resources inherited_dependency) "a" "toString"
  ∧ ("toString" ∉ keys inherited_dependency)
  ∧ startSystem inherited_dependency [] = (Throws VTypeError, [], [])
  ∧ VTypeError ≠ new_Error (missing_dependency_message "a" "toString").
Proof.
  split_and!; [|compute_done|reflexivity|done].
  unfold depends_on. vm_compute. left.
Qed.



Section more.
Context {W : Type}.
Implicit Types (cfg : obj (ResourceConfig W)) (st : PassState W) (r : Resource W).

(** The whole of an assertion failure: the resource is marked failed,
    the error that wraps what the assertion threw is stored as its
    [_error] and under its id in [errors], [started] holds [undefined]
    for it, the pass goes on over the remaining ids and returns, and no
    start of the resource is ever invoked. *)
Lemma assertion_failure id post st r check deps e w1 :
  get (st_resources st) id = Some r →
  assert (config r) = Some check →
  resolveDependencies r (st_started st) = Returns deps →
  check deps (st_world st) = (Throws e, w1) →
  truthy e = true →
  id ∉ post → (∀ x, x ∈ post → x ∈ keys (st_resources st)) →
  ∃ st1 st2 evs,
    start_one id st = (Returns (), st1)
    ∧ start_loop (id :: post) st = start_loop post st1
    ∧ start_loop post st1 = (Returns (), st2)
    ∧ st_events st2 = st_events st ++ AssertCalled id deps :: evs
    ∧ (∀ ev, ev ∈ evs → event_id ev ≠ id)
    ∧ (_status <$> get (st_resources st2) id) = Some Failed
    ∧ (_error <$> get (st_resources st2) id)
      = Some (VError (invalid_dependencies_message id) e)
    ∧ get (st_errors st2) id = Some (VError (invalid_dependencies_message id) e)
    ∧ get (st_started st2) id = Some VUndefined.
Proof.
  intros Hr Hassert Hdeps Hcheck Htruthy Hpost Hkeys.
  destruct (start_one_assert_Throws id st r check deps e w1)
    as (st1 & Hone & Hev1 & _ & Hst & Herror & Herr & Hstarted); [done..|].
  destruct (start_one_frame id st) as (st1' & Hone' & Hk1 & _);
    [apply get_is_Some; by eexists|].
  assert (st1' = st1) as -> by congruence.
  destruct (start_loop_frame post st1) as (st2 & Hloop & _ & Hframe & evs & Hev2 & Hevs).
  { intros x Hx. rewrite Hk1. by apply Hkeys. }
  exists st1, st2, evs. destruct (Hframe id Hpost) as (Hres2 & Herr2 & Hstarted2).
  split_and!; [done| |done| | |congruence..].
  - simpl. by rewrite Hone.
  - by rewrite Hev2, Hev1, <- app_assoc.
  - intros ev Hin Heq. apply Hevs in Hin. congruence.
Qed.

End more.

Example diamond_halted :
  haltSystem diamond diamond_system []
  = (Returns {| halt_errors := [("db", new_Error "db is busy")] |},
     [HaltCalled "api" (VObj 4); HaltCalled "db" (VObj 3); HaltCalled "config" (VObj 1)],
     ["halt api"; "halt db"; "halt config"]).
Proof. reflexivity. Qed.

Lemma missing_dependency_hypotheses :
  NoDup (keys missing_dependency)
  ∧ array_deps (start_resources missing_dependency)
  ∧ ∃ id dep, depends_on (start_resources missing_dependency) id dep
              ∧ dep ∉ keys missing_dependency.
Proof.
  assert (NoDup (keys missing_dependency)) as Hnd by compute_done.
  split_and!; [done|by apply array_deps_intro|].
  exists "a", "zz". split; [|compute_done]. unfold depends_on. vm_compute. left.
Qed.


Lemma shutdown_reverses_startup_witness :
  ∃ order t errs evs w',
    topologicalSort (start_resources diamond) = Returns order
    ∧ buildTopology (start_resources diamond) order = Returns t
    ∧ shutdownOrder t = reverse order
    ∧ haltSystem diamond diamond_system [] = (Returns {| halt_errors := errs |}, evs, w')
    ∧ (∀ a b i j va vb,
         tc (depends_on (start_resources diamond)) b a →
         evs !! i = Some (HaltCalled b vb) → evs !! j = Some (HaltCalled a va) →
         (i < j)%nat).
Proof.
  destruct (shutdown_reverses_startup diamond diamond_system [] diamond_valid)
    as (_ & order & t & errs & evs & w' & ? & ? & ? & ? & ? & ? & ?).
  exists order, t, errs, evs, w'. split_and!; assumption.
Defined.



(** ** Further properties of the passes *)

(** The loop of the sorter terminates, whatever its state: after
    [kahn_bound] iterations the queue is empty (or the run has thrown),
    and more iterations change nothing. *)
Theorem sort_loop_terminates (graph : obj (list string)) (st : KahnState) (k : nat) :
  kahn_loop (kahn_bound st + k) graph st = kahn_loop (kahn_bound st) graph st
  ∧ match kahn_loop (kahn_bound st) graph st with
    | Returns st' => queue st' = []
    | Throws _ => True
    end.
Proof.
  split; [apply kahn_loop_fuel|].
  destruct (kahn_loop (kahn_bound st) graph st) as [st'|] eqn:Hrun; [|done].
  by eapply kahn_loop_exits.
Qed.

(** A start pass over a valid configuration returns: no failure of a
    resource ends it. Its topology is the one built from the sorted
    order, and only operations of declared resources are invoked. *)
Theorem start_pass_returns {W} (cfg : obj (ResourceConfig W)) (w : W) :
  valid_config cfg →
  ∃ order t st,
    topologicalSort (start_resources cfg) = Returns order
    ∧ buildTopology (start_resources cfg) order = Returns t
    ∧ startupOrder t = order
    ∧ start_loop order (initial_state (start_resources cfg) w) = (Returns (), st)
    ∧ startSystem cfg w
      = (Returns {| system := st_started st; errors := st_errors st; topology := t |},
         st_events st, st_world st)
    ∧ (∀ ev, ev ∈ st_events st → event_id ev ∈ keys cfg).
Proof.
  intros Hvalid.
  destruct (valid_config_sorted cfg Hvalid) as (order & Hsort & Hndo & Hperm & Hord).
  destruct Hvalid as (Hnd & Harr & Hex & Hac).
  destruct (buildTopology_run (start_resources cfg) order)
    as (t & depth & m & Ht & Hs & _); [by rewrite keys_start_resources|done..| |done|].
  { by rewrite keys_start_resources. }
  destruct (start_loop_frame order (initial_state (start_resources cfg) w))
    as (st & Hloop & _ & _ & evs & Hev & Hevs).
  { intros id Hid. simpl. rewrite keys_start_resources by done. by rewrite <- Hperm. }
  exists order, t, st. split_and!; [done..| |].
  - unfold startSystem. by rewrite Hsort, Ht, Hloop.
  - intros ev Hin. rewrite Hev in Hin. simpl in Hin. rewrite <- Hperm. by apply Hevs.
Qed.

Lemma start_pass_returns_witness :
  ∃ order t st,
    topologicalSort (start_resources diamond) = Returns order
    ∧ buildTopology (start_resources diamond) order = Returns t
    ∧ startSystem diamond []
      = (Returns {| system := st_started st; errors := st_errors st; topology := t |},
         st_events st, st_world st).
Proof.
  destruct (start_pass_returns diamond [] diamond_valid)
    as (order & t & st & ? & ? & _ & _ & ? & _).
  exists order, t, st. split_and!; assumption.
Defined.

Lemma assertion_failure_witness :
  ∃ st2 evs,
    start_loop ["a"; "b"] (initial_state (start_resources failing_assertion) [])
    = (Returns (), st2)
    ∧ st_events st2 = AssertCalled "a" [] :: evs
    ∧ (∀ ev, ev ∈ evs → event_id ev ≠ "a")
    ∧ (_status <$> get (st_resources st2) "a") = Some Failed
    ∧ (_error <$> get (st_resources st2) "a")
      = Some (VError (invalid_dependencies_message "a") (new_Error "not ready"))
    ∧ get (st_errors st2) "a"
      = Some (VError (invalid_dependencies_message "a") (new_Error "not ready"))
    ∧ get (st_started st2) "a" = Some VUndefined.
Proof.
  destruct (assertion_failure "a" ["b"]
              (initial_state (start_resources failing_assertion) [])
              {| config := asserting "a" (Throws (new_Error "not ready"))
                             (resource "a" None (Returns (VObj 1)) (Returns ()));
                 _status := Stopped; _instance := VUndefined; _error := VUndefined |}
              (λ _, note "assert a" (Throws (new_Error "not ready")))
              [] (new_Error "not ready") ["assert a"])
    as (st1 & st2 & evs & _ & Hloop & Hrest & Hev & Hevs & Hstatus & Herror & Herr & Hstarted);
    [reflexivity..|compute_done|intros x ->%list_elem_of_singleton; compute_done|].
  exists st2, evs. split_and!; [congruence|done..].
Defined.

(** ** The sorter: what it accepts, and the order it returns *)

Section sorter.
Context {W : Type}.
Implicit Types (cfg : obj (ResourceConfig W)) (resources : obj (Resource W)).

Lemma topologicalSort_Returns_valid resources order :
  NoDup (keys resources) →
  topologicalSort resources = Returns order →
  array_deps resources ∧ dependencies_exist resources ∧ acyclic resources.
Proof.
  intros Hnd Hsort.
  destruct (topologicalSort_Returns_inv resources Hnd order Hsort) as [Harr Hex].
  destruct (topologicalSort_Returns resources Hnd order Hsort) as (_ & _ & Hord & _).
  split_and!; [done..|]. by eapply ranked_acyclic.
Qed.

End sorter.



Lemma StronglySorted_filter_lookup {A} (R : relation A) (P : A → Prop)
    `{!∀ x, Decision (P x)} (l : list A) :
  (∀ p q x y, (p < q)%nat → l !! p = Some x → l !! q = Some y → P x → P y → R x y) →
  StronglySorted R (filter P l).
Proof.
  induction l as [|a l IH]; intros Hl; [constructor|].
  assert (StronglySorted R (filter P l)) as Hs.
  { apply IH. intros p q x y Hpq Hp Hq. apply (Hl (S p) (S q)); [lia|done..]. }
  rewrite filter_cons. destruct (decide (P a)) as [Ha|Ha]; [|done].
  constructor; [done|]. apply Forall_forall. intros y [Hy Hin]%list_elem_of_filter.
  apply list_elem_of_lookup in Hin as [i Hi].
  apply (Hl O (S i) a y); [lia|done..].
Qed.

Lemma filter_split_sorted {A} (P : A → Prop) `{!∀ x, Decision (P x)} (l : list A) :
  (∀ p q x y, (p < q)%nat → l !! p = Some x → l !! q = Some y → P y → P x) →
  l = filter P l ++ filter (λ x, ¬ P x) l.
Proof.
  induction l as [|a l IH]; intros Hl; [done|].
  assert (l = filter P l ++ filter (λ x, ¬ P x) l) as Hrec.
  { apply IH. intros p q x y Hpq Hp Hq. apply (Hl (S p) (S q)); [lia|done..]. }
  rewrite !filter_cons. destruct (decide (P a)) as [Ha|Ha].
  - rewrite decide_False by auto. simpl. by f_equal.
  - rewrite decide_True by done.
    assert (filter P l = []) as Hnone.
    { destruct (filter P l) as [|y ys] eqn:Hf; [done|]. exfalso.
      assert (y ∈ filter P l) as [Hy Hin]%list_elem_of_filter by (rewrite Hf; left).
      apply list_elem_of_lookup in Hin as [i Hi].
      apply Ha. apply (Hl O (S i) a y); [lia|done..]. }
    rewrite Hnone. simpl. f_equal. rewrite Hnone in Hrec. done.
Qed.

(** Resources without dependencies come first, in declaration order:
    whenever [topologicalSort] returns, its result starts with the ids that
    declare no dependency, in the order the configuration declares them,
    and every id after them declares at least one. *)
Theorem independent_resources_first {W} (resources : obj (Resource W)) (order : list string) :
  NoDup (keys resources) →
  topologicalSort resources = Returns order →
  ∃ rest,
    order = filter (λ id, deps_of resources id = []) (keys resources) ++ rest
    ∧ ∀ id, id ∈ rest → deps_of resources id ≠ [].
Proof.
  intros Hnd Hsort.
  destruct (topologicalSort_Returns resources Hnd order Hsort) as (Hndo & Hperm & Hord & Hlex).
  set (P := λ id, deps_of resources id = []).
  assert (∀ x, P x → ready_at resources order x = O) as Hroot.
  { intros x Hx. unfold ready_at. by rewrite Hx. }
  assert (∀ x, ¬ P x → (0 < ready_at resources order x)%nat) as Hinner.
  { intros x Hx. unfold ready_at, P in *.
    destruct (deps_of resources x) as [|d ds]; [done|]. simpl. lia. }
  exists (filter (λ x, ¬ P x) order). split.
  - rewrite (filter_split_sorted P order) at 1.
    2:{ intros p q x y Hpq Hp Hq Hy. destruct (decide (P x)) as [|Hx]; [done|].
        pose proof (Hlex p q x y Hpq Hp Hq) as Hl. unfold lexlt in Hl. simpl in Hl.
        rewrite (Hroot y Hy) in Hl. pose proof (Hinner x Hx). lia. }
    f_equal.
    apply (StronglySorted_unique_strong
             (λ x y, (pos (keys resources) x < pos (keys resources) y)%nat)).
    + intros ?? _ _ ??. lia.
    + apply StronglySorted_filter_lookup. intros p q x y Hpq Hp Hq Hx Hy.
      pose proof (Hlex p q x y Hpq Hp Hq) as Hl. unfold lexlt in Hl. simpl in Hl.
      rewrite (Hroot x Hx), (Hroot y Hy) in Hl. lia.
    + apply StronglySorted_filter_lookup. intros p q x y Hpq Hp Hq _ _.
      by rewrite (pos_NoDup _ p x Hnd Hp), (pos_NoDup _ q y Hnd Hq).
    + by rewrite Hperm.
  - by intros id [? _]%list_elem_of_filter.
Qed.

Lemma independent_resources_first_witness :
  ∃ rest, ["config"; "cache"; "db"; "api"] = ["config"] ++ rest
    ∧ ∀ id, id ∈ rest → deps_of (start_resources diamond) id ≠ [].
Proof.
  exact (independent_resources_first (start_resources diamond) _
           diamond_resources_NoDup diamond_sorted).
Defined.

Section order_laws.
Context {W : Type}.
Implicit Types (resources : obj (Resource W)).

Lemma ready_at_ext resources (o1 o2 : list string) x :
  (∀ dep, depends_on resources x dep → pos o1 dep = pos o2 dep) →
  ready_at resources o1 x = ready_at resources o2 x.
Proof.
  intros Hpos. unfold ready_at. f_equal. apply list_fmap_ext.
  intros _ dep Hdep%list_elem_of_lookup_2. by rewrite Hpos.
Qed.

Lemma sorted_order_unique_aux resources (o1 o2 p s1 s2 : list string) :
  sorted_order resources o1 → sorted_order resources o2 →
  o1 = p ++ s1 → o2 = p ++ s2 → s1 = s2.
Proof.
  intros (Hnd1 & Hp1 & Hd1 & Hl1) (Hnd2 & Hp2 & Hd2 & Hl2).
  revert p s2. induction s1 as [|x1 s1 IH]; intros p s2 Ho1 Ho2.
  { assert (length o1 = length o2) as Hlen by (by rewrite Hp1, Hp2).
    rewrite Ho1, Ho2, !length_app in Hlen. simpl in Hlen.
    destruct s2; [done|simpl in Hlen; lia]. }
  destruct s2 as [|x2 s2].
  { assert (length o1 = length o2) as Hlen by (by rewrite Hp1, Hp2).
    rewrite Ho1, Ho2, !length_app in Hlen. simpl in Hlen. lia. }
  assert (x1 = x2) as <-.
  { destruct (decide (x1 = x2)) as [|Hne]; [done|]. exfalso.
    assert (x1 ∉ p) as Hx1.
    { rewrite Ho1 in Hnd1. apply NoDup_app in Hnd1 as (_ & Hdisj & _).
      intros ?. eapply Hdisj; [done|left]. }
    assert (x2 ∉ p) as Hx2.
    { rewrite Ho2 in Hnd2. apply NoDup_app in Hnd2 as (_ & Hdisj & _).
      intros ?. eapply Hdisj; [done|left]. }
    assert (x1 ∈ o2) as Hin12 by (rewrite Hp2, <- Hp1, Ho1; set_solver).
    assert (x2 ∈ o1) as Hin21 by (rewrite Hp1, <- Hp2, Ho2; set_solver).
    assert (x1 ∈ s2) as Hs2 by (rewrite Ho2 in Hin12; set_solver).
    assert (x2 ∈ s1) as Hs1 by (rewrite Ho1 in Hin21; set_solver).
    apply list_elem_of_lookup in Hs2 as [j Hj]. apply list_elem_of_lookup in Hs1 as [i Hi].
    assert (o1 !! length p = Some x1) as Hn1 by (rewrite Ho1; by apply list_lookup_middle).
    assert (o2 !! length p = Some x2) as Hn2 by (rewrite Ho2; by apply list_lookup_middle).
    assert (o1 !! (length p + S i)%nat = Some x2) as Hi1.
    { rewrite Ho1, lookup_app_r by lia.
      replace (length p + S i - length p)%nat with (S i) by lia. done. }
    assert (o2 !! (length p + S j)%nat = Some x1) as Hj2.
    { rewrite Ho2, lookup_app_r by lia.
      replace (length p + S j - length p)%nat with (S j) by lia. done. }
    assert (∀ o s x, NoDup o → o = p ++ x :: s →
              (∀ dep, depends_on resources x dep → (pos o dep < pos o x)%nat) →
              ∀ dep, depends_on resources x dep → dep ∈ p) as Hbefore.
    { intros o s x Hnd -> Hdeps dep Hdep. eapply pos_before; [done|]. by apply Hdeps. }
    assert (∀ dep, depends_on resources x1 dep → dep ∈ p) as Hdp1.
    { eapply (Hbefore o1); [done..|]. intros ??. by apply Hd1. }
    assert (∀ dep, depends_on resources x2 dep → dep ∈ p) as Hdp2.
    { eapply (Hbefore o2); [done..|]. intros ??. by apply Hd2. }
    assert (ready_at resources o1 x1 = ready_at resources o2 x1) as Hr1.
    { apply ready_at_ext. intros dep Hdep%Hdp1. by rewrite Ho1, Ho2, !pos_app_l. }
    assert (ready_at resources o1 x2 = ready_at resources o2 x2) as Hr2.
    { apply ready_at_ext. intros dep Hdep%Hdp2. by rewrite Ho1, Ho2, !pos_app_l. }
    pose proof (Hl1 (length p) (length p + S i)%nat x1 x2 ltac:(lia) Hn1 Hi1) as Ha.
    pose proof (Hl2 (length p) (length p + S j)%nat x2 x1 ltac:(lia) Hn2 Hj2) as Hb.
    unfold lexlt in Ha, Hb. simpl in Ha, Hb. lia. }
  f_equal. apply (IH (p ++ [x1])); rewrite <- app_assoc; done.
Qed.

End order_laws.

(** The sorter is first in, first out: whenever [topologicalSort] returns,
    a resource that became ready earlier (its last dependency comes earlier
    in the order, or it has none) comes before one that became ready
    later. Together with the other laws of the order (a permutation with
    every dependency first, ties in declaration order) this determines the
    result: it is the only order that obeys them. *)
Theorem topologicalSort_fifo {W} (resources : obj (Resource W)) (order : list string) :
  NoDup (keys resources) →
  topologicalSort resources = Returns order →
  (∀ x y, x ∈ keys resources → y ∈ keys resources →
     (ready_at resources order x < ready_at resources order y)%nat →
     (pos order x < pos order y)%nat)
  ∧ sorted_order resources order
  ∧ (∀ order', sorted_order resources order' → order' = order).
Proof.
  intros Hnd Hsort.
  pose proof (topologicalSort_Returns resources Hnd order Hsort) as Hlaws.
  destruct Hlaws as (Hndo & Hperm & Hord & Hlex).
  split_and!.
  - intros x y Hx Hy Hready. rewrite <- Hperm in Hx, Hy.
    destruct (decide (pos order x < pos order y)%nat) as [|Hge]; [done|]. exfalso.
    assert (pos order x ≠ pos order y) as Hne.
    { intros Heq. apply pos_inj in Heq; [|done]. subst. lia. }
    pose proof (Hlex (pos order y) (pos order x) y x ltac:(lia)
                  (pos_lookup _ _ Hy) (pos_lookup _ _ Hx)) as Hl.
    unfold lexlt in Hl. simpl in Hl. lia.
  - done.
  - intros order' Hlaws'.
    apply (sorted_order_unique_aux resources order' order [] order' order); done.
Qed.

Lemma topologicalSort_fifo_witness :
  sorted_order (start_resources diamond) ["config"; "cache"; "db"; "api"]
  ∧ (∀ order', sorted_order (start_resources diamond) order' →
       order' = ["config"; "cache"; "db"; "api"]).
Proof.
  destruct (topologicalSort_fifo (start_resources diamond) _
              diamond_resources_NoDup diamond_sorted) as (_ & ? & ?).
  by split.
Defined.


Section first_missing.
Context {W : Type}.
Implicit Types (resources : obj (Resource W)).


End first_missing.



Section cycle.
Context {W : Type}.
Implicit Types (resources : obj (Resource W)).

Lemma resolvable_tc resources x y :
  resolvable resources y → tc (depends_on resources) y x → resolvable resources x.
Proof.
  intros Hy Htc. induction Htc as [y x Hdep|y z x Hdep _ IH].
  - destruct Hy as [y _ Hdeps]. by apply Hdeps.
  - apply IH. destruct Hy as [y _ Hdeps]. by apply Hdeps.
Qed.

Lemma tc_depends_on_key resources x y :
  tc (depends_on resources) x y → x ∈ keys resources.
Proof. intros Htc. destruct Htc as [x y Hd|x z y Hd _]; by apply (depends_on_key _ x _ Hd). Qed.

End cycle.

(** What the cycle error lists. For array declarations of existing ids
    with a dependency cycle, the sorter throws the error whose list of
    unprocessed resources is in declaration order and holds, besides the
    resources on a cycle, every resource that depends on a listed one,
    directly or transitively: such a resource is reported although it is
    on no cycle itself. *)
Theorem cycle_error_lists_dependents {W} (resources : obj (Resource W)) :
  NoDup (keys resources) → array_deps resources → dependencies_exist resources →
  (∃ x, tc (depends_on resources) x x) →
  ∃ unprocessed,
    topologicalSort resources
    = Throws (new_Error (circular_dependency_message unprocessed))
    ∧ sublist unprocessed (keys resources)
    ∧ (∀ x, tc (depends_on resources) x x → x ∈ unprocessed)
    ∧ (∀ x y, x ∈ unprocessed → tc (depends_on resources) y x → y ∈ unprocessed).
Proof.
  intros Hnd Harr Hex Hcycle.
  destruct (topologicalSort_run resources Hnd Harr Hex) as (res & _ & Hres & _ & _ & Hsort).
  destruct (topologicalSort_cycle resources Hnd Harr Hex Hcycle) as (u & Hthrows & _).
  destruct (decide (length res ≠ length (keys resources))) as [_|_]; [|congruence].
  exists (filter (λ id, id ∉ res) (keys resources)). split_and!.
  - done.
  - apply sublist_filter.
  - intros x Hx. apply list_elem_of_filter. split.
    + rewrite Hres. intros Hr. by apply (resolvable_not_cyclic resources x).
    + by eapply tc_depends_on_key.
  - intros x y [Hx _]%list_elem_of_filter Htc. apply list_elem_of_filter. split.
    + rewrite Hres in *. intros Hy. apply Hx. by eapply resolvable_tc.
    + by eapply tc_depends_on_key.
Qed.

Lemma cycle_with_dependent_hypotheses :
  NoDup (keys (start_resources cycle_with_dependent))
  ∧ array_deps (start_resources cycle_with_dependent)
  ∧ dependencies_exist (start_resources cycle_with_dependent)
  ∧ tc (depends_on (start_resources cycle_with_dependent)) "a" "a"
  ∧ depends_on (start_resources cycle_with_dependent) "d" "a".
Proof.
  assert (NoDup (keys cycle_with_dependent)) as Hnd by compute_done.
  split_and!.
  - by rewrite keys_start_resources.
  - by apply array_deps_intro.
  - assert (Forall (λ id, Forall (λ dep, dep ∈ keys (start_resources cycle_with_dependent))
                            (deps_of (start_resources cycle_with_dependent) id))
              (keys (start_resources cycle_with_dependent))) as Hall by compute_done.
    intros id dep Hdep. rewrite Forall_forall in Hall.
    specialize (Hall id (depends_on_key _ id dep Hdep)).
    rewrite Forall_forall in Hall. by apply Hall.
  - eapply tc_l; [|apply tc_once]; unfold depends_on; vm_compute; left.
  - unfold depends_on. vm_compute. left.
Qed.

Lemma cycle_error_lists_dependents_witness :
  ∃ unprocessed,
    topologicalSort (start_resources cycle_with_dependent)
    = Throws (new_Error (circular_dependency_message unprocessed))
    ∧ sublist unprocessed (keys (start_resources cycle_with_dependent))
    ∧ "d" ∈ unprocessed.
Proof.
  destruct cycle_with_dependent_hypotheses as (Hnd & Harr & Hex & Hcycle & Hd).
  destruct (cycle_error_lists_dependents (start_resources cycle_with_dependent)
              Hnd Harr Hex (ex_intro _ "a" Hcycle))
    as (u & Hthrows & Hsub & Hon & Hdown).
  exists u. split_and!; [done..|].
  apply (Hdown "a" "d"); [by apply Hon | by apply tc_once].
Defined.



(** ** The start pass in full *)

Create Rewrite HintDb pass_state.
#[local] Hint Rewrite @st_resources_invoked @st_resources_set_errors @st_resources_set_started
  @get_modify_resource : pass_state.

Section start_run.
Context {W : Type}.
Implicit Types (cfg : obj (ResourceConfig W)) (st : PassState W) (r : Resource W).

Lemma resolve_loop_ext ids (s s' : obj Value) acc :
  (∀ dep, dep ∈ ids → get s dep = get s' dep) →
  resolve_loop ids s acc = resolve_loop ids s' acc.
Proof.
  revert acc. induction ids as [|dep ids IH]; intros acc Hagree; simpl; [done|].
  unfold instance_of. rewrite (Hagree dep) by left. apply IH. intros ??. apply Hagree. by right.
Qed.

Lemma start_one_run id st r ds :
  get (st_resources st) id = Some r →
  iterate (dependencies (config r)) = Returns ds →
  let deps := resolve_loop ds (st_started st) [] in
  ∃ st' (ran ok : bool) v e,
    start_one id st = (Returns (), st')
    ∧ st_events st'
      = st_events st
        ++ (if bool_decide (is_Some (assert (config r))) then [AssertCalled id deps] else [])
        ++ (if ran then [StartCalled id deps] else [])
    ∧ st_started st' = set (st_started st) id v
    ∧ st_errors st' = (if ok then st_errors st else set (st_errors st) id e)
    ∧ (ok = false → v = VUndefined)
    ∧ (ran = false → is_Some (assert (config r)) ∧ ok = false).
Proof.
  intros Hr Hit deps. unfold start_one. rewrite Hr.
  unfold resolveDependencies.
  change (st_started (modify_resource id (λ r0, set_status r0 Starting) st))
    with (st_started st).
  rewrite Hit. cbn [mbind Outcome_bind mret Outcome_ret]. fold deps.
  unfold run_assert.
  change (st_world (modify_resource id (λ r0, set_status r0 Starting) st))
    with (st_world st).
  assert (∀ st0 : PassState W, st_started st0 = st_started st → st_errors st0 = st_errors st →
          ∀ evs, st_events st0 = st_events st ++ evs →
          ∃ st' (ran ok : bool) v e,
            (let '(outcome, w) := start (config r) deps (st_world st0) in
             let st1 := invoked (StartCalled id deps) w st0 in
             match outcome with
             | Throws error => (Returns (), start_failed id error st1)
             | Returns instance =>
                 (Returns (),
                  set_started id instance
                    (modify_resource id (λ r0, set_status (set_instance r0 instance) Started) st1))
             end) = (Returns (), st')
            ∧ st_events st' = st_events st ++ evs ++ (if ran then [StartCalled id deps] else [])
            ∧ st_started st' = set (st_started st) id v
            ∧ st_errors st' = (if ok then st_errors st else set (st_errors st) id e)
            ∧ (ok = false → v = VUndefined)
            ∧ ran = true) as Hstart.
  { intros st0 Hs He evs Hev.
    destruct (start (config r) deps (st_world st0)) as [[instance|err] w2].
    - eexists; exists true, true, instance, VUndefined. split_and!; try done.
      + simpl. by rewrite Hev, <- app_assoc.
      + simpl. by rewrite Hs.
    - eexists; exists true, false, VUndefined, err. split_and!; try done.
      + simpl. by rewrite Hev, <- app_assoc.
      + simpl. by rewrite Hs.
      + simpl. by rewrite He. }
  destruct (assert (config r)) as [check|] eqn:Hassert.
  - rewrite bool_decide_eq_true_2 by (by eexists).
    destruct (check deps (st_world st)) as [[[]|err] w1].
    + cbn [truthy].
      destruct (Hstart (invoked (AssertCalled id deps) w1
                          (modify_resource id (λ r0, set_status r0 Starting) st))
                  eq_refl eq_refl [AssertCalled id deps] eq_refl)
        as (st' & ran & ok & v & e & Hrun & ? & ? & ? & ? & ?).
      exists st', ran, ok, v, e. split_and!; try done. by intros; subst.
    + destruct (truthy err) eqn:Htruthy.
      * eexists; exists false, false, VUndefined, (VError (invalid_dependencies_message id) err).
        split_and!; done.
      * destruct (Hstart (invoked (AssertCalled id deps) w1
                          (modify_resource id (λ r0, set_status r0 Starting) st))
                  eq_refl eq_refl [AssertCalled id deps] eq_refl)
          as (st' & ran & ok & v & e & Hrun & ? & ? & ? & ? & ?).
        exists st', ran, ok, v, e. split_and!; try done. by intros; subst.
  - rewrite bool_decide_eq_false_2 by (by intros [? ?]).
    cbn [truthy].
    destruct (Hstart (modify_resource id (λ r0, set_status r0 Starting) st)
                eq_refl eq_refl [] (eq_sym (app_nil_r _)))
      as (st' & ran & ok & v & e & Hrun & ? & ? & ? & ? & ?).
    exists st', ran, ok, v, e. split_and!; try done. by intros; subst.
Qed.


Lemma deps_of_get (R R' : obj (Resource W)) id :
  get R' id = get R id → deps_of R' id = deps_of R id.
Proof. unfold deps_of. by intros ->. Qed.

Lemma asserts_get (R R' : obj (Resource W)) id :
  get R' id = get R id → asserts R' id = asserts R id.
Proof. unfold asserts. by intros ->. Qed.

Lemma flat_map_ext_in {A B} (f g : A → list B) (l : list A) :
  (∀ x, x ∈ l → f x = g x) → flat_map f l = flat_map g l.
Proof.
  induction l as [|x l IH]; intros Hfg; simpl; [done|].
  rewrite (Hfg x) by left. f_equal. apply IH. intros ??. apply Hfg. by right.
Qed.

Lemma filter_ext_in {A} (P Q : A → Prop) `{!∀ x, Decision (P x)} `{!∀ x, Decision (Q x)}
    (l : list A) :
  (∀ x, x ∈ l → P x ↔ Q x) → filter P l = filter Q l.
Proof.
  induction l as [|x l IH]; intros Hpq; [done|].
  rewrite !filter_cons. rewrite IH by (intros ??; apply Hpq; by right).
  destruct (decide (P x)) as [Hp|Hp], (decide (Q x)) as [Hq|Hq]; try done.
  - by apply (Hpq x) in Hp; [|left].
  - by apply (Hpq x) in Hq; [|left].
Qed.

(** The start loop over ids that come after their dependencies. *)
Lemma start_loop_run order st :
  NoDup order →
  (∀ id, id ∈ order → (id ∉ keys (st_started st)) ∧ id ∉ keys (st_errors st)) →
  (∀ id, id ∈ order → ∃ r, get (st_resources st) id = Some r
       ∧ iterate (dependencies (config r)) = Returns (declared r)) →
  (∀ l1 id l2, order = l1 ++ id :: l2 →
     ∀ dep, dep ∈ deps_of (st_resources st) id → dep ∉ id :: l2) →
  ∃ st' (ran ok : string → bool),
    start_loop order st = (Returns (), st')
    ∧ keys (st_started st') = keys (st_started st) ++ order
    ∧ keys (st_errors st') = keys (st_errors st) ++ filter (λ id, ok id = false) order
    ∧ (∀ id, id ∉ order →
         get (st_started st') id = get (st_started st) id
         ∧ get (st_errors st') id = get (st_errors st) id)
    ∧ (∀ id, id ∈ order → ok id = false → get (st_started st') id = Some VUndefined)
    ∧ (∀ id, id ∈ order → ran id = false →
         asserts (st_resources st) id = true ∧ ok id = false)
    ∧ st_events st'
      = st_events st
        ++ flat_map (invocations (st_resources st)
                       (λ id, resolve_loop (deps_of (st_resources st) id) (st_started st') [])
                       ran) order.
Proof.
  revert st. induction order as [|id rest IH]; intros st Hnd Hfresh Hres Hclosed.
  { exists st, (λ _, true), (λ _, true). simpl. rewrite !app_nil_r. by split_and!. }
  apply NoDup_cons in Hnd as [Hid Hnd].
  destruct (Hres id) as (r & Hr & Hit); [left|].
  destruct (start_one_run id st r (declared r) Hr Hit)
    as (st1 & ran1 & ok1 & v & e & Hone & Hev1 & Hstarted1 & Herrors1 & Hv & Hran1).
  destruct (start_one_frame id st) as (st1' & Hone' & Hk1 & Hother1 & _);
    [apply get_is_Some; by eexists|].
  assert (st1' = st1) as -> by congruence.
  destruct (Hfresh id) as [Hns Hne]; [left|].
  assert (∀ x, x ∈ rest → x ≠ id) as Hrest_ne by (intros x Hx ->; done).
  destruct (IH st1) as (st' & ran & ok & Hloop & Hks & Hke & Hframe & Hundef & Hranok & Hev);
    [done| | | |].
  { intros x Hx. destruct (Hfresh x) as [Hxs Hxe]; [by right|].
    rewrite Hstarted1, Herrors1, keys_set_notin by done. split.
    - rewrite not_elem_of_app, list_elem_of_singleton. by split; [|apply Hrest_ne].
    - destruct ok1; [done|]. rewrite keys_set_notin by done.
      rewrite not_elem_of_app, list_elem_of_singleton. by split; [|apply Hrest_ne]. }
  { intros x Hx. destruct (Hother1 x) as (-> & _); [by apply Hrest_ne|].
    apply Hres. by right. }
  { intros l1 x l2 -> dep Hdep.
    assert (x ≠ id) as Hx by (apply Hrest_ne; apply elem_of_app; right; left).
    rewrite (deps_of_get (st_resources st)) in Hdep by (by apply Hother1).
    apply (Hclosed (id :: l1) x l2 eq_refl dep Hdep). }
  set (ran' := λ x, if decide (x = id) then ran1 else ran x).
  set (ok' := λ x, if decide (x = id) then ok1 else ok x).
  exists st', ran', ok'.
  assert (ok' id = ok1) as Hok' by (unfold ok'; by rewrite decide_True).
  assert (ran' id = ran1) as Hran' by (unfold ran'; by rewrite decide_True).
  assert (deps_of (st_resources st) id = declared r) as Hdeps_id
    by (unfold deps_of; by rewrite Hr).
  assert (∀ dep, dep ∈ declared r → get (st_started st') dep = get (st_started st) dep)
    as Hsame.
  { intros dep Hdep. rewrite <- Hdeps_id in Hdep.
    pose proof (Hclosed [] id rest eq_refl dep Hdep) as [Hne' Hnin]%not_elem_of_cons.
    destruct (Hframe dep Hnin) as [-> _]. rewrite Hstarted1. by apply get_set_ne. }
  split_and!.
  - simpl. by rewrite Hone.
  - rewrite Hks, Hstarted1, keys_set_notin, <- app_assoc by done. done.
  - rewrite Hke, Herrors1. rewrite filter_cons, Hok'.
    rewrite (filter_ext_in (λ x, ok' x = false) (λ x, ok x = false) rest).
    2:{ intros x Hx. unfold ok'. by rewrite decide_False by (by apply Hrest_ne). }
    destruct ok1; case_decide; try done.
    rewrite keys_set_notin, <- app_assoc by done. done.
  - intros x [Hx Hnin]%not_elem_of_cons. destruct (Hframe x Hnin) as [-> ->].
    rewrite Hstarted1, Herrors1. rewrite get_set_ne by done. split; [done|].
    destruct ok1; [done|]. by rewrite get_set_ne.
  - intros x Hx Hok. unfold ok' in Hok. destruct (decide (x = id)) as [->|Hxne].
    + destruct (Hframe id Hid) as [-> _]. rewrite Hstarted1, get_set_eq. by rewrite Hv.
    + apply Hundef; [|done]. by apply elem_of_cons in Hx as [?|?].
  - intros x Hx Hran. unfold ran', ok' in *. destruct (decide (x = id)) as [->|Hxne].
    + destruct (Hran1 Hran) as [Has ->]. split; [|done].
      unfold asserts. rewrite Hr. by apply bool_decide_eq_true_2.
    + apply elem_of_cons in Hx as [?|Hx]; [done|].
      destruct (Hranok x Hx Hran) as [Ha ?]. split; [|done].
      rewrite <- Ha. symmetry. apply asserts_get. by apply Hother1.
  - rewrite Hev, Hev1. rewrite <- !app_assoc. f_equal. simpl.
    rewrite app_assoc. f_equal.
    + unfold invocations, asserts. rewrite Hr, Hran', Hdeps_id.
      by rewrite (resolve_loop_ext _ _ _ [] Hsame).
    + apply flat_map_ext_in. intros x Hx.
      assert (x ≠ id) as Hxne by (by apply Hrest_ne).
      unfold invocations, ran'. rewrite decide_False by done.
      rewrite (asserts_get (st_resources st)) by (by apply Hother1).
      rewrite (deps_of_get (st_resources st)) by (by apply Hother1). done.
Qed.


(** A start pass over a valid configuration, as one run of the loop. *)
Lemma start_pass_run cfg (w : W) :
  valid_config cfg →
  ∃ order t st (ran ok : string → bool),
    topologicalSort (start_resources cfg) = Returns order
    ∧ NoDup order ∧ order ≡ₚ keys cfg
    ∧ buildTopology (start_resources cfg) order = Returns t
    ∧ startupOrder t = order ∧ shutdownOrder t = reverse order
    ∧ startSystem cfg w
      = (Returns {| system := st_started st; errors := st_errors st; topology := t |},
         st_events st, st_world st)
    ∧ keys (st_started st) = order
    ∧ keys (st_errors st) = filter (λ id, ok id = false) order
    ∧ (∀ id, id ∈ order → ok id = false → get (st_started st) id = Some VUndefined)
    ∧ (∀ id, id ∈ order → ran id = false →
         asserts (start_resources cfg) id = true ∧ ok id = false)
    ∧ st_events st
      = flat_map (invocations (start_resources cfg)
                    (λ id, resolve_loop (deps_of (start_resources cfg) id) (st_started st) [])
                    ran) order.
Proof.
  intros Hvalid.
  destruct (valid_config_sorted cfg Hvalid) as (order & Hsort & Hndo & Hperm & Hord).
  destruct Hvalid as (Hnd & Harr & Hex & Hac).
  assert (NoDup (keys (start_resources cfg))) as Hndr by (by rewrite keys_start_resources).
  destruct (buildTopology_run (start_resources cfg) order)
    as (t & depth & m & Ht & Hs & Hsh & _); [done..|by rewrite keys_start_resources|done|].
  destruct (start_loop_run order (initial_state (start_resources cfg) w))
    as (st & ran & ok & Hloop & Hks & Hke & _ & Hundef & Hran & Hev); [done| | | |].
  { intros id _. simpl. split; apply not_elem_of_nil. }
  { intros id Hid. simpl. rewrite Hperm, <- keys_start_resources in Hid by done.
    apply get_is_Some in Hid as [r Hr]. exists r. split; [done|].
    eapply Harr. by apply get_Some_elem_of. }
  { intros l1 id l2 -> dep Hdep. simpl in Hdep.
    pose proof (Hord id dep Hdep) as Hlt. apply pos_before in Hlt; [|done].
    intros Hin. apply NoDup_app in Hndo as (_ & Hdisj & _). by apply (Hdisj dep). }
  exists order, t, st, ran, ok. split_and!; try done.
  unfold startSystem. by rewrite Hsort, Ht, Hloop.
Qed.


Lemma keys_resolve_loop ids (s acc : obj Value) :
  keys (resolve_loop ids s acc)
  = keys acc ++ first_occurrences (filter (λ x, x ∉ keys acc) ids).
Proof.
  revert acc. induction ids as [|d ids IH]; intros acc; simpl.
  - by rewrite app_nil_r.
  - rewrite IH. destruct (decide (d ∈ keys acc)) as [Hin|Hnin].
    + rewrite keys_set_in by done. rewrite filter_cons_False by auto. done.
    + rewrite keys_set_notin by done. rewrite filter_cons_True by done. simpl.
      rewrite <- app_assoc. simpl. do 2 f_equal.
      rewrite <- first_occurrences_filter, list_filter_filter.
      f_equal. apply list_filter_iff. intros y. simpl.
      rewrite not_elem_of_app, list_elem_of_singleton. naive_solver.
Qed.

Lemma get_resolve_loop ids (s acc : obj Value) k :
  get (resolve_loop ids s acc) k
  = if decide (k ∈ ids) then Some (instance_of s k) else get acc k.
Proof.
  revert acc. induction ids as [|d ids IH]; intros acc; cbn [resolve_loop].
  - rewrite decide_False; [done|apply not_elem_of_nil].
  - rewrite IH. destruct (decide (k ∈ ids)) as [Hin|Hnin].
    + rewrite decide_True; [done|by right].
    + rewrite get_set. destruct (decide (d = k)) as [->|Hne].
      * rewrite decide_True; [done|left].
      * rewrite decide_False; [done|]. rewrite not_elem_of_cons. by split.
Qed.

End start_run.


Section start_theorems.
Context {W : Type}.
Implicit Types (cfg : obj (ResourceConfig W)) (st : PassState W) (r : Resource W).

Lemma NoDup_flat_map {A B} (f : A → list B) (l : list A) :
  NoDup l → (∀ x, x ∈ l → NoDup (f x)) →
  (∀ x y b, x ∈ l → y ∈ l → b ∈ f x → b ∈ f y → x = y) →
  NoDup (flat_map f l).
Proof.
  induction l as [|x l IH]; intros Hnd Hf Hdisj; simpl; [constructor|].
  apply NoDup_cons in Hnd as [Hx Hnd]. apply NoDup_app. split_and!.
  - apply Hf. left.
  - intros b Hb [y [Hy Hby]]%list_elem_of_In%in_flat_map.
    apply list_elem_of_In in Hy, Hby.
    assert (x = y) as -> by (apply (Hdisj x y b); [left|by right|done..]). done.
  - apply IH; [done|intros; apply Hf; by right|].
    intros ??????. eapply Hdisj; [by right|by right|done..].
Qed.

Lemma invocations_event_id (resources : obj (Resource W)) deps ran id ev :
  ev ∈ invocations resources deps ran id → event_id ev = id.
Proof.
  unfold invocations. intros [Hin|Hin]%elem_of_app.
  - destruct (asserts resources id); [|by apply elem_of_nil in Hin].
    by apply list_elem_of_singleton in Hin as ->.
  - destruct (ran id); [|by apply elem_of_nil in Hin].
    by apply list_elem_of_singleton in Hin as ->.
Qed.

Lemma NoDup_invocations (resources : obj (Resource W)) deps ran id :
  NoDup (invocations resources deps ran id).
Proof.
  unfold invocations. destruct (asserts resources id), (ran id); simpl;
    repeat constructor; set_solver.
Qed.


Lemma elem_of_flat_map {A B} (f : A → list B) (l : list A) b :
  b ∈ flat_map f l ↔ ∃ x, x ∈ l ∧ b ∈ f x.
Proof.
  rewrite list_elem_of_In, in_flat_map. setoid_rewrite list_elem_of_In. done.
Qed.

End start_theorems.

(** In a start pass over a valid configuration the invocations are, for
    each id of the startup order in turn, its assertion (when it declares
    one) followed by its start; the start is left out only for a resource
    with an assertion, which then has an entry in [errors]. Both
    operations are handed the record that maps every declared dependency
    to the entry [system] ends with. No operation is invoked twice, and no
    halt is invoked. *)
Theorem start_pass_invocations {W} (cfg : obj (ResourceConfig W)) (w : W) :
  valid_config cfg →
  ∃ r evs w' (ran : string → bool),
    startSystem cfg w = (Returns r, evs, w')
    ∧ evs = flat_map (invocations (start_resources cfg)
                        (λ id, resolve_loop (deps_of (start_resources cfg) id) (system r) [])
                        ran)
                     (startupOrder (topology r))
    ∧ (∀ id, id ∈ keys cfg → ran id = false →
         asserts (start_resources cfg) id = true ∧ id ∈ keys (errors r))
    ∧ NoDup evs
    ∧ (∀ id instance, HaltCalled id instance ∉ evs).
Proof.
  intros Hvalid.
  destruct (start_pass_run cfg w Hvalid)
    as (order & t & st & ran & ok & Hsort & Hnd & Hperm & Ht & Hs & _ & Hrun & Hks & Hke
        & Hundef & Hran & Hev).
  eexists _, (st_events st), (st_world st), ran. split; [exact Hrun|]. simpl.
  rewrite Hs. split_and!.
  - done.
  - intros id Hid Hr. rewrite <- Hperm in Hid. destruct (Hran id Hid Hr) as [Ha Hok].
    split; [done|]. rewrite Hke. apply list_elem_of_filter. by split.
  - rewrite Hev. apply NoDup_flat_map; [done|intros; apply NoDup_invocations|].
    intros x y b _ _ Hx Hy. apply invocations_event_id in Hx, Hy. congruence.
  - intros id instance. rewrite Hev, elem_of_flat_map. intros (x & _ & Hin).
    unfold invocations in Hin. apply elem_of_app in Hin as [Hin|Hin].
    + destruct (asserts _ x); [|by apply elem_of_nil in Hin].
      by apply list_elem_of_singleton in Hin.
    + destruct (ran x); [|by apply elem_of_nil in Hin].
      by apply list_elem_of_singleton in Hin.
Qed.


(** What a start pass over a valid configuration hands to an assertion or
    a start: a record with exactly the declared dependency ids as keys,
    each mapped to the instance [system] ends with for it, which is
    [undefined] for a dependency that failed. *)
Theorem start_receives_instances {W} (cfg : obj (ResourceConfig W)) (w : W) :
  valid_config cfg →
  ∃ r evs w',
    startSystem cfg w = (Returns r, evs, w')
    ∧ ∀ id deps, AssertCalled id deps ∈ evs ∨ StartCalled id deps ∈ evs →
        keys deps = first_occurrences (deps_of (start_resources cfg) id)
        ∧ (∀ dep, depends_on (start_resources cfg) id dep →
             get deps dep = Some (instance_of (system r) dep)
             ∧ (dep ∈ keys (errors r) → get deps dep = Some VUndefined)).
Proof.
  intros Hvalid.
  destruct (start_pass_run cfg w Hvalid)
    as (order & t & st & ran & ok & Hsort & Hnd & Hperm & Ht & Hs & _ & Hrun & Hks & Hke
        & Hundef & Hran & Hev).
  eexists _, (st_events st), (st_world st). split; [exact Hrun|]. simpl.
  intros id deps Hin.
  assert (deps = resolve_loop (deps_of (start_resources cfg) id) (st_started st) [])
    as ->.
  { rewrite Hev in Hin. rewrite !elem_of_flat_map in Hin.
    destruct Hin as [(x & _ & Hin)|(x & _ & Hin)].
    - pose proof (invocations_event_id _ _ _ _ _ Hin) as Hid. simpl in Hid. subst x.
      unfold invocations in Hin. apply elem_of_app in Hin as [Hin|Hin].
      + destruct (asserts _ id); [|by apply elem_of_nil in Hin].
        apply list_elem_of_singleton in Hin. by injection Hin.
      + destruct (ran id); [|by apply elem_of_nil in Hin].
        by apply list_elem_of_singleton in Hin.
    - pose proof (invocations_event_id _ _ _ _ _ Hin) as Hid. simpl in Hid. subst x.
      unfold invocations in Hin. apply elem_of_app in Hin as [Hin|Hin].
      + destruct (asserts _ id); [|by apply elem_of_nil in Hin].
        by apply list_elem_of_singleton in Hin.
      + destruct (ran id); [|by apply elem_of_nil in Hin].
        apply list_elem_of_singleton in Hin. by injection Hin. }
  split.
  - rewrite keys_resolve_loop. cbn [keys fmap list_fmap app]. f_equal. apply filter_all.
    intros ? _. apply not_elem_of_nil.
  - intros dep Hdep. unfold depends_on in Hdep.
    rewrite get_resolve_loop, decide_True by done. split; [done|].
    rewrite Hke. intros [Hok Hd]%list_elem_of_filter.
    unfold instance_of. by rewrite (Hundef dep Hd Hok).
Qed.

(** Starting a valid configuration and then halting what was started: the
    halt pass returns; it invokes the halts along the reversed startup
    order, each on the instance its start returned, for exactly the
    resources that [system] holds a truthy instance of. A resource with an
    entry in [errors] is not halted, and every halted resource had its
    start invoked. *)
Theorem start_then_halt {W} (cfg : obj (ResourceConfig W)) (w : W) :
  valid_config cfg →
  ∃ r evs w1 errs hevs w2,
    startSystem cfg w = (Returns r, evs, w1)
    ∧ haltSystem cfg (system r) w1 = (Returns {| halt_errors := errs |}, hevs, w2)
    ∧ hevs = (λ id, HaltCalled id (instance_of (system r) id))
               <$> filter (λ id, truthy (instance_of (system r) id) = true)
                     (shutdownOrder (topology r))
    ∧ (∀ id v, HaltCalled id v ∈ hevs →
         get (system r) id = Some v ∧ truthy v = true
         ∧ (id ∉ keys (errors r)) ∧ ∃ deps, StartCalled id deps ∈ evs)
    ∧ (∀ id, id ∈ keys (errors r) → ∀ ev, ev ∈ hevs → event_id ev ≠ id).
Proof.
  intros Hvalid.
  destruct (start_pass_run cfg w Hvalid)
    as (order & t & st & ran & ok & Hsort & Hnd & Hperm & Ht & Hs & Hsh & Hrun & Hks & Hke
        & Hundef & Hran & Hev).
  destruct Hvalid as (Hndc & Harr & Hex & Hac).
  pose proof (haltSystem_run cfg (st_started st) (st_world st) order Hndc) as Hhalt.
  rewrite topologicalSort_halt_start in Hhalt by done. specialize (Hhalt Hsort).
  cbv zeta in Hhalt.
  assert (∀ id v,
            HaltCalled id v ∈ ((λ id, HaltCalled id (instance_of (st_started st) id))
               <$> filter (λ id, truthy (instance_of (st_started st) id) = true)
                     (reverse order)) →
            get (st_started st) id = Some v ∧ truthy v = true
            ∧ (id ∉ keys (st_errors st)) ∧ ∃ deps, StartCalled id deps ∈ st_events st)
    as Hhalted.
  { intros id v (x & Heq & [Htr Hx]%list_elem_of_filter)%list_elem_of_fmap.
    injection Heq as <- ->. rewrite elem_of_reverse in Hx.
    assert (id ∈ keys (st_started st)) as [v Hv]%get_is_Some by (by rewrite Hks).
    unfold instance_of in *. rewrite Hv in *. simpl in Htr.
    assert (ok id = true) as Hok.
    { destruct (ok id) eqn:Hok; [done|]. rewrite (Hundef id Hx Hok) in Hv.
      injection Hv as <-. done. }
    split_and!; [done..| |].
    - rewrite Hke. intros [Hok' _]%list_elem_of_filter. congruence.
    - destruct (ran id) eqn:Hr.
      + eexists. rewrite Hev, elem_of_flat_map. exists id. split; [done|].
        unfold invocations. rewrite Hr. apply elem_of_app. right. left.
      + destruct (Hran id Hx Hr). congruence. }
  eexists _, (st_events st), (st_world st), _, _, _.
  split; [exact Hrun|]. simpl. rewrite Hsh. split; [exact Hhalt|].
  split_and!; [done|done|].
  intros id Hid ev Hin <-.
  apply list_elem_of_fmap in Hin as Hin'. destruct Hin' as (x & -> & _). simpl in Hid.
  by destruct (Hhalted _ _ Hin) as (_ & _ & ? & _).
Qed.

(** What the start of a resource did is what the pass records. When the
    assertion step reports no error, the start is invoked once, on the
    resolved dependencies and in the world the assertion left. If it
    returns an instance, that instance is the entry of the resource in
    [system] and no error is recorded; if it throws, the thrown value
    itself is the entry in [errors] and the [_error] of the resource, and
    its entry in [system] is [undefined]. Either way the loop goes on over
    the remaining ids and returns. *)
Theorem start_outcome_recorded {W} (id : string) (post : list string) (st : PassState W)
    (r : Resource W) (deps : obj Value) (outcome : Outcome Value) (w1 : W) :
  get (st_resources st) id = Some r →
  resolveDependencies r (st_started st) = Returns deps →
  truthy (run_assert id r deps st).1 = false →
  start (config r) deps (st_world (run_assert id r deps st).2) = (outcome, w1) →
  id ∉ post → (∀ x, x ∈ post → x ∈ keys (st_resources st)) →
  ∃ st2 evs,
    start_loop (id :: post) st = (Returns (), st2)
    ∧ st_events st2
      = st_events (run_assert id r deps st).2 ++ StartCalled id deps :: evs
    ∧ (∀ ev, ev ∈ evs → event_id ev ≠ id)
    ∧ match outcome with
      | Returns instance =>
          get (st_started st2) id = Some instance
          ∧ get (st_errors st2) id = get (st_errors st) id
          ∧ (_status <$> get (st_resources st2) id) = Some Started
          ∧ (_instance <$> get (st_resources st2) id) = Some instance
      | Throws error =>
          get (st_started st2) id = Some VUndefined
          ∧ get (st_errors st2) id = Some error
          ∧ (_status <$> get (st_resources st2) id) = Some Failed
          ∧ (_error <$> get (st_resources st2) id) = Some error
      end.
Proof.
  intros Hr Hdeps Htruthy Hstart Hpost Hkeys.
  set (st0 := modify_resource id (λ r0, set_status r0 Starting) st).
  assert ((run_assert id r deps st0).1 = (run_assert id r deps st).1
          ∧ st_world (run_assert id r deps st0).2 = st_world (run_assert id r deps st).2
          ∧ st_events (run_assert id r deps st0).2 = st_events (run_assert id r deps st).2
          ∧ st_started (run_assert id r deps st0).2 = st_started st
          ∧ st_errors (run_assert id r deps st0).2 = st_errors st
          ∧ get (st_resources (run_assert id r deps st0).2) id
            = Some (set_status r Starting)) as (Ha1 & Ha2 & Ha3 & Ha4 & Ha5 & Ha6).
  { unfold run_assert. destruct (assert (config r)) as [check|].
    - change (st_world st0) with (st_world st).
      destruct (check deps (st_world st)) as [o wa]. cbn [fst snd].
      split_and!; try done.
      autorewrite with pass_state. subst st0. rewrite get_modify_resource, decide_True by done.
      by rewrite Hr.
    - cbn [fst snd]. split_and!; try done.
      subst st0. rewrite get_modify_resource, decide_True by done. by rewrite Hr. }
  destruct (start_one_frame id st) as (st1 & Hone & Hk1 & _);
    [apply get_is_Some; by eexists|].
  destruct (start_loop_frame post st1) as (st2 & Hloop & _ & Hframe & evs & Hev2 & Hevs).
  { intros x Hx. rewrite Hk1. by apply Hkeys. }
  destruct (Hframe id Hpost) as (Hres2 & Herr2 & Hstarted2).
  exists st2, evs.
  assert (start_loop (id :: post) st = (Returns (), st2)) as Hwhole.
  { simpl. by rewrite Hone. }
  split; [done|].
  unfold start_one in Hone. rewrite Hr in Hone. fold st0 in Hone.
  change (st_started st0) with (st_started st) in Hone. rewrite Hdeps in Hone.
  destruct (run_assert id r deps st0) as [errorDetected sta] eqn:Hassert.
  cbn [fst snd] in *. rewrite Ha1, Htruthy, Ha2, Hstart in Hone.
  rewrite Hres2, Herr2, Hstarted2, Hev2.
  destruct outcome as [instance|error]; injection Hone as <-.
  - split_and!.
    + simpl. by rewrite Ha3, <- app_assoc.
    + intros ev Hin Heq. apply Hevs in Hin. congruence.
    + simpl. apply get_set_eq.
    + simpl. by rewrite Ha5.
    + autorewrite with pass_state. rewrite decide_True by done. by rewrite Ha6.
    + autorewrite with pass_state. rewrite decide_True by done. by rewrite Ha6.
  - split_and!.
    + simpl. by rewrite Ha3, <- app_assoc.
    + intros ev Hin Heq. apply Hevs in Hin. congruence.
    + simpl. apply get_set_eq.
    + simpl. by rewrite get_set_eq.
    + unfold start_failed. autorewrite with pass_state. rewrite decide_True by done.
      by rewrite Ha6.
    + unfold start_failed. autorewrite with pass_state. rewrite decide_True by done.
      by rewrite Ha6.
Qed.

(** The halt pass rejects what the start pass rejects: when [startSystem]
    throws (nothing invoked, the world as it was), [haltSystem] on the same
    configuration throws the same error with nothing invoked, whatever
    [started] is; and when [startSystem] returns a result, [haltSystem]
    returns one too. *)
Theorem halt_pass_rejects_as_start {W} (cfg : obj (ResourceConfig W))
    (started : obj Value) (w w' : W) :
  NoDup (keys cfg) →
  match startSystem cfg w with
  | (Throws error, evs, w1) =>
      evs = [] ∧ w1 = w ∧ haltSystem cfg started w' = (Throws error, [], w')
  | (Returns _, _, _) =>
      ∃ result hevs w2, haltSystem cfg started w' = (Returns result, hevs, w2)
  end.
Proof.
  intros Hnd.
  destruct (topologicalSort (start_resources cfg)) as [order|e] eqn:Hsort.
  - assert (valid_config cfg) as Hvalid.
    { split; [done|]. eapply topologicalSort_Returns_valid; [|done].
      by rewrite keys_start_resources. }
    destruct (start_pass_run cfg w Hvalid)
      as (? & ? & ? & ? & ? & _ & _ & _ & _ & _ & _ & -> & _).
    pose proof (haltSystem_run cfg started w' order Hnd) as Hhalt.
    rewrite topologicalSort_halt_start in Hhalt by done. specialize (Hhalt Hsort).
    cbv zeta in Hhalt. rewrite Hhalt. by eexists _, _, _.
  - rewrite (startSystem_sort_Throws cfg w e Hsort). split_and!; [done..|].
    unfold haltSystem. rewrite (topologicalSort_halt_start cfg started Hnd). by rewrite Hsort.
Qed.

Lemma halt_pass_rejects_as_start_witness :
  haltSystem missing_dependency [] ["x"]
  = (Throws (new_Error (missing_dependency_message "a" "zz")), [], ["x"]).
Proof.
  pose proof (halt_pass_rejects_as_start missing_dependency [] [] ["x"]
                (proj1 missing_dependency_hypotheses)) as H.
  vm_compute in H. by destruct H as (_ & _ & H).
Defined.

(** ** The views of a topology *)

Section topology_more.
Context {W : Type}.
Implicit Types (resources : obj (Resource W)).

Lemma iterate_declared (r : Resource W) ids :
  iterate (dependencies (config r)) = Returns ids → ids = declared r.
Proof.
  unfold declared. destruct (dependencies (config r)) as [[?|? ?]|]; simpl; congruence.
Qed.

Lemma forward_graph_Returns_inv (entries : list (string * Resource W)) (g g' : obj (list string)) :
  forward_graph entries g = Returns g' →
  ∀ id r, (id, r) ∈ entries → iterate (dependencies (config r)) = Returns (declared r).
Proof.
  revert g. induction entries as [|[id0 r0] entries IH]; intros g Hrun id r Hin.
  { by apply elem_of_nil in Hin. }
  simpl in Hrun. destruct (iterate (dependencies (config r0))) as [ids|] eqn:Hit; [|done].
  simpl in Hrun. apply elem_of_cons in Hin as [[= -> ->]|Hin].
  - by rewrite <- (iterate_declared _ _ Hit).
  - by eapply IH.
Qed.

Lemma init_dependents_spec ids (d : obj (list string)) :
  NoDup ids → (∀ id, id ∈ ids → id ∉ keys d) →
  init_dependents ids d = d ++ ((λ id, (id, [])) <$> ids).
Proof.
  revert d. induction ids as [|id ids IH]; intros d Hnd Hfresh; simpl.
  - by rewrite app_nil_r.
  - apply NoDup_cons in Hnd as [Hid Hnd]. rewrite IH; [|done|].
    + rewrite set_notin by (apply Hfresh; left). by rewrite <- app_assoc.
    + intros x Hx. rewrite keys_set_notin by (apply Hfresh; left).
      rewrite not_elem_of_app, list_elem_of_singleton. split; [apply Hfresh; by right|].
      by intros ->.
Qed.

Lemma push_dependents_spec id deps (d d' : obj (list string)) :
  push_dependents id deps d = Returns d' →
  keys d' = keys d
  ∧ (∀ dep, dep ∈ deps → dep ∈ keys d)
  ∧ (∀ k, get d' k = (λ l, l ++ replicate (occ k deps) id) <$> get d k).
Proof.
  revert d. induction deps as [|dep deps IH]; intros d Hrun; simpl in Hrun.
  - injection Hrun as <-. split_and!; [done|by intros ? ?%elem_of_nil|].
    intros k. rewrite occ_nil. simpl. destruct (get d k); simpl; [by rewrite app_nil_r|done].
  - destruct (get d dep) as [ds|] eqn:Hds; [|done].
    assert (dep ∈ keys d) as Hdep by (apply get_is_Some; by eexists).
    destruct (IH _ Hrun) as (Hk & Hall & Hget). rewrite keys_set_in in Hk, Hall by done.
    split_and!; [done| |].
    + intros x [->|Hx]%elem_of_cons; [done|by apply Hall].
    + intros k. rewrite Hget, get_set, occ_cons.
      destruct (decide (dep = k)) as [->|Hne].
      * rewrite Hds. simpl. by rewrite <- app_assoc.
      * done.
Qed.

Lemma reverse_graph_spec (entries : list (string * list string)) (d d' : obj (list string)) :
  reverse_graph entries d = Returns d' →
  keys d' = keys d
  ∧ (∀ id deps dep, (id, deps) ∈ entries → dep ∈ deps → dep ∈ keys d)
  ∧ (∀ k, get d' k
          = (λ l, l ++ flat_map (λ e, replicate (occ k e.2) e.1) entries) <$> get d k).
Proof.
  revert d. induction entries as [|[id deps] entries IH]; intros d Hrun; simpl in Hrun.
  - injection Hrun as <-. split_and!; [done|by intros ??? ?%elem_of_nil|].
    intros k. simpl. destruct (get d k); simpl; [by rewrite app_nil_r|done].
  - destruct (push_dependents id deps d) as [d1|] eqn:Hpush; [|done]. simpl in Hrun.
    destruct (push_dependents_spec _ _ _ _ Hpush) as (Hk1 & Hall1 & Hget1).
    destruct (IH _ Hrun) as (Hk & Hall & Hget). split_and!; [congruence| |].
    + intros x xs dep [[= -> ->]|Hin]%elem_of_cons Hdep; [by apply Hall1|].
      rewrite <- Hk1. by eapply Hall.
    + intros k. rewrite Hget, Hget1. destruct (get d k); simpl; [|done].
      by rewrite <- app_assoc.
Qed.



Lemma occ_notin k l : k ∉ l → occ k l = O.
Proof.
  intros Hk. destruct (occ k l) eqn:Ho; [done|].
  exfalso. apply Hk, occ_pos. lia.
Qed.


(** The adjacency views of a topology. *)
Lemma buildTopology_adjacency resources order t :
  NoDup (keys resources) →
  buildTopology resources order = Returns t →
  array_deps resources ∧ dependencies_exist resources
  ∧ graph t = (λ e, (e.1, declared e.2)) <$> resources
  ∧ keys (dependents t) = keys resources
  ∧ (∀ k, k ∈ keys resources → get (dependents t) k = Some (dependents_of resources k))
  ∧ totalResources t = length (keys resources)
  ∧ startupOrder t = order.
Proof.
  intros Hnd Hrun. unfold buildTopology in Hrun.
  destruct (forward_graph resources []) as [G|] eqn:HG; [|done]. simpl in Hrun.
  pose proof (forward_graph_Returns_inv _ _ _ HG) as Harr.
  rewrite forward_graph_spec in HG; [|done|intros ? _; apply not_elem_of_nil|done].
  injection HG as <-. simpl in Hrun.
  destruct (reverse_graph _ _) as [rev|] eqn:Hrev; [|done]. simpl in Hrun.
  destruct (compute_depths _ _ _) as [D|]; [|done]. simpl in Hrun. injection Hrun as <-.
  simpl. rewrite init_dependents_spec in Hrev; [|done|intros ? _; apply not_elem_of_nil].
  simpl in Hrev. destruct (reverse_graph_spec _ _ _ Hrev) as (Hk & Hall & Hget).
  rewrite keys_fmap_pair in Hk, Hall.
  assert (dependencies_exist resources) as Hex.
  { intros id dep Hdep. pose proof (depends_on_key _ id dep Hdep) as Hid.
    apply get_is_Some in Hid as [r Hr]. apply get_Some_elem_of in Hr as Hin.
    apply (Hall id (declared r)).
    - apply list_elem_of_fmap. by exists (id, r).
    - by apply (depends_on_entry _ Hnd id r). }
  split_and!; try done.
  intros k Hkin. rewrite Hget, get_fmap_pair by done. simpl. f_equal.
  unfold dependents_of. clear. induction resources as [|[id r] rs IH]; [done|].
  csimpl. by rewrite IH.
Qed.

End topology_more.



Lemma flat_map_fmap {A B C} (f : B → list C) (g : A → B) (l : list A) :
  flat_map f (g <$> l) = flat_map (λ x, f (g x)) l.
Proof. induction l as [|x l IH]; csimpl; [done|]. by rewrite IH. Qed.









(** ** The startup order and the layers *)

Lemma max_list_elem_of_le (ns : list nat) n : n ∈ ns → (n ≤ max_list ns)%nat.
Proof.
  induction ns as [|m ns IH]; intros Hin; [by apply elem_of_nil in Hin|].
  simpl. apply elem_of_cons in Hin as [->|Hin]; [lia|]. specialize (IH Hin). lia.
Qed.

Lemma max_list_attained (ns : list nat) : ns ≠ [] → max_list ns ∈ ns.
Proof.
  induction ns as [|m ns IH]; intros Hne; [done|]. simpl.
  destruct ns as [|m' ns'].
  - simpl. rewrite Nat.max_0_r. left.
  - specialize (IH ltac:(done)).
    destruct (Nat.max_spec m (max_list (m' :: ns'))) as [[_ ->]|[_ ->]]; [by right|left].
Qed.

Lemma StronglySorted_at {A} (R : relation A) (l : list A) p q x y :
  StronglySorted R l → (p < q)%nat → l !! p = Some x → l !! q = Some y → R x y.
Proof.
  intros Hs. revert p q. induction Hs as [|a l Hs IH Hall]; intros p q Hpq Hp Hq.
  { done. }
  destruct q as [|q]; [lia|]. destruct p as [|p].
  - injection Hp as ->. rewrite Forall_forall in Hall. apply Hall.
    by eapply list_elem_of_lookup_2.
  - apply (IH p q); [lia|done..].
Qed.

Lemma StronglySorted_filter {A} (R : relation A) (P : A → Prop) `{!∀ x, Decision (P x)}
    (l : list A) :
  StronglySorted R l → StronglySorted R (filter P l).
Proof.
  intros Hs. apply StronglySorted_filter_lookup. intros p q x y Hpq Hp Hq _ _.
  by eapply StronglySorted_at.
Qed.

Lemma flat_map_filter_sorted {A} (f : A → Z) (ks : list Z) (l : list A) :
  StronglySorted Z.lt ks →
  (∀ x, x ∈ l → f x ∈ ks) →
  StronglySorted (λ x y, f x ≤ f y) l →
  flat_map (λ k, filter (λ x, f x = k) l) ks = l.
Proof.
  intros Hks. revert l. induction Hks as [|k ks Hks IH Hlt]; intros l Hin Hsorted.
  { destruct l as [|x l]; [done|]. exfalso. specialize (Hin x ltac:(left)).
    by apply elem_of_nil in Hin. }
  rewrite Forall_forall in Hlt. cbn [flat_map].
  assert (l = filter (λ x, f x = k) l ++ filter (λ x, ¬ f x = k) l) as Hsplit.
  { apply filter_split_sorted. intros p q x y Hpq Hp Hq Hy.
    pose proof (StronglySorted_at _ _ _ _ _ _ Hsorted Hpq Hp Hq) as Hle. simpl in Hle.
    assert (f x ∈ k :: ks) as Hx by (apply Hin; by eapply list_elem_of_lookup_2).
    apply elem_of_cons in Hx as [?|Hx]; [done|]. specialize (Hlt _ Hx). lia. }
  etrans; [|symmetry; exact Hsplit]. f_equal.
  rewrite <- (IH (filter (λ x, ¬ f x = k) l)).
  - apply flat_map_ext_in. intros k' Hk'. rewrite list_filter_filter.
    apply list_filter_iff. intros x. specialize (Hlt _ Hk'). split; [|by intros [? _]].
    intros ->. split; [done|lia].
  - intros x [Hne Hx]%list_elem_of_filter. specialize (Hin x Hx).
    by apply elem_of_cons in Hin as [?|?].
  - by apply StronglySorted_filter.
Qed.

Lemma StronglySorted_seqZ m n : StronglySorted Z.lt (seqZ m n).
Proof.
  assert (StronglySorted Z.lt (filter (λ _, True) (seqZ m n))) as Hs.
  { apply StronglySorted_filter_lookup. intros p q x y Hpq Hp Hq _ _.
    apply lookup_seqZ in Hp, Hq. lia. }
  by rewrite filter_all in Hs.
Qed.

Section by_layers.
Context {W : Type}.
Implicit Types (resources : obj (Resource W)).

(** A first-in-first-out order goes by depth. *)
Lemma order_by_depth resources order (depth : string → Z) :
  sorted_order resources order →
  dependencies_exist resources →
  (∀ id, id ∈ keys resources →
     0 ≤ depth id
     ∧ (deps_of resources id = [] → depth id = 0)
     ∧ (deps_of resources id ≠ [] →
          (∀ dep, depends_on resources id dep → depth dep + 1 ≤ depth id)
          ∧ (∃ dep, depends_on resources id dep ∧ depth id = depth dep + 1))) →
  ∀ x y, x ∈ keys resources → y ∈ keys resources →
    depth x < depth y → (pos order x < pos order y)%nat.
Proof.
  intros (Hnd & Hperm & Hord & Hlex) Hex Hdepth.
  assert (∀ x y, x ∈ order → y ∈ order →
            (ready_at resources order x < ready_at resources order y)%nat →
            (pos order x < pos order y)%nat) as Hfifo.
  { intros x y Hx Hy Hready.
    destruct (decide (pos order x < pos order y)%nat) as [|Hge]; [done|]. exfalso.
    assert (pos order x ≠ pos order y) as Hne.
    { intros Heq. apply pos_inj in Heq; [|done]. subst. lia. }
    pose proof (Hlex (pos order y) (pos order x) y x ltac:(lia)
                  (pos_lookup _ _ Hy) (pos_lookup _ _ Hx)) as Hl.
    unfold lexlt in Hl. simpl in Hl. lia. }
  assert (∀ k : nat, ∀ x y, x ∈ keys resources → y ∈ keys resources →
            depth y = Z.of_nat k → depth x < depth y → (pos order x < pos order y)%nat)
    as Hmain.
  { induction k as [|k IH]; intros x y Hx Hy Hk Hlt.
    { destruct (Hdepth x Hx) as (? & _). lia. }
    apply Hfifo; [by rewrite Hperm..|].
    destruct (Hdepth y Hy) as (_ & Hzero & Hpos).
    destruct (decide (deps_of resources y = [])) as [Hnil|Hne].
    { specialize (Hzero Hnil). lia. }
    destruct (Hpos Hne) as (_ & w & Hw & Hdw).
    assert (S (pos order w) ≤ ready_at resources order y)%nat as Hry.
    { unfold ready_at. apply max_list_elem_of_le. apply list_elem_of_fmap. by exists w. }
    destruct (decide (deps_of resources x = [])) as [Hxnil|Hxne].
    { unfold ready_at at 1. rewrite Hxnil. simpl. lia. }
    assert (ready_at resources order x
            ∈ (λ dep, S (pos order dep)) <$> deps_of resources x) as Hrx.
    { unfold ready_at. apply max_list_attained. by destruct (deps_of resources x). }
    apply list_elem_of_fmap in Hrx as (u & -> & Hu).
    destruct (Hdepth x Hx) as (_ & _ & Hposx). destruct (Hposx Hxne) as (Hall & _).
    pose proof (Hall u Hu) as Hdu.
    assert (pos order u < pos order w)%nat; [|lia].
    apply (IH u w); [by eapply Hex|by eapply Hex|lia|lia]. }
  intros x y Hx Hy Hlt. destruct (Hdepth y Hy) as (H0 & _).
  apply (Hmain (Z.to_nat (depth y)) x y); [done..|lia|done].
Qed.

End by_layers.

(** The startup order goes layer by layer. For the order [topologicalSort]
    returns, a resource of lower depth always comes before a resource of
    higher depth; and where no id is an array index (an id that is one is
    listed first in its layer), the layers of the topology built from that
    order, one after the other, are the startup order itself. *)
Theorem startup_order_by_layers {W} (resources : obj (Resource W)) (order : list string) :
  NoDup (keys resources) →
  topologicalSort resources = Returns order →
  ∃ t,
    buildTopology resources order = Returns t
    ∧ startupOrder t = order
    ∧ ((∀ id, id ∈ order → array_index id = None) →
         flat_map (λ layer, node_id <$> layer_resources layer) (layers t) = order)
    ∧ (∀ x y dx dy,
         get (depths t) x = Some (Int dx) → get (depths t) y = Some (Int dy) →
         dx < dy → (pos order x < pos order y)%nat).
Proof.
  intros Hnd Hsort.
  destruct (topologicalSort_Returns_inv resources Hnd order Hsort) as [Harr Hex].
  pose proof (topologicalSort_Returns resources Hnd order Hsort) as Hlaws.
  destruct Hlaws as (Hndo & Hperm & Hord & Hlex).
  destruct (buildTopology_run resources order Hnd Harr Hex Hperm Hord)
    as (t & depth & m & Ht & Hs & _ & Hdepths & Hdepth & _ & Hub & _ & Hlayers).
  assert (∀ x y, x ∈ keys resources → y ∈ keys resources →
            depth x < depth y → (pos order x < pos order y)%nat) as Hmono.
  { apply order_by_depth; [by split_and!|done|done]. }
  assert (∀ x d, get (depths t) x = Some (Int d) → x ∈ keys resources ∧ depth x = d)
    as Hget.
  { intros x d Hx. assert (x ∈ keys (depths t)) as Hk by (apply get_is_Some; by eexists).
    rewrite Hdepths, keys_fmap_pair in Hk. rewrite Hdepths, get_fmap_pair in Hx by done.
    injection Hx as <-. split; [by rewrite <- Hperm|done]. }
  exists t. split_and!; [done..| |].
  - intros Hnames. rewrite (own_order_names order Hnames) in Hlayers.
    rewrite Hlayers, flat_map_fmap. simpl.
    rewrite (flat_map_ext_in _ (λ k, filter (λ x, depth x = k) order)).
    2:{ intros k _. rewrite <- list_fmap_compose.
        rewrite (list_fmap_ext _ id (filter (λ id0, depth id0 = k) order)) by done.
        by rewrite list_fmap_id. }
    apply flat_map_filter_sorted.
    + apply StronglySorted_seqZ.
    + intros x Hx. rewrite Hperm in Hx. destruct (Hdepth x Hx) as (? & _).
      pose proof (Hub x Hx). apply elem_of_seqZ. lia.
    + assert (StronglySorted (λ x y, depth x ≤ depth y) (filter (λ _, True) order)) as Hss.
      { apply StronglySorted_filter_lookup. intros p q x y Hpq Hp Hq _ _.
        destruct (decide (depth x ≤ depth y)) as [|Hgt]; [done|]. exfalso.
        assert (pos order y < pos order x)%nat as Hlt.
        { apply Hmono; [rewrite <- Hperm; by eapply list_elem_of_lookup_2..|lia]. }
        rewrite (pos_NoDup _ _ _ Hndo Hp), (pos_NoDup _ _ _ Hndo Hq) in Hlt. lia. }
      by rewrite filter_all in Hss.
  - intros x y dx dy Hx Hy Hlt.
    destruct (Hget x dx Hx) as [? <-]. destruct (Hget y dy Hy) as [? <-].
    by apply Hmono.
Qed.

Lemma startup_order_by_layers_witness :
  ∃ t,
    buildTopology (start_resources diamond) ["config"; "cache"; "db"; "api"] = Returns t
    ∧ flat_map (λ layer, node_id <$> layer_resources layer) (layers t)
      = ["config"; "cache"; "db"; "api"].
Proof.
  destruct (startup_order_by_layers (start_resources diamond) _
              diamond_resources_NoDup diamond_sorted) as (t & ? & _ & Hflat & _).
  exists t. split; [done|]. apply Hflat.
  apply Forall_forall. compute_done.
Defined.

Lemma max_list_same (l l' : list nat) : (∀ n, n ∈ l ↔ n ∈ l') → max_list l = max_list l'.
Proof.
  intros Hsame. apply Nat.le_antisymm; apply max_list_le; intros m Hm;
    apply max_list_elem_of_le; by apply Hsame.
Qed.

Section relisted.
Context {W : Type}.
Implicit Types (resources : obj (Resource W)).

Lemma ready_at_same resources resources' order x :
  (∀ id dep, depends_on resources' id dep ↔ depends_on resources id dep) →
  ready_at resources' order x = ready_at resources order x.
Proof.
  intros Hsame. unfold ready_at. apply max_list_same. intros n.
  rewrite !list_elem_of_fmap. split; intros (dep & -> & Hdep); exists dep;
    (split; [done|]); by apply (Hsame x dep).
Qed.

Lemma tc_depends_on_same resources resources' x y :
  (∀ id dep, depends_on resources' id dep ↔ depends_on resources id dep) →
  tc (depends_on resources') x y → tc (depends_on resources) x y.
Proof.
  intros Hsame Htc. induction Htc as [x y Hd|x z y Hd _ IH].
  - apply tc_once. by apply Hsame.
  - eapply tc_l; [by apply Hsame|done].
Qed.

End relisted.

(** The order depends on the declarations only through which resource
    depends on which: a configuration with the same ids in the same order
    whose resources declare the same dependencies, possibly listed in
    another order or more than once, is sorted into the same order. *)
Theorem order_ignores_listing {W} (resources resources' : obj (Resource W))
    (order : list string) :
  NoDup (keys resources) →
  keys resources' = keys resources →
  array_deps resources' →
  (∀ id dep, depends_on resources' id dep ↔ depends_on resources id dep) →
  topologicalSort resources = Returns order →
  topologicalSort resources' = Returns order.
Proof.
  intros Hnd Hkeys Harr' Hsame Hsort.
  destruct (topologicalSort_Returns_valid resources order Hnd Hsort) as (_ & Hex & Hac).
  pose proof (topologicalSort_Returns resources Hnd order Hsort) as Hlaws.
  assert (NoDup (keys resources')) as Hnd' by (by rewrite Hkeys).
  assert (dependencies_exist resources') as Hex'.
  { intros id dep Hdep. rewrite Hkeys. apply (Hex id dep). by apply Hsame. }
  assert (acyclic resources') as Hac'.
  { intros x Hx. apply (Hac x). by eapply tc_depends_on_same. }
  destruct (topologicalSort_acyclic resources' Hnd' Harr' Hex' Hac') as (order' & Hsort' & _).
  destruct (topologicalSort_Returns resources' Hnd' order' Hsort')
    as (Hndo' & Hperm' & Hord' & Hlex').
  assert (sorted_order resources order') as Hlaws'.
  { split_and!; [done|by rewrite Hperm', Hkeys| |].
    - intros id dep Hdep. apply Hord'. by apply Hsame.
    - intros p q x y Hpq Hp Hq. specialize (Hlex' p q x y Hpq Hp Hq).
      by rewrite !(ready_at_same resources resources'), Hkeys in Hlex'. }
  rewrite Hsort'. f_equal.
  by apply (sorted_order_unique_aux resources order' order [] order' order).
Qed.

Lemma order_ignores_listing_witness :
  topologicalSort (start_resources diamond_relisted)
  = Returns ["config"; "cache"; "db"; "api"].
Proof.
  assert (NoDup (keys diamond_relisted)) as Hnd by compute_done.
  apply (order_ignores_listing (start_resources diamond) (start_resources diamond_relisted)).
  - exact diamond_resources_NoDup.
  - reflexivity.
  - by apply array_deps_intro.
  - assert (Forall (λ id,
              Forall (λ dep, dep ∈ deps_of (start_resources diamond) id)
                (deps_of (start_resources diamond_relisted) id)
              ∧ Forall (λ dep, dep ∈ deps_of (start_resources diamond_relisted) id)
                  (deps_of (start_resources diamond) id))
              (keys (start_resources diamond))) as Hall by compute_done.
    rewrite Forall_forall in Hall.
    intros id dep. unfold depends_on.
    destruct (decide (id ∈ keys (start_resources diamond))) as [Hid|Hid].
    + destruct (Hall id Hid) as [H1 H2]. rewrite Forall_forall in H1, H2.
      split; [apply H1|apply H2].
    + assert (id ∉ keys (start_resources diamond_relisted)) as Hid' by done.
      apply get_None in Hid, Hid'. unfold deps_of. by rewrite Hid, Hid'.
  - exact diamond_sorted.
Defined.

(** ** Ids that are no resources *)







(** ** Rendering *)

Section render.
Context {W : Type}.
Implicit Types (resources : obj (Resource W)).




End render.





Lemma fmap_inj_on {A B} (f : A → B) (l l' : list A) :
  (∀ x y, x ∈ l → y ∈ l' → f x = f y → x = y) → f <$> l = f <$> l' → l = l'.
Proof.
  revert l'. induction l as [|x l IH]; intros [|y l'] Hinj Heq; try done.
  injection Heq as Hxy Heq. f_equal.
  - apply Hinj; [left|left|done].
  - apply IH; [|done]. intros ?????. apply Hinj; [by right|by right|done].
Qed.

Lemma obj_ext {V} (o o' : obj V) :
  NoDup (keys o) → keys o' = keys o → (∀ k, k ∈ keys o → get o' k = get o k) → o' = o.
Proof.
  intros Hnd Hk Hget.
  destruct o as [|[k0 v0] o0] eqn:Ho.
  { destruct o'; [done|discriminate]. }
  rewrite <- Ho in *. clear Ho o0.
  set (f := λ k, default v0 (get o k)).
  assert (∀ k, k ∈ keys o → get o k = Some (f k)) as Hf.
  { intros k [v Hv]%get_is_Some. unfold f. by rewrite Hv. }
  rewrite (obj_eq_fmap o f Hnd Hf).
  rewrite (obj_eq_fmap o' f); [by rewrite Hk|by rewrite Hk|].
  intros k Hin. rewrite Hk in Hin. rewrite Hget by done. by apply Hf.
Qed.

Section json.
Context {W : Type}.
Implicit Types (resources : obj (Resource W)).

Lemma buildTopology_coherent resources order t :
  NoDup (keys resources) →
  order ≡ₚ keys resources →
  (∀ id dep, depends_on resources id dep → (pos order dep < pos order id)%nat) →
  buildTopology resources order = Returns t →
  coherent t.
Proof.
  intros Hnd Hperm Hord Hrun.
  assert (NoDup order) as Hndo by (by rewrite Hperm).
  destruct (buildTopology_adjacency resources order t Hnd Hrun)
    as (Harr & Hex & Hg & Hkd & Hd & _ & _).
  destruct (buildTopology_run resources order Hnd Harr Hex Hperm Hord)
    as (t' & depth & m & Ht & Hs & _ & Hdepths & Hdepth & _ & Hub & _ & Hlayers).
  assert (t' = t) as -> by congruence.
  assert (keys (graph t) = keys resources) as Hkg.
  { rewrite Hg. unfold keys. rewrite <- list_fmap_compose. by apply list_fmap_ext. }
  unfold coherent. rewrite Hkg, Hs. split_and!; try done.
  - rewrite Hdepths. apply keys_fmap_pair.
  - intros id. by rewrite Hperm.
  - intros layer node. rewrite Hlayers.
    intros (k & -> & _)%list_elem_of_fmap. simpl.
    intros (id & -> & [Hk Hid]%list_elem_of_filter)%list_elem_of_fmap. simpl.
    rewrite elem_of_own_order in Hid.
    split_and!; [done| |].
    + rewrite Hdepths, get_fmap_pair by done. by rewrite Hk.
    + rewrite Hd by (by rewrite <- Hperm). done.
  - intros id Hid. rewrite <- Hperm in Hid.
    destruct (Hdepth id) as (Hd0 & _); [by rewrite <- Hperm|].
    pose proof (Hub id) as Hle. rewrite <- Hperm in Hle. specialize (Hle Hid).
    eexists _, _. rewrite Hlayers. split_and!.
    + apply list_elem_of_fmap. exists (depth id). split; [done|]. apply elem_of_seqZ. lia.
    + simpl. apply list_elem_of_fmap. exists id. split; [done|].
      apply list_elem_of_filter. split; [done|]. by apply elem_of_own_order.
    + done.
Qed.

End json.

Lemma toJSON_coherent_inj (t t' : SystemTopology) :
  coherent t → coherent t' → toJSON t = toJSON t' → t = t'.
Proof.
  intros (Hndg & Hkd & Hndo & Hkdep & Hsub & Hnode & Hall)
         (Hndg' & Hkd' & Hndo' & Hkdep' & Hsub' & Hnode' & Hall') Hjson.
  unfold toJSON in Hjson. injection Hjson as Htotal Hmax Hstart Hshut Hlayers Hgraph.
  assert (layers t = layers t') as Hl.
  { apply (fmap_inj_on _ _ _) in Hlayers; [done|].
    intros layer layer' Hin Hin' Heq. injection Heq as Hdepth Hres.
    destruct layer as [d rs], layer' as [d' rs']. simpl in *. subst d'. f_equal.
    apply (fmap_inj_on _ _ _) in Hres; [done|].
    intros node node' Hn Hn' Heq. injection Heq as Hid Hdeps Hdependents.
    destruct (Hnode _ _ Hin Hn) as (Hd1 & _). destruct (Hnode' _ _ Hin' Hn') as (Hd2 & _).
    destruct node, node'. simpl in *. congruence. }
  assert (depths t' = depths t) as Hdepths.
  { apply obj_ext; [by rewrite Hkdep|by rewrite Hkdep, Hkdep'|].
    intros id Hid. rewrite Hkdep in Hid.
    destruct (Hall id (Hsub id Hid)) as (layer & node & Hin & Hn & <-).
    destruct (Hnode _ _ Hin Hn) as (_ & -> & _).
    rewrite Hl in Hin. by destruct (Hnode' _ _ Hin Hn) as (_ & -> & _). }
  assert (dependents t' = dependents t) as Hdependents.
  { apply obj_ext; [by rewrite Hkd|by rewrite Hkd, Hkd', Hgraph|].
    intros id Hid. rewrite Hkd in Hid.
    destruct (Hall id Hid) as (layer & node & Hin & Hn & <-).
    destruct (Hnode _ _ Hin Hn) as (_ & _ & ->).
    rewrite Hl in Hin. by destruct (Hnode' _ _ Hin Hn) as (_ & _ & ->). }
  destruct t, t'. simpl in *. congruence.
Qed.

(** [toJSON] keeps the counts, the orders, the graph and the layers, and
    leaves out the [dependents] and [depths] maps and the depth of each
    node. For topologies built from valid orders nothing is lost by that:
    two of them with the same [toJSON] are the same topology. *)
Theorem toJSON_faithful {W} (resources resources' : obj (Resource W))
    (order order' : list string) (t t' : SystemTopology) :
  NoDup (keys resources) → order ≡ₚ keys resources →
  (∀ id dep, depends_on resources id dep → (pos order dep < pos order id)%nat) →
  NoDup (keys resources') → order' ≡ₚ keys resources' →
  (∀ id dep, depends_on resources' id dep → (pos order' dep < pos order' id)%nat) →
  buildTopology resources order = Returns t →
  buildTopology resources' order' = Returns t' →
  toJSON t = toJSON t' → t = t'.
Proof.
  intros Hnd Hperm Hord Hnd' Hperm' Hord' Ht Ht'.
  apply toJSON_coherent_inj.
  - by apply (buildTopology_coherent resources order).
  - by apply (buildTopology_coherent resources' order').
Qed.

Lemma toJSON_faithful_witness :
  ∃ t t',
    buildTopology (start_resources diamond) ["config"; "cache"; "db"; "api"] = Returns t
    ∧ buildTopology (start_resources diamond) ["config"; "cache"; "db"; "api"] = Returns t'
    ∧ toJSON t = toJSON t' ∧ t = t'.
Proof.
  destruct (topologicalSort_Returns _ diamond_resources_NoDup _ diamond_sorted)
    as (_ & Hperm & Hord & _).
  destruct (buildTopology (start_resources diamond) ["config"; "cache"; "db"; "api"])
    as [t|] eqn:Ht; [|done].
  exists t, t. split_and!; [done..|].
  exact (toJSON_faithful (start_resources diamond) (start_resources diamond) _ _ t t
           diamond_resources_NoDup Hperm Hord diamond_resources_NoDup Hperm Hord Ht Ht
           eq_refl).
Defined.

(** ** The further properties on the example systems *)

Lemma scenario_B_valid : valid_config scenario_B.
Proof. by apply (check_config_sound scenario_B ["a"; "b"]). Qed.

Lemma start_pass_invocations_witness :
  ∃ r evs w' (ran : string → bool),
    startSystem scenario_B [] = (Returns r, evs, w')
    ∧ evs = flat_map (invocations (start_resources scenario_B)
                        (λ id, resolve_loop (deps_of (start_resources scenario_B) id)
                                 (system r) [])
                        ran)
                     (startupOrder (topology r))
    ∧ NoDup evs.
Proof.
  destruct (start_pass_invocations scenario_B [] scenario_B_valid)
    as (r & evs & w' & ran & ? & ? & _ & ? & _).
  by exists r, evs, w', ran.
Defined.


Lemma start_receives_instances_witness :
  ∃ r evs w',
    startSystem scenario_B [] = (Returns r, evs, w')
    ∧ ∀ id deps, AssertCalled id deps ∈ evs ∨ StartCalled id deps ∈ evs →
        keys deps = first_occurrences (deps_of (start_resources scenario_B) id)
        ∧ (∀ dep, depends_on (start_resources scenario_B) id dep →
             get deps dep = Some (instance_of (system r) dep)
             ∧ (dep ∈ keys (errors r) → get deps dep = Some VUndefined)).
Proof. exact (start_receives_instances scenario_B [] scenario_B_valid). Defined.

Lemma start_then_halt_witness :
  ∃ r evs w1 errs hevs w2,
    startSystem scenario_B [] = (Returns r, evs, w1)
    ∧ haltSystem scenario_B (system r) w1 = (Returns {| halt_errors := errs |}, hevs, w2)
    ∧ hevs = [HaltCalled "b" (VStr "ran")]
    ∧ (∀ id, id ∈ keys (errors r) → ∀ ev, ev ∈ hevs → event_id ev ≠ id).
Proof.
  destruct (start_then_halt scenario_B [] scenario_B_valid)
    as (r & evs & w1 & errs & hevs & w2 & Hstart & Hhalt & Hevs & _ & Herr).
  exists r, evs, w1, errs, hevs, w2. split_and!; [done..| |done].
  rewrite Hevs. vm_compute in Hstart. injection Hstart as <- _ _. reflexivity.
Defined.

Lemma start_outcome_recorded_witness :
  ∃ st2 evs,
    start_loop ["a"; "b"] (initial_state (start_resources scenario_B) []) = (Returns (), st2)
    ∧ st_events st2 = StartCalled "a" [] :: evs
    ∧ (∀ ev, ev ∈ evs → event_id ev ≠ "a")
    ∧ get (st_started st2) "a" = Some VUndefined
    ∧ get (st_errors st2) "a" = Some (new_Error "x").
Proof.
  destruct (start_outcome_recorded "a" ["b"]
              (initial_state (start_resources scenario_B) [])
              {| config := resource "a" None (Throws (new_Error "x")) (Returns ());
                 _status := Stopped; _instance := VUndefined; _error := VUndefined |}
              [] (Throws (new_Error "x")) ["start a"])
    as (st2 & evs & Hloop & Hev & Hevs & Hs & He & _);
    [reflexivity..|compute_done|intros x ->%list_elem_of_singleton; compute_done|].
  by exists st2, evs.
Defined.
